(** * A mini React runtime: reconciler, hook store and render scheduler

    Shallow embedding of the core of the runtime
    ([core/reconciler], [core/hooks], [core/render], [core/setup],
    [core/dom], [core/context], [core/elements], [utils/equals])
    and verification of its behaviour.

    The runtime is single threaded.  The process-wide [context] object,
    the host document, the heap of hook arrays and the microtask queue are
    gathered in one [Runtime] record which every operation threads
    explicitly.  Operations that can throw return an [Outcome]. *)

From Stdlib Require Import ZArith Lia.
From stdpp Require Import base option list gmap strings pretty.

Local Open Scope string_scope.

(** ** JavaScript values *)

(** Primitive values and opaque object references.  Two references are the
    same object exactly when their addresses agree. *)
Inductive Value :=
| VUndefined
| VNull
| VBool (b : bool)
| VNum (z : Z)
| VStr (s : string)
| VRef (r : nat).

#[global] Instance Value_eq_dec : EqDecision Value.
Proof. solve_decision. Defined.

(** [Object.is] on the values above. *)
Definition Object_is (a b : Value) : bool := bool_decide (a = b).

(** ** Virtual nodes *)

(** [node.type]: the text marker, a host tag, the fragment marker, a
    component function (named by its identity in the component table) or
    any other symbol. *)
Inductive VType :=
| TEXT_ELEMENT
| HostTag (tag : string)
| Fragment
| ComponentFn (c : nat)
| OtherSymbol (description : string).

#[global] Instance VType_eq_dec : EqDecision VType.
Proof. solve_decision. Defined.

(** A VNode [{ type, key, props }].  [props] is a JavaScript object, kept
    as the list of its own keys in [Object.keys] order.  A child that is an
    "empty value" (null, undefined, boolean) is [None]. *)
Inductive VNode :=
| mkVNode (type : VType) (key : option string) (props : list (string * PropVal))
with PropVal :=
| PValue (v : Value)
| PFunction (f : nat)
| PObject (o : list (string * string))
| PChildren (cs : list (option VNode)).

Definition Props := list (string * PropVal).

Definition node_type (n : VNode) : VType := let 'mkVNode t _ _ := n in t.
Definition node_key (n : VNode) : option string := let 'mkVNode _ k _ := n in k.
Definition node_props (n : VNode) : Props := let 'mkVNode _ _ p := n in p.

(** [props[key]]: [None] when the key is not an own property. *)
Fixpoint prop_get (props : Props) (key : string) : option PropVal :=
  match props with
  | [] => None
  | (k, v) :: rest => if String.eqb k key then Some v else prop_get rest key
  end.

(** [key in props] *)
Definition prop_in (key : string) (props : Props) : bool :=
  match prop_get props key with Some _ => true | None => false end.

(** [String(v)] *)
Definition to_string (v : PropVal) : string :=
  match v with
  | PValue VUndefined => "undefined"
  | PValue VNull => "null"
  | PValue (VBool true) => "true"
  | PValue (VBool false) => "false"
  | PValue (VNum z) => pretty z
  | PValue (VStr s) => s
  | PValue (VRef _) => "[object Object]"
  | PFunction _ => "function"
  | PObject _ => "[object Object]"
  | PChildren _ => ""
  end.

(** Truthiness of a property value. *)
Definition truthy (v : PropVal) : bool :=
  match v with
  | PValue VUndefined | PValue VNull | PValue (VBool false) => false
  | PValue (VNum z) => negb (Z.eqb z 0)
  | PValue (VStr s) => negb (String.eqb s "")
  | _ => true
  end.

(** [typeof v === "function"] *)
Definition is_function (v : PropVal) : bool :=
  match v with PFunction _ => true | _ => false end.

(** [typeof v === "object"]; holds for [null] too. *)
Definition is_object (v : PropVal) : bool :=
  match v with
  | PValue VNull | PValue (VRef _) | PObject _ | PChildren _ => true
  | _ => false
  end.

(** The own enumerable string entries of an object value.  An opaque
    reference or an array of children is read as carrying none: what is
    proved of styles is proved of plain objects of style entries. *)
Definition object_entries (v : PropVal) : list (string * string) :=
  match v with PObject o => o | _ => [] end.

(** Modelled from the spec: [isEmptyValue] of [utils] is not among the
    sources; it is the "empty value" predicate covering null, undefined and
    booleans.  On a child slot it holds exactly for [None]. *)
Definition isEmptyValue (child : option VNode) : bool :=
  match child with None => true | Some _ => false end.

(** [((node.props.children || []) as VNode[]).filter(c => !isEmptyValue(c))]
    for a [children] property that is an array, is absent or is falsy.  On
    any other value [.filter] is not a function; the reconciler reads the
    children through [children_read] below, which throws there. *)
Definition children_of (n : VNode) : list VNode :=
  match prop_get (node_props n) "children" with
  | Some (PChildren cs) => omap id (List.filter (fun c => negb (isEmptyValue c)) cs)
  | _ => []
  end.

(** ** Instances *)

Inductive NodeTypes := TEXT | HOST | FRAGMENT | COMPONENT.

#[global] Instance NodeTypes_eq_dec : EqDecision NodeTypes.
Proof. solve_decision. Defined.

(** An instance owns its children; [i_dom] is the address of the realised
    host node, [None] for fragments and components.

    Instances are values here, where the source has objects that it updates
    in place: a function that updates an instance returns the updated value,
    and its caller stores that value where the source holds the reference.
    The two agree whenever the calls return, because the source stores the
    reference it gets back in the very place it took it from.  They differ
    after an exception: when a component throws in the middle of a
    reconciliation the source has already written [node], [path] and the
    child lists of the subtrees it finished into the committed objects,
    whereas here the value that the caller holds is as it was.  Nothing is
    stated below about the committed instances after a throw. *)
#[warnings="-register-all"]
Inductive Instance :=
| mkInstance (kind : NodeTypes) (dom_ref : option nat) (node : VNode)
    (children : list (option Instance)) (key : option string) (path : string).

Definition i_kind (i : Instance) := let 'mkInstance k _ _ _ _ _ := i in k.
Definition i_dom (i : Instance) := let 'mkInstance _ d _ _ _ _ := i in d.
Definition i_node (i : Instance) := let 'mkInstance _ _ n _ _ _ := i in n.
Definition i_children (i : Instance) := let 'mkInstance _ _ _ c _ _ := i in c.
Definition i_key (i : Instance) := let 'mkInstance _ _ _ _ k _ := i in k.
Definition i_path (i : Instance) := let 'mkInstance _ _ _ _ _ p := i in p.

Definition set_node (n : VNode) (i : Instance) : Instance :=
  let 'mkInstance k d _ c key p := i in mkInstance k d n c key p.
Definition set_path (p : string) (i : Instance) : Instance :=
  let 'mkInstance k d n c key _ := i in mkInstance k d n c key p.
Definition set_children (c : list (option Instance)) (i : Instance) : Instance :=
  let 'mkInstance k d n _ key p := i in mkInstance k d n c key p.

(** ** The host document *)

(** What the adapter can observe of an element: its class name, its event
    listeners, its inline style, its attributes and the generic properties
    assigned on it.

    The generic properties are kept as a map of independent, writable
    properties (as [id], [title] or [value] are), and the attributes as a
    map from names to texts.  What a browser does for other names is outside
    this model: the assignment to a read-only property of an element ends in
    a [TypeError], the setters of [textContent] and [innerHTML] replace the
    children of the element, and [setAttribute] refuses a name that is not
    a valid attribute name.  What is proved of properties below is proved of
    names that are none of these. *)
Record Element := mkElement {
  className : string;
  listeners : list (string * nat);
  style : gmap string string;
  attributes : gmap string string;
  fields : gmap string PropVal
}.

Definition empty_element : Element :=
  {| className := ""; listeners := []; style := ∅; attributes := ∅; fields := ∅ |}.

Inductive NodeData :=
| TextData (nodeValue : string)
| ElementData (tagName : string) (el : Element).

Record DomNode := mkDomNode {
  data : NodeData;
  parentNode : option nat;
  childNodes : list nat
}.

(** Host nodes live in a store addressed by natural numbers; [fresh] is the
    next unused address. *)
Record Document := mkDocument {
  nodes : gmap nat DomNode;
  fresh : nat
}.

(** ** Hooks, effects and the scheduler *)

(** The closure [setState] made by one call of [useState]: it captures the
    hook array [hooks], the index [cursor] and the value [state] that was
    read when the hook was called. *)
Record Setter := mkSetter {
  st_hooks : nat;
  st_cursor : nat;
  st_state : Value
}.

(** The argument of a setter: a value, or an updater function. *)
Inductive NextValue :=
| NextVal (v : Value)
| NextFn (f : Value -> Value).

(** The argument of [useState]: a value, or a zero-argument producer. *)
Inductive InitialValue :=
| InitVal (v : Value)
| InitFn (f : unit -> Value).

(** User callbacks (effect bodies and cleanups).  [cb_id] names the callback
    in the execution log and in the table of user code, which holds the rest
    of its body; [cb_calls] are the calls it makes to state setters it has
    captured. *)
Record Callback := mkCallback {
  cb_id : nat;
  cb_calls : list (Setter * NextValue)
}.

(** An effect function: its body, and the cleanup it returns if any. *)
Record EffectFn := mkEffectFn {
  ef_body : Callback;
  ef_returns : option Callback
}.

(** [EffectHook]: [{ kind: HookTypes.EFFECT, deps, cleanup, effect }] *)
Record EffectHook := mkEffectHook {
  deps : option (list Value);
  cleanup : option Callback;
  effect : EffectFn
}.

(** A slot of a hook array: a state value or an effect record. *)
Inductive Hook :=
| StateHook (v : Value)
| EffectSlot (h : EffectHook).

(** Entries of [context.effects.queue].  The [effect] closure of an entry
    captures the hook array and the cursor of the [useEffect] call. *)
Inductive QueueItem :=
| CleanupItem (path : string) (cursor : nat) (cleanup : Callback)
| EffectItem (path : string) (cursor : nat) (hooks : nat) (effect : EffectFn).

(** Deferred functions waiting in the microtask queue. *)
Inductive Task :=
| RenderTask
| FlushTask
| EffectTask (hooks : nat) (cursor : nat) (effect : EffectFn).

(** [context.root] *)
Record Root := mkRoot {
  container : option nat;
  root_node : option VNode;
  root_instance : option Instance
}.

(** [context.hooks].  [state] maps a path to the address of its hook array
    in the heap of arrays: arrays are shared with the closures that
    captured them. *)
Record Hooks := mkHooks {
  state : gmap string nat;
  cursor : gmap string nat;
  visited : gset string;
  componentStack : list string
}.

(** Modelled from the spec: [withEnqueue] and [enqueue] of [utils] are not
    among the sources.  [enqueue] defers a function to the next microtask;
    [withEnqueue] wraps a function with a pending flag: a request made
    while the flag is set is absorbed, otherwise the flag is set and the
    function is deferred once, the flag being cleared before it runs. *)
Record Scheduler := mkScheduler {
  microtasks : list Task;
  render_pending : bool;
  flush_pending : bool
}.

Record Runtime := mkRuntime {
  document : Document;
  root : Root;
  hooks : Hooks;
  arrays : gmap nat (list Hook);
  next_array : nat;
  queue : list QueueItem;
  scheduler : Scheduler;
  log : list nat
}.

Definition with_document (d : Document) (rt : Runtime) : Runtime :=
  mkRuntime d (root rt) (hooks rt) (arrays rt) (next_array rt) (queue rt) (scheduler rt) (log rt).
Definition with_root (r : Root) (rt : Runtime) : Runtime :=
  mkRuntime (document rt) r (hooks rt) (arrays rt) (next_array rt) (queue rt) (scheduler rt) (log rt).
Definition with_hooks (h : Hooks) (rt : Runtime) : Runtime :=
  mkRuntime (document rt) (root rt) h (arrays rt) (next_array rt) (queue rt) (scheduler rt) (log rt).
Definition with_arrays (a : gmap nat (list Hook)) (rt : Runtime) : Runtime :=
  mkRuntime (document rt) (root rt) (hooks rt) a (next_array rt) (queue rt) (scheduler rt) (log rt).
Definition with_next_array (n : nat) (rt : Runtime) : Runtime :=
  mkRuntime (document rt) (root rt) (hooks rt) (arrays rt) n (queue rt) (scheduler rt) (log rt).
Definition with_queue (q : list QueueItem) (rt : Runtime) : Runtime :=
  mkRuntime (document rt) (root rt) (hooks rt) (arrays rt) (next_array rt) q (scheduler rt) (log rt).
Definition with_scheduler (s : Scheduler) (rt : Runtime) : Runtime :=
  mkRuntime (document rt) (root rt) (hooks rt) (arrays rt) (next_array rt) (queue rt) s (log rt).
Definition with_log (l : list nat) (rt : Runtime) : Runtime :=
  mkRuntime (document rt) (root rt) (hooks rt) (arrays rt) (next_array rt) (queue rt) (scheduler rt) l.

Definition with_state (s : gmap string nat) (h : Hooks) : Hooks :=
  mkHooks s (cursor h) (visited h) (componentStack h).
Definition with_cursor (c : gmap string nat) (h : Hooks) : Hooks :=
  mkHooks (state h) c (visited h) (componentStack h).
Definition with_visited (v : gset string) (h : Hooks) : Hooks :=
  mkHooks (state h) (cursor h) v (componentStack h).
Definition with_componentStack (s : list string) (h : Hooks) : Hooks :=
  mkHooks (state h) (cursor h) (visited h) s.

(** ** Outcomes *)

Inductive Error :=
| HookOutsideComponent   (* "훅은 컴포넌트 내부에서만 호출되어야 합니다" *)
| MissingContainer       (* "렌더 타깃 컨테이너가 없습니다" *)
| NullRoot               (* "null 루트 엘리먼트는 렌더할 수 없습니다" *)
| TypeError
| NotFoundError
| UserError (message : string).

(** A call returns normally, throws, or exhausts the recursion budget of
    the model; the runtime reached is kept in the first two cases. *)
Inductive Outcome (A : Type) :=
| Returned (a : A) (rt : Runtime)
| Thrown (e : Error) (rt : Runtime)
| OutOfFuel.
Arguments Returned {A} a rt.
Arguments Thrown {A} e rt.
Arguments OutOfFuel {A}.

Definition M (A : Type) : Type := Runtime -> Outcome A.

Definition ret {A} (a : A) : M A := fun rt => Returned a rt.
Definition throw {A} (e : Error) : M A := fun rt => Thrown e rt.
Definition bind {A B} (m : M A) (f : A -> M B) : M B :=
  fun rt =>
    match m rt with
    | Returned a rt' => f a rt'
    | Thrown e rt' => Thrown e rt'
    | OutOfFuel => OutOfFuel
    end.
Definition get : M Runtime := fun rt => Returned rt rt.
Definition modify (f : Runtime -> Runtime) : M unit := fun rt => Returned tt (f rt).

(** [try { body } finally { fin }] *)
Definition try_finally {A} (body : M A) (fin : M unit) : M A :=
  fun rt =>
    match body rt with
    | Returned a rt' => bind fin (fun _ => ret a) rt'
    | Thrown e rt' => bind fin (fun _ => throw e) rt'
    | OutOfFuel => OutOfFuel
    end.

Declare Scope rt_scope.
Delimit Scope rt_scope with rt.
Notation "x <- m ;; k" := (bind m (fun x => k))
  (at level 100, m at next level, k at level 200, right associativity) : rt_scope.
Notation "m ;; k" := (bind m (fun _ => k))
  (at level 100, k at level 200, right associativity) : rt_scope.
Local Open Scope rt_scope.

Definition when (b : bool) (m : M unit) : M unit := if b then m else ret tt.

(** Runs [f] on the elements of [l] from left to right and collects what it
    returns. *)
Fixpoint mapM {A B} (f : A -> M B) (l : list A) : M (list B) :=
  match l with
  | [] => ret []
  | x :: rest =>
      y <- f x ;;
      ys <- mapM f rest ;;
      ret (y :: ys)
  end.

(** ** Host operations *)

Definition lookup_node (n : nat) : M (option DomNode) :=
  fun rt => Returned (nodes (document rt) !! n) rt.

Definition with_nodes (ns : gmap nat DomNode) (rt : Runtime) : Runtime :=
  with_document (mkDocument ns (fresh (document rt))) rt.

Definition modify_nodes (f : gmap nat DomNode -> gmap nat DomNode) : M unit :=
  modify (fun rt => with_nodes (f (nodes (document rt))) rt).

Definition alloc_node (d : NodeData) : M nat :=
  fun rt =>
    let doc := document rt in
    let n := fresh doc in
    Returned n
      (with_document (mkDocument (<[n := mkDomNode d None []]> (nodes doc)) (S n)) rt).

(** [document.createTextNode(value)] *)
Definition createTextNode (value : string) : M nat := alloc_node (TextData value).

(** [document.createElement(tag)] *)
Definition createElement (tag : string) : M nat := alloc_node (ElementData tag empty_element).

(** [node.parentNode] *)
Definition parent_of (ns : gmap nat DomNode) (n : nat) : option nat :=
  match ns !! n with Some nd => parentNode nd | None => None end.

Definition remove_id (n : nat) (l : list nat) : list nat :=
  List.filter (fun m => negb (Nat.eqb m n)) l.

(** Takes [n] out of the child list of its parent, if it has one. *)
Definition detach (n : nat) (ns : gmap nat DomNode) : gmap nat DomNode :=
  match parent_of ns n with
  | Some p =>
      alter (fun nd => mkDomNode (data nd) None (childNodes nd)) n
        (alter (fun pd => mkDomNode (data pd) (parentNode pd) (remove_id n (childNodes pd))) p ns)
  | None => ns
  end.

Definition attach_last (p n : nat) (ns : gmap nat DomNode) : gmap nat DomNode :=
  alter (fun nd => mkDomNode (data nd) (Some p) (childNodes nd)) n
    (alter (fun pd => mkDomNode (data pd) (parentNode pd) (childNodes pd ++ [n])) p ns).

Fixpoint insert_before_id (n r : nat) (l : list nat) : list nat :=
  match l with
  | [] => [n]
  | x :: rest => if Nat.eqb x r then n :: x :: rest else x :: insert_before_id n r rest
  end.

Definition attach_before (p n r : nat) (ns : gmap nat DomNode) : gmap nat DomNode :=
  alter (fun nd => mkDomNode (data nd) (Some p) (childNodes nd)) n
    (alter (fun pd => mkDomNode (data pd) (parentNode pd) (insert_before_id n r (childNodes pd))) p ns).

(** [parent.appendChild(n)]: a node that is already placed moves. *)
Definition appendChild (parent : option nat) (n : nat) : M unit :=
  match parent with
  | None => throw TypeError
  | Some p => modify_nodes (fun ns => attach_last p n (detach n ns))
  end.

(** [parent.insertBefore(n, anchor)]: appends when [anchor] is null, throws
    when [anchor] is not a child of [parent]. *)
Definition insertBefore (parent : option nat) (n : nat) (anchor : option nat) : M unit :=
  match parent with
  | None => throw TypeError
  | Some p =>
      match anchor with
      | None => appendChild parent n
      | Some r =>
          rt <- get ;;
          if negb (bool_decide (parent_of (nodes (document rt)) r = Some p)) then throw NotFoundError
          else if Nat.eqb n r then ret tt
          else modify_nodes (fun ns => attach_before p n r (detach n ns))
      end
  end.

(** [parent.removeChild(n)] *)
Definition removeChild (parent : option nat) (n : nat) : M unit :=
  match parent with
  | None => throw TypeError
  | Some p =>
      rt <- get ;;
      if bool_decide (parent_of (nodes (document rt)) n = Some p)
      then modify_nodes (detach n)
      else throw NotFoundError
  end.

Fixpoint after_id (n : nat) (l : list nat) : option nat :=
  match l with
  | [] => None
  | x :: rest => if Nat.eqb x n then head rest else after_id n rest
  end.

(** [n.nextSibling] *)
Definition nextSibling (ns : gmap nat DomNode) (n : nat) : option nat :=
  match parent_of ns n with
  | Some p => match ns !! p with Some pd => after_id n (childNodes pd) | None => None end
  | None => None
  end.

(** [textNode.nodeValue] *)
Definition nodeValue_of (ns : gmap nat DomNode) (n : nat) : option string :=
  match ns !! n with
  | Some nd => match data nd with TextData s => Some s | ElementData _ _ => None end
  | None => None
  end.

(** [textNode.nodeValue = value] *)
Definition set_nodeValue (n : nat) (value : string) : M unit :=
  modify_nodes (alter (fun nd =>
    match data nd with
    | TextData _ => mkDomNode (TextData value) (parentNode nd) (childNodes nd)
    | ElementData _ _ => nd
    end) n).

Definition orphan (n : nat) (ns : gmap nat DomNode) : gmap nat DomNode :=
  alter (fun nd => mkDomNode (data nd) None (childNodes nd)) n ns.

(** [container.innerHTML = ""]: every child leaves the container. *)
Definition clear_children (p : nat) : M unit :=
  modify_nodes (fun ns =>
    match ns !! p with
    | Some pd =>
        alter (fun nd => mkDomNode (data nd) (parentNode nd) []) p
          (foldr orphan ns (childNodes pd))
    | None => ns
    end).

(** Applies [f] to the element stored at [n]. *)
Definition modify_element (n : nat) (f : Element -> Element) : M unit :=
  modify_nodes (alter (fun nd =>
    match data nd with
    | ElementData tag el => mkDomNode (ElementData tag (f el)) (parentNode nd) (childNodes nd)
    | TextData _ => nd
    end) n).

Definition element_at (ns : gmap nat DomNode) (n : nat) : option Element :=
  match ns !! n with
  | Some nd => match data nd with ElementData _ el => Some el | TextData _ => None end
  | None => None
  end.

Definition with_className (c : string) (el : Element) : Element :=
  mkElement c (listeners el) (style el) (attributes el) (fields el).
Definition with_listeners (l : list (string * nat)) (el : Element) : Element :=
  mkElement (className el) l (style el) (attributes el) (fields el).
Definition with_style (s : gmap string string) (el : Element) : Element :=
  mkElement (className el) (listeners el) s (attributes el) (fields el).
Definition with_attributes (a : gmap string string) (el : Element) : Element :=
  mkElement (className el) (listeners el) (style el) a (fields el).
Definition with_fields (f : gmap string PropVal) (el : Element) : Element :=
  mkElement (className el) (listeners el) (style el) (attributes el) f.

Definition same_listener (a b : string * nat) : bool :=
  String.eqb (fst a) (fst b) && Nat.eqb (snd a) (snd b).

(** [dom.addEventListener(name, f)]: a listener registered twice counts once. *)
Definition addEventListener (name : string) (f : nat) (el : Element) : Element :=
  if existsb (same_listener (name, f)) (listeners el) then el
  else with_listeners (listeners el ++ [(name, f)]) el.

(** [dom.removeEventListener(name, f)] *)
Definition removeEventListener (name : string) (f : nat) (el : Element) : Element :=
  with_listeners (List.filter (fun l => negb (same_listener (name, f) l)) (listeners el)) el.

(** [dom.style[k] = v]: assigning the empty string removes the declaration. *)
Definition set_style (k v : string) (el : Element) : Element :=
  with_style (if String.eqb v "" then delete k (style el) else <[k := v]> (style el)) el.

Definition lower_ascii (c : Ascii.ascii) : Ascii.ascii :=
  let n := Ascii.nat_of_ascii c in
  if (65 <=? n)%nat && (n <=? 90)%nat then Ascii.ascii_of_nat (n + 32) else c.

(** [s.toLowerCase()] on ASCII letters. *)
Fixpoint toLowerCase (s : string) : string :=
  match s with
  | EmptyString => EmptyString
  | String c rest => String (lower_ascii c) (toLowerCase rest)
  end.

(** [key.slice(2).toLowerCase()] *)
Definition eventName (key : string) : string :=
  toLowerCase (String.substring 2 (String.length key - 2) key).

(** ** [core/dom]: properties *)

(** One step of the [forEach] of [setDomProps]. *)
Definition setDomProp (el : Element) (kv : string * PropVal) : Element :=
  let '(key, v) := kv in
  if String.eqb key "children" then el
  else if String.prefix "on" key && is_function v then
    match v with PFunction f => addEventListener (eventName key) f el | _ => el end
  else if String.eqb key "className" then
    with_className (if truthy v then to_string v else "") el
  else if String.eqb key "style" && is_object v then
    fold_left (fun e kv => set_style (fst kv) (snd kv) e) (object_entries v) el
  else if String.prefix "data-" key then
    with_attributes (<[key := to_string v]> (attributes el)) el
  else with_fields (<[key := v]> (fields el)) el.

Definition setDomProps_element (props : Props) (el : Element) : Element :=
  fold_left setDomProp props el.

(** [setDomProps(dom, props)] *)
Definition setDomProps (dom : nat) (props : Props) : M unit :=
  modify_element dom (setDomProps_element props).

(** [styleKey in x] needs an object on its right-hand side: it throws a
    [TypeError] on a string, a number or a boolean. *)
Definition in_operand (v : PropVal) : bool :=
  match v with
  | PValue (VRef _) | PFunction _ | PObject _ | PChildren _ => true
  | PValue _ => false
  end.

(** The test [!nextProps[key] || !(styleKey in nextProps[key])] throws:
    [nextProps[key]] is truthy and is not an object. *)
Definition style_test_throws (nextProps : Props) (key : string) : bool :=
  match prop_get nextProps key with
  | Some v => truthy v && negb (in_operand v)
  | None => false
  end.

(** The previous style [v] has a key, so that the test is made, and the
    test throws. *)
Definition style_clash (nextProps : Props) (key : string) (v : PropVal) : bool :=
  match object_entries v with
  | [] => false
  | _ :: _ => style_test_throws nextProps key
  end.

(** [!nextProps[key] || !(styleKey in nextProps[key])], where it does not
    throw.  The keys of a style are names of CSS properties, none of which
    is a name that every object inherits. *)
Definition style_key_gone (nextProps : Props) (key styleKey : string) : bool :=
  match prop_get nextProps key with
  | None => true
  | Some v =>
      negb (truthy v) ||
      negb (existsb (fun kv => String.eqb (fst kv) styleKey) (object_entries v))
  end.

(** One step of the first [forEach] of [updateDomProps]: what is done for a
    key of the previous props. *)
Definition removeDomProp (dom : nat) (nextProps : Props) (kv : string * PropVal) : M unit :=
  let '(key, v) := kv in
  if String.eqb key "children" then ret tt
  else if String.prefix "on" key && is_function v then
    match v with
    | PFunction f => modify_element dom (removeEventListener (eventName key) f)
    | _ => ret tt
    end
  else if String.eqb key "className" then
    (* the body of this branch is empty in the source *)
    ret tt
  else if String.eqb key "style" && is_object v then
    match v with
    | PValue VNull => throw TypeError   (* Object.keys(null) *)
    | _ =>
        (* the test is made for the first style key, before any change *)
        if style_clash nextProps key v then throw TypeError
        else
          modify_element dom (fun el =>
            fold_left (fun e skv =>
              if style_key_gone nextProps key (fst skv) then set_style (fst skv) "" e else e)
              (object_entries v) el)
    end
  else if String.prefix "data-" key then
    when (negb (prop_in key nextProps))
      (modify_element dom (fun el => with_attributes (delete key (attributes el)) el))
  else
    when (negb (prop_in key nextProps))
      (modify_element dom (fun el => with_fields (<[key := PValue VUndefined]> (fields el)) el)).

(** [forEach] with a callback that runs in the runtime. *)
Fixpoint forEach {A} (f : A -> M unit) (l : list A) : M unit :=
  match l with
  | [] => ret tt
  | x :: rest => f x ;; forEach f rest
  end.

(** [updateDomProps(dom, prevProps, nextProps)] *)
Definition updateDomProps (dom : nat) (prevProps nextProps : Props) : M unit :=
  forEach (removeDomProp dom nextProps) prevProps ;;
  setDomProps dom nextProps.

(** ** [core/dom]: instances *)

Fixpoint domNodes (i : Instance) : list nat :=
  match i with
  | mkInstance kind d _ cs _ _ =>
      match kind with
      | TEXT | HOST => match d with Some n => [n] | None => [] end
      | _ => flat_map (fun c => match c with Some c' => domNodes c' | None => [] end) cs
      end
  end.

(** [getDomNodes(instance)] *)
Definition getDomNodes (instance : option Instance) : list nat :=
  match instance with Some i => domNodes i | None => [] end.

Fixpoint firstDom (i : Instance) : option nat :=
  match i with
  | mkInstance kind d _ cs _ _ =>
      match kind with
      | TEXT | HOST => d
      | _ =>
          (fix first (l : list (option Instance)) : option nat :=
             match l with
             | [] => None
             | c :: rest =>
                 match (match c with Some c' => firstDom c' | None => None end) with
                 | Some n => Some n
                 | None => first rest
                 end
             end) cs
      end
  end.

(** [getFirstDom(instance)] *)
Definition getFirstDom (instance : option Instance) : option nat :=
  match instance with Some i => firstDom i | None => None end.

(** [getFirstDomFromChildren(children)] *)
Fixpoint getFirstDomFromChildren (children : list (option Instance)) : option nat :=
  match children with
  | [] => None
  | c :: rest =>
      match getFirstDom c with
      | Some n => Some n
      | None => getFirstDomFromChildren rest
      end
  end.

(** The loop [for (i = 1; ...)] of [insertInstance]: each further node goes
    before the next sibling of the one placed just before it. *)
Fixpoint insert_following (parentDom : option nat) (previous : nat) (rest : list nat) : M unit :=
  match rest with
  | [] => ret tt
  | n :: rest' =>
      rt <- get ;;
      insertBefore parentDom n (nextSibling (nodes (document rt)) previous) ;;
      insert_following parentDom n rest'
  end.

(** [insertInstance(parentDom, instance, anchor)] *)
Definition insertInstance (parentDom : option nat) (instance : option Instance)
    (anchor : option nat) : M unit :=
  match instance with
  | None => ret tt
  | Some _ =>
      match getDomNodes instance with
      | [] => ret tt
      | first :: rest =>
          match anchor with
          | Some a =>
              insertBefore parentDom first (Some a) ;;
              insert_following parentDom first rest
          | None => forEach (appendChild parentDom) (first :: rest)
          end
      end
  end.

(** [removeInstance(parentDom, instance)] *)
Definition removeInstance (parentDom : option nat) (instance : option Instance) : M unit :=
  match instance with
  | None => ret tt
  | Some _ =>
      forEach (fun n =>
        rt <- get ;;
        when (bool_decide (parent_of (nodes (document rt)) n = parentDom))
          (removeChild parentDom n))
        (getDomNodes instance)
  end.

(** ** [utils/equals] *)

(** [shallowCompareArrays(a, b)] *)
Fixpoint compare_elements (a b : list Value) : bool :=
  match a, b with
  | [], _ => true
  | x :: a', y :: b' => if Object_is x y then compare_elements a' b' else false
  | _ :: _, [] => false
  end.

Definition shallowCompareArrays (a b : list Value) : bool :=
  if negb (Nat.eqb (length a) (length b)) then false else compare_elements a b.

(** [shallowEquals(a, b)] on dependency lists: [None] is [null]. *)
Definition shallowEquals (a b : option (list Value)) : bool :=
  match a, b with
  | None, None => true
  | None, Some _ | Some _, None => false
  | Some x, Some y => shallowCompareArrays x y
  end.

(** ** [core/context]: the getters of [context.hooks] *)

(** [context.hooks.currentPath] *)
Definition currentPath : M string :=
  rt <- get ;;
  match last (componentStack (hooks rt)) with
  | None => throw HookOutsideComponent
  | Some p => ret p
  end.

(** [context.hooks.currentCursor] *)
Definition currentCursor : M nat :=
  path <- currentPath ;;
  rt <- get ;;
  ret (default 0 (cursor (hooks rt) !! path)).

(** Allocation of a new array in the heap of hook arrays. *)
Definition new_array (content : list Hook) : M nat :=
  fun rt =>
    let a := next_array rt in
    Returned a (with_next_array (S a) (with_arrays (<[a := content]> (arrays rt)) rt)).

(** [context.hooks.currentHooks]: the array stored for the current path, or
    a new empty array that is not stored anywhere. *)
Definition currentHooks : M nat :=
  path <- currentPath ;;
  rt <- get ;;
  match state (hooks rt) !! path with
  | Some a => ret a
  | None => new_array []
  end.

(** [context.hooks.clear()] *)
Definition hooks_clear : M unit :=
  modify (with_hooks (mkHooks ∅ ∅ ∅ [])).

(** [context.root.reset({ container, node })] *)
Definition root_reset (c : option nat) (n : option VNode) : M unit :=
  modify (with_root (mkRoot c n None)).

(** ** Arrays of hooks *)

Definition read_array (a : nat) : M (list Hook) :=
  fun rt => Returned (default [] (arrays rt !! a)) rt.

Definition write_array (a : nat) (content : list Hook) : M unit :=
  modify (fun rt => with_arrays (<[a := content]> (arrays rt)) rt).

(** [arr[i] = x]: writing at or past the end extends the array, the slots
    in between reading as [undefined]. *)
Definition array_set (arr : list Hook) (i : nat) (x : Hook) : list Hook :=
  if (i <? length arr)%nat then <[i := x]> arr
  else arr ++ replicate (i - length arr) (StateHook VUndefined) ++ [x].

(** [hooks[cursor] as T]: what a state hook reads from a slot.  A slot that
    holds an effect record reads as an opaque object. *)
Definition slot_value (slot : option Hook) : Value :=
  match slot with
  | Some (StateHook v) => v
  | Some (EffectSlot _) => VRef 0
  | None => VUndefined
  end.

(** ** The scheduler *)

Definition modify_scheduler (f : Scheduler -> Scheduler) : M unit :=
  modify (fun rt => with_scheduler (f (scheduler rt)) rt).

(** [enqueue(task)] *)
Definition enqueue (t : Task) : M unit :=
  modify_scheduler (fun s => mkScheduler (microtasks s ++ [t]) (render_pending s) (flush_pending s)).

(** [enqueueRender = withEnqueue(render)] *)
Definition enqueueRender : M unit :=
  rt <- get ;;
  if render_pending (scheduler rt) then ret tt
  else
    modify_scheduler (fun s => mkScheduler (microtasks s) true (flush_pending s)) ;;
    enqueue RenderTask.

(** [flushEffects = withEnqueue(...)], the scheduling half. *)
Definition flushEffects : M unit :=
  rt <- get ;;
  if flush_pending (scheduler rt) then ret tt
  else
    modify_scheduler (fun s => mkScheduler (microtasks s) (render_pending s) true) ;;
    enqueue FlushTask.

(** ** [core/hooks] *)

(** [typeof nextValue === "function" ? nextValue(state) : nextValue] *)
Definition newValue_of (s : Setter) (nextValue : NextValue) : Value :=
  match nextValue with
  | NextFn f => f (st_state s)
  | NextVal v => v
  end.

(** The closure [setState] of [useState], applied to [nextValue]. *)
Definition setState (s : Setter) (nextValue : NextValue) : M unit :=
  let newValue := newValue_of s nextValue in
  if Object_is (st_state s) newValue then ret tt
  else
    arr <- read_array (st_hooks s) ;;
    write_array (st_hooks s) (array_set arr (st_cursor s) (StateHook newValue)) ;;
    enqueueRender.

Definition set_cursor (path : string) (c : nat) : M unit :=
  modify (fun rt => with_hooks (with_cursor (<[path := c]> (cursor (hooks rt))) (hooks rt)) rt).

(** [useState(initialValue)] *)
Definition useState (initialValue : InitialValue) : M (Value * Setter) :=
  path <- currentPath ;;
  cursor <- currentCursor ;;
  hooks <- currentHooks ;;
  arr <- read_array hooks ;;
  when (length arr <=? cursor)%nat
    (let value := match initialValue with InitFn f => f tt | InitVal v => v end in
     write_array hooks (arr ++ [StateHook value])) ;;
  arr <- read_array hooks ;;
  let state := slot_value (arr !! cursor) in
  set_cursor path (cursor + 1) ;;
  ret (state, mkSetter hooks cursor state).

Definition push_queue (item : QueueItem) : M unit :=
  modify (fun rt => with_queue (queue rt ++ [item]) rt).

(** The previous effect record of a slot, when the slot holds one.  A state
    value would pass for a record only as an object with a [kind] property;
    the opaque references of the model have none. *)
Definition prevHook_of (arr : list Hook) (cursor : nat) : option EffectHook :=
  if (cursor <? length arr)%nat then
    match arr !! cursor with
    | Some (EffectSlot h) => Some h
    | _ => None
    end
  else None.

(** [!prevHook || deps === undefined || !shallowEquals(prevHook.deps, deps)] *)
Definition shouldRun (prevHook : option EffectHook) (dependencies : option (list Value)) : bool :=
  match prevHook with
  | None => true
  | Some h =>
      match dependencies with
      | None => true
      | Some _ => negb (shallowEquals (deps h) dependencies)
      end
  end.

(** What [useEffect] pushes for the cleanup stored in the previous record. *)
Definition stored_cleanup (path : string) (cursor : nat) (prevHook : option EffectHook)
    : list QueueItem :=
  match prevHook with
  | Some h => match cleanup h with Some c => [CleanupItem path cursor c] | None => [] end
  | None => []
  end.

(** The array that [currentHooks] yields for [path], and the runtime it
    leaves: a path without a stored array gets a new, unstored one. *)
Definition resolve_hooks (path : string) (rt : Runtime) : nat * Runtime :=
  match state (hooks rt) !! path with
  | Some a => (a, rt)
  | None =>
      (next_array rt,
       with_next_array (S (next_array rt)) (with_arrays (<[next_array rt := []]> (arrays rt)) rt))
  end.

(** [useEffect(effect, deps)]; [dependencies = None] is [deps === undefined]. *)
Definition useEffect (eff : EffectFn) (dependencies : option (list Value)) : M unit :=
  path <- currentPath ;;
  cursor <- currentCursor ;;
  hooks <- currentHooks ;;
  arr <- read_array hooks ;;
  let prevHook := prevHook_of arr cursor in
  (if shouldRun prevHook dependencies then
     match prevHook with
     | Some h =>
         match cleanup h with
         | Some c => push_queue (CleanupItem path cursor c)
         | None => ret tt
         end
     | None => ret tt
     end ;;
     let hook := EffectSlot (mkEffectHook dependencies None eff) in
     (if (length arr <=? cursor)%nat then write_array hooks (arr ++ [hook])
      else write_array hooks (array_set arr cursor hook)) ;;
     push_queue (EffectItem path cursor hooks eff)
   else
     match prevHook with
     | Some h => when (length arr <=? cursor)%nat (write_array hooks (arr ++ [EffectSlot h]))
     | None => ret tt
     end) ;;
  set_cursor path (cursor + 1).

(** [pathsToRemove]: the paths of [state] that were not visited. *)
Definition pathsToRemove (h : Hooks) : list string :=
  List.filter (fun p => negb (bool_decide (p ∈ visited h))) (map fst (map_to_list (state h))).

(** [cleanupUnusedHooks()] *)
Definition cleanupUnusedHooks : M unit :=
  modify (fun rt =>
    let h := hooks rt in
    let paths := pathsToRemove h in
    with_hooks
      (mkHooks (foldr delete (state h) paths) (foldr delete (cursor h) paths) ∅
         (componentStack h)) rt).

(** ** User code *)

(** Running a user callback: it is recorded in the log, calls the setters
    it captured, in order, and then runs the rest of its body.  The body is
    user code: [user id] is any action on the runtime; it may throw, and it
    may leave entries in the effect queue (a body that calls [setup] renders
    at once).  A callback that does no more has the body [ret tt]. *)
Definition run_callback (user : nat -> M unit) (cb : Callback) : M unit :=
  modify (fun rt => with_log (log rt ++ [cb_id cb]) rt) ;;
  forEach (fun call => setState (fst call) (snd call)) (cb_calls cb) ;;
  user (cb_id cb).

(** The closure queued by [useEffect]: runs the effect and records the
    cleanup it returns on the record now in the slot. *)
Definition run_effect (user : nat -> M unit) (hooks cursor : nat) (eff : EffectFn) : M unit :=
  run_callback user (ef_body eff) ;;
  match ef_returns eff with
  | Some c =>
      arr <- read_array hooks ;;
      match arr !! cursor with
      | Some (EffectSlot h) =>
          write_array hooks (<[cursor := EffectSlot (mkEffectHook (deps h) (Some c) (effect h))]> arr)
      | _ => ret tt
      end
  | None => ret tt
  end.

(** A component function, as the sequence of hook calls it makes before it
    returns its child or throws. *)
Inductive Prog :=
| Return (child : option VNode)
| Throw (message : string)
| UseState (initialValue : InitialValue) (k : Value -> Setter -> Prog)
| UseEffect (eff : EffectFn) (dependencies : option (list Value)) (k : Prog).

(** [Component(props)] *)
Fixpoint run_component (p : Prog) : M (option VNode) :=
  match p with
  | Return child => ret child
  | Throw message => throw (UserError message)
  | UseState initialValue k =>
      r <- useState initialValue ;;
      run_component (k (fst r) (snd r))
  | UseEffect eff dependencies k =>
      useEffect eff dependencies ;;
      run_component k
  end.

(** ** [core/elements]: identity paths *)

(** Modelled from the spec: the constants [TEXT_ELEMENT] and [Fragment] of
    [core/constants] are not among the sources; they are well-known symbols,
    and [String(symbol)] prints the description of a symbol. *)
Definition symbol_string (description : string) : string :=
  "Symbol(" ++ description ++ ")".

Section Components.

(** The table of component functions: [component_name c] is
    [displayName || name] of component [c] (empty when it has neither) and
    [components c props] is its body. *)
Variable component_name : nat -> string.
Variable components : nat -> Props -> Prog.

(** The table of user code: [user id] is the rest of the body of callback
    [id]. *)
Variable user : nat -> M unit.

(** The type name used in a positional path. *)
Definition typeName (t : VType) : string :=
  match t with
  | HostTag tag => tag
  | ComponentFn c =>
      if String.eqb (component_name c) "" then "Component" else component_name c
  | TEXT_ELEMENT => symbol_string "mini-react.text"
  | Fragment => symbol_string "mini-react.fragment"
  | OtherSymbol d => symbol_string d
  end.

(** [nodeType] is falsy only when it is the empty string. *)
Definition type_truthy (t : VType) : bool :=
  match t with HostTag tag => negb (String.eqb tag "") | _ => true end.

(** The number of siblings before [index] that have type [nodeType]. *)
Definition typeIndex (index : nat) (nodeType : VType) (siblings : list VNode) : nat :=
  if type_truthy nodeType then
    length (List.filter (fun s => bool_decide (node_type s = nodeType)) (take index siblings))
  else 0.

(** [createChildPath(parentPath, key, index, nodeType, siblings)] *)
Definition createChildPath (parentPath : string) (key : option string) (index : nat)
    (nodeType : VType) (siblings : list VNode) : string :=
  match key with
  | Some k => parentPath ++ "k" ++ k
  | None =>
      parentPath ++ ".i" ++ pretty index ++ ".c" ++ typeName nodeType ++ "_"
        ++ pretty (typeIndex index nodeType siblings)
  end.

(** ** [core/reconciler] *)

Definition push_path (path : string) : M unit :=
  modify (fun rt =>
    with_hooks (with_componentStack (componentStack (hooks rt) ++ [path]) (hooks rt)) rt).

Definition pop_path : M unit :=
  modify (fun rt =>
    with_hooks (with_componentStack (removelast (componentStack (hooks rt))) (hooks rt)) rt).

Definition visit (path : string) : M unit :=
  modify (fun rt => with_hooks (with_visited ({[path]} ∪ visited (hooks rt)) (hooks rt)) rt).

(** [node.props.nodeValue ?? ""] *)
Definition text_of (n : VNode) : string :=
  match prop_get (node_props n) "nodeValue" with
  | None | Some (PValue VUndefined) | Some (PValue VNull) => ""
  | Some v => to_string v
  end.

(** [node.props.children || []] is something [.filter] can be called on:
    the property is an array, is absent or is falsy. *)
Definition children_readable (node : VNode) : bool :=
  match prop_get (node_props node) "children" with
  | Some (PChildren _) | None => true
  | Some v => negb (truthy v)
  end.

(** The children of a node as [mount] and [reconcileChildren] read them:
    [(node.props.children || []).filter(...)] throws a [TypeError] when the
    property is truthy and not an array. *)
Definition children_read (node : VNode) : M (list VNode) :=
  if children_readable node then ret (children_of node) else throw TypeError.

(** The placement of a child that was just mounted where there was no
    previous child, [nextSibling] being the first host node of the previous
    children behind it:
    [if (childInstance && !prevChild && nextSibling) { ... }] *)
Definition place_mounted (parentDom : option nat) (prevChild childInstance : option Instance)
    (nextSibling : option nat) : M unit :=
  match childInstance, prevChild, nextSibling with
  | Some _, None, Some _ =>
      match getFirstDom childInstance with
      | Some firstDom =>
          rt <- get ;;
          when (negb (bool_decide (parent_of (nodes (document rt)) firstDom = parentDom)))
            (insertInstance parentDom childInstance nextSibling)
      | None => ret tt
      end
  | _, _, _ => ret tt
  end.

Section Body.

(** The recursive calls of [reconcile], bounded by the caller. *)
Variable reconcile : option nat -> option Instance -> option VNode -> string -> M (option Instance).

(** [children.map((child, index) => reconcile(dom, null, child, childPath))] *)
Fixpoint mount_children (parentDom : option nat) (path : string) (children : list VNode)
    (index : nat) (rest : list VNode) : M (list (option Instance)) :=
  match rest with
  | [] => ret []
  | child :: rest' =>
      let childPath := createChildPath path (node_key child) index (node_type child) children in
      i <- reconcile parentDom None (Some child) childPath ;;
      others <- mount_children parentDom path children (S index) rest' ;;
      ret (i :: others)
  end.

(** [mountComponent(parentDom, node, path)] *)
Definition mountComponent (parentDom : option nat) (node : VNode) (c : nat) (path : string)
    : M (option Instance) :=
  push_path path ;;
  visit path ;;
  rt <- get ;;
  match state (hooks rt) !! path with
  | Some _ => ret tt
  | None =>
      a <- new_array [] ;;
      modify (fun rt => with_hooks (with_state (<[path := a]> (state (hooks rt))) (hooks rt)) rt)
  end ;;
  rt <- get ;;
  match cursor (hooks rt) !! path with
  | Some _ => ret tt
  | None => set_cursor path 0
  end ;;
  try_finally
    (childNode <- run_component (components c (node_props node)) ;;
     let instance := mkInstance COMPONENT None node [] (node_key node) path in
     match childNode with
     | Some _ =>
         childInstance <- reconcile parentDom None childNode path ;;
         ret (Some (set_children [childInstance] instance))
     | None => ret (Some instance)
     end)
    pop_path.

(** [mount(parentDom, node, path)] *)
Definition mount (parentDom : option nat) (node : VNode) (path : string) : M (option Instance) :=
  match node_type node with
  | TEXT_ELEMENT =>
      textNode <- createTextNode (text_of node) ;;
      let instance := mkInstance TEXT (Some textNode) node [] (node_key node) path in
      insertInstance parentDom (Some instance) None ;;
      ret (Some instance)
  | HostTag tag =>
      dom <- createElement tag ;;
      setDomProps dom (node_props node) ;;
      let instance := mkInstance HOST (Some dom) node [] (node_key node) path in
      children <- children_read node ;;
      cs <- mount_children (Some dom) path children 0 children ;;
      let instance := set_children cs instance in
      insertInstance parentDom (Some instance) None ;;
      ret (Some instance)
  | Fragment =>
      let instance := mkInstance FRAGMENT None node [] (node_key node) path in
      children <- children_read node ;;
      cs <- mount_children parentDom path children 0 children ;;
      ret (Some (set_children cs instance))
  | ComponentFn c => mountComponent parentDom node c path
  | OtherSymbol _ => ret None
  end.

(** The body of the [for] loop of [reconcileChildren] at index [i]. *)
Definition reconcileChild (parentDom : option nat) (path : string)
    (prevChildren : list (option Instance)) (nextChildren : list VNode) (i : nat)
    : M (option Instance) :=
  let prevChild := mjoin (prevChildren !! i) in
  match nextChildren !! i with
  | None =>
      match prevChild with
      | Some _ => removeInstance parentDom prevChild
      | None => ret tt
      end ;;
      ret None
  | Some nextChild =>
      let nextSibling := getFirstDomFromChildren (drop (i + 1) prevChildren) in
      let childPath :=
        createChildPath path (node_key nextChild) i (node_type nextChild) nextChildren in
      childInstance <- reconcile parentDom prevChild (Some nextChild) childPath ;;
      place_mounted parentDom prevChild childInstance nextSibling ;;
      ret childInstance
  end.

(** The [for] loop of [reconcileChildren]: [remaining] iterations are left,
    the next one is at index [i], and [newChildren] holds what was pushed. *)
Fixpoint reconcileChildren_loop (parentDom : option nat) (path : string)
    (prevChildren : list (option Instance)) (nextChildren : list VNode)
    (remaining i : nat) (newChildren : list (option Instance))
    : M (list (option Instance)) :=
  match remaining with
  | 0 => ret newChildren
  | S remaining' =>
      c <- reconcileChild parentDom path prevChildren nextChildren i ;;
      reconcileChildren_loop parentDom path prevChildren nextChildren remaining' (S i)
        (newChildren ++ [c])
  end.

(** [reconcileChildren(parentDom, instance, node, path)]; the instance with
    its new children is returned. *)
Definition reconcileChildren (parentDom : option nat) (instance : Instance) (node : VNode)
    (path : string) : M Instance :=
  let prevChildren := i_children instance in
  nextChildren <- children_read node ;;
  let maxLength := Nat.max (length prevChildren) (length nextChildren) in
  newChildren <-
    reconcileChildren_loop parentDom path prevChildren nextChildren maxLength 0 [] ;;
  ret (set_children newChildren instance).

(** [updateComponent(parentDom, instance, node, path)] *)
Definition updateComponent (parentDom : option nat) (instance : Instance) (node : VNode)
    (c : nat) (path : string) : M (option Instance) :=
  push_path path ;;
  visit path ;;
  set_cursor path 0 ;;
  try_finally
    (childNode <- run_component (components c (node_props node)) ;;
     let instance := set_path path (set_node node instance) in
     let prevChild := mjoin (i_children instance !! 0) in
     nextChild <-
       match childNode with
       | Some _ => reconcile parentDom prevChild childNode path
       | None => ret None
       end ;;
     match nextChild, prevChild with
     | None, Some _ => removeInstance parentDom prevChild
     | _, _ => ret tt
     end ;;
     ret (Some (set_children [nextChild] instance)))
    pop_path.

(** [reconcile(parentDom, instance, node, path)], one level.  Where the
    source writes [node], [path] and [children] into the instance it was
    given and returns it, the updated instance is returned as a new value
    (see the note at [Instance]). *)
Definition reconcile_body (parentDom : option nat) (instance : option Instance)
    (node : option VNode) (path : string) : M (option Instance) :=
  match node with
  | None =>
      match instance with
      | Some _ => removeInstance parentDom instance
      | None => ret tt
      end ;;
      ret None
  | Some node =>
      match instance with
      | None => mount parentDom node path
      | Some inst =>
          if negb (bool_decide (node_type (i_node inst) = node_type node))
             || negb (bool_decide (i_key inst = node_key node))
          then
            removeInstance parentDom instance ;;
            mount parentDom node path
          else
            let inst := set_path path (set_node node inst) in
            match node_type node with
            | TEXT_ELEMENT =>
                let newValue := text_of node in
                match i_dom inst with
                | Some textNode =>
                    rt <- get ;;
                    when (negb (bool_decide
                            (nodeValue_of (nodes (document rt)) textNode = Some newValue)))
                      (set_nodeValue textNode newValue)
                | None => ret tt
                end ;;
                ret (Some inst)
            | HostTag _ =>
                let dom := i_dom inst in
                match dom with
                | Some d => updateDomProps d (node_props (i_node inst)) (node_props node)
                | None => ret tt
                end ;;
                inst' <- reconcileChildren dom inst node path ;;
                ret (Some inst')
            | Fragment =>
                inst' <- reconcileChildren parentDom inst node path ;;
                ret (Some inst')
            | ComponentFn c => updateComponent parentDom inst node c path
            | OtherSymbol _ => ret (Some inst)
            end
      end
  end.

End Body.

(** [reconcile]: each nested call spends one unit of [fuel]. *)
Fixpoint reconcile (fuel : nat) (parentDom : option nat) (instance : option Instance)
    (node : option VNode) (path : string) : M (option Instance) :=
  match fuel with
  | 0 => fun _ => OutOfFuel
  | S fuel' => reconcile_body (reconcile fuel') parentDom instance node path
  end.

(** ** [core/render] *)

(** [render()] *)
Definition render (fuel : nat) : M unit :=
  modify (fun rt => with_hooks (with_componentStack [] (with_visited ∅ (hooks rt))) rt) ;;
  rt <- get ;;
  match container (root rt), root_node (root rt) with
  | Some c, Some node =>
      instance <- reconcile fuel (Some c) (root_instance (root rt)) (Some node) "" ;;
      modify (fun rt => with_root (mkRoot (container (root rt)) (root_node (root rt)) instance) rt)
  | _, _ => ret tt
  end ;;
  cleanupUnusedHooks ;;
  flushEffects.

(** The [while] loop of the function wrapped by [flushEffects]; one
    iteration per unit of [n].  The loop has no bound in the source: it
    goes on for as long as the callbacks it runs leave entries in the
    queue. *)
Fixpoint flush_loop (n : nat) : M unit :=
  fun rt =>
    match queue rt with
    | [] => Returned tt rt
    | item :: rest =>
        match n with
        | 0 => OutOfFuel
        | S n' =>
            (modify (with_queue rest) ;;
             match item with
             | CleanupItem _ _ c => run_callback user c
             | EffectItem _ cursor hooks eff => enqueue (EffectTask hooks cursor eff)
             end ;;
             flush_loop n') rt
        end
    end.

(** The identifiers of the cleanups of a queue, in queue order. *)
Definition cleanup_ids (q : list QueueItem) : list nat :=
  flat_map (fun item =>
    match item with
    | CleanupItem _ _ c => [cb_id c]
    | EffectItem _ _ _ _ => []
    end) q.

(** The deferred effects of a queue, in queue order. *)
Definition deferred_effects (q : list QueueItem) : list Task :=
  flat_map (fun item =>
    match item with
    | CleanupItem _ _ _ => []
    | EffectItem _ cursor hooks eff => [EffectTask hooks cursor eff]
    end) q.

(** The deferred effects among the microtasks, oldest first. *)
Definition effect_tasks (ts : list Task) : list Task :=
  List.filter (fun t => match t with EffectTask _ _ _ => true | _ => false end) ts.

(** What the microtask queue runs for each kind of deferred function; the
    wrappers made by [withEnqueue] clear their flag first.  [fuel] bounds
    the depth of a render and the iterations of a flush. *)
Definition run_task (fuel : nat) (t : Task) : M unit :=
  match t with
  | RenderTask =>
      modify_scheduler (fun s => mkScheduler (microtasks s) false (flush_pending s)) ;;
      render fuel
  | FlushTask =>
      modify_scheduler (fun s => mkScheduler (microtasks s) (render_pending s) false) ;;
      flush_loop fuel
  | EffectTask hooks cursor eff => run_effect user hooks cursor eff
  end.

(** Runs up to [n] microtasks, oldest first.  An exception thrown by a task
    is reported by the host and the next task runs. *)
Fixpoint run_microtasks (fuel n : nat) (rt : Runtime) : option Runtime :=
  match n with
  | 0 => Some rt
  | S n' =>
      match microtasks (scheduler rt) with
      | [] => Some rt
      | t :: rest =>
          let s := scheduler rt in
          let rt := with_scheduler (mkScheduler rest (render_pending s) (flush_pending s)) rt in
          match run_task fuel t rt with
          | Returned _ rt' | Thrown _ rt' => run_microtasks fuel n' rt'
          | OutOfFuel => None
          end
      end
  end.

(** ** [core/setup] *)

(** [setup(rootNode, container)] *)
Definition setup (fuel : nat) (rootNode : option VNode) (c : option nat) : M unit :=
  match c with
  | None => throw MissingContainer
  | Some _ =>
      match rootNode with
      | None => throw NullRoot
      | Some _ =>
          rt <- get ;;
          match root_instance (root rt) with
          | Some _ => removeInstance c (root_instance (root rt))
          | None => ret tt
          end ;;
          match c with Some p => clear_children p | None => ret tt end ;;
          root_reset c rootNode ;;
          hooks_clear ;;
          render fuel
      end
  end.

End Components.

(** ** [core/elements]: the VNode builder *)

Module Elements.

(** What a caller may pass as a child: an empty value, a primitive, a VNode,
    or an array of such, nested to any depth.  The numbers are the integers,
    and [String(n)] is taken to be the decimal numeral of [n], which it is
    for an integer below [10^21] in absolute value; fractions, [NaN], the
    infinities and the integers that [String] prints with an exponent are
    not represented. *)
#[warnings="-register-all"]
Inductive Raw :=
| RUndefined
| RNull
| RBool (b : bool)
| RNum (z : Z)
| RStr (s : string)
| RNode (n : VNode)
| RArray (items : list Raw).

(** [flatten(children)]:
    [children.flatMap(c => Array.isArray(c) ? flatten(c) : c)] *)
Fixpoint flatten_child (child : Raw) : list Raw :=
  match child with
  | RArray items => flat_map flatten_child items
  | _ => [child]
  end.

Definition flatten (children : list Raw) : list Raw := flat_map flatten_child children.

(** [createTextElement(node)] *)
Definition createTextElement (nodeValue : string) : VNode :=
  mkVNode TEXT_ELEMENT None
    [("nodeValue", PValue (VStr nodeValue)); ("children", PChildren [])].

(** [const { key, ...rest } = originProps ?? {}] *)
Definition rest_of (originProps : option Props) : Props :=
  List.filter (fun kv => negb (String.eqb (fst kv) "key")) (default [] originProps).

(** [key ?? null].  The key of a VNode is a string here, as the type of
    [VNode] declares it, and a key of another type is kept as the string
    that [String(key)] makes of it in [createChildPath].  The source keeps
    the value it is given and compares keys with [!==], so it tells the
    number 1 from the string ["1"], which are one key here: what is proved
    of keys is proved of string keys. *)
Definition key_of (originProps : option Props) : option string :=
  match prop_get (default [] originProps) "key" with
  | None | Some (PValue VUndefined) | Some (PValue VNull) => None
  | Some v => Some (to_string v)
  end.

(** [{ ...props, [key]: v }]: an own key keeps its place, a new one comes
    last. *)
Fixpoint prop_set (props : Props) (key : string) (v : PropVal) : Props :=
  match props with
  | [] => [(key, v)]
  | (k, x) :: rest =>
      if String.eqb k key then (k, v) :: rest else (k, x) :: prop_set rest key v
  end.

Section Builder.

(** Modelled from the spec: [isEmptyValue] of [utils] is not among the
    sources.  It holds for null, undefined and booleans and for no VNode;
    which strings and numbers it counts as empty is left open. *)
Variable emptyString : string -> bool.
Variable emptyNumber : Z -> bool.

Definition isEmptyValue (value : Raw) : bool :=
  match value with
  | RUndefined | RNull | RBool _ => true
  | RStr s => emptyString s
  | RNum z => emptyNumber z
  | RNode _ | RArray _ => false
  end.

(** [normalizeNode(node)]; [createElement] calls it on flattened children
    only, so an array does not reach it. *)
Definition normalizeNode (node : Raw) : option VNode :=
  if isEmptyValue node then None
  else
    match node with
    | RStr s => Some (createTextElement s)
    | RNum z => Some (createTextElement (pretty z))
    | RNode n => Some n
    | _ => None
    end.

(** [flatten(rawChildren).map(normalizeNode).filter(n => n !== null)] *)
Definition normalized (rawChildren : list Raw) : list VNode :=
  omap normalizeNode (flatten rawChildren).

(** [createElement(type, originProps, ...rawChildren)] *)
Definition createElement (type : VType) (originProps : option Props) (rawChildren : list Raw)
    : VNode :=
  let children := normalized rawChildren in
  let rest := rest_of originProps in
  let props :=
    match children with
    | [] => rest
    | _ :: _ => prop_set rest "children" (PChildren (map Some children))
    end in
  mkVNode type (key_of originProps) props.

End Builder.

End Elements.

(** ** [utils/equals] on arbitrary values *)

Module Equals.

(** Values with identity: an array or an object is the same as another
    exactly when the two have the same address, whatever they hold. *)
#[warnings="-register-all"]
Inductive JsVal :=
| JUndefined
| JNull
| JBool (b : bool)
| JNum (z : Z)
| JStr (s : string)
| JFunction (f : nat)
| JArray (address : nat) (items : list JsVal)
| JObject (address : nat) (entries : list (string * JsVal)).

(** [Object.is(a, b)] *)
Definition Object_is (a b : JsVal) : bool :=
  match a, b with
  | JUndefined, JUndefined | JNull, JNull => true
  | JBool x, JBool y => Bool.eqb x y
  | JNum x, JNum y => Z.eqb x y
  | JStr x, JStr y => String.eqb x y
  | JFunction f, JFunction g => Nat.eqb f g
  | JArray r _, JArray r' _ => Nat.eqb r r'
  | JObject r _, JObject r' _ => Nat.eqb r r'
  | _, _ => false
  end.

Inductive TypeOf := TUndefined | TObject | TBoolean | TNumber | TString | TFunction.

#[global] Instance TypeOf_eq_dec : EqDecision TypeOf.
Proof. solve_decision. Defined.

(** [typeof value] *)
Definition typeof (value : JsVal) : TypeOf :=
  match value with
  | JUndefined => TUndefined
  | JNull | JArray _ _ | JObject _ _ => TObject
  | JBool _ => TBoolean
  | JNum _ => TNumber
  | JStr _ => TString
  | JFunction _ => TFunction
  end.

(** [isNullOrUndefined(value)] *)
Definition isNullOrUndefined (value : JsVal) : bool :=
  match value with JUndefined | JNull => true | _ => false end.

(** [isObject(value)]: [typeof value === "object" && value !== null] *)
Definition isObject (value : JsVal) : bool :=
  match value with JArray _ _ | JObject _ _ => true | _ => false end.

(** [isArray(value)] *)
Definition isArray (value : JsVal) : bool :=
  match value with JArray _ _ => true | _ => false end.

(** [Object.keys(o)] and [o[key]] *)
Definition keys (entries : list (string * JsVal)) : list string := map fst entries.

Fixpoint get (entries : list (string * JsVal)) (key : string) : JsVal :=
  match entries with
  | [] => JUndefined
  | (k, v) :: rest => if String.eqb k key then v else get rest key
  end.

(** [keys.includes(key)] *)
Definition includes (key : string) (l : list string) : bool := existsb (String.eqb key) l.

(** The loops of the four comparison helpers, over a comparison [eq] of
    two values.  In the loop over [keysA] the value [a[key]] is the one of
    the entry at hand. *)
Fixpoint compareItems (eq : JsVal -> JsVal -> bool) (a b : list JsVal) : bool :=
  match a, b with
  | x :: a', y :: b' => if eq x y then compareItems eq a' b' else false
  | _, _ => true
  end.

Fixpoint compareEntries (eq : JsVal -> JsVal -> bool) (a b : list (string * JsVal)) : bool :=
  match a with
  | [] => true
  | (key, v) :: a' =>
      if negb (includes key (keys b)) then false
      else if negb (eq v (get b key)) then false
      else compareEntries eq a' b
  end.

(** [shallowCompareArrays(a, b)] *)
Definition shallowCompareArrays (a b : list JsVal) : bool :=
  if negb (Nat.eqb (length a) (length b)) then false else compareItems Object_is a b.

(** [shallowCompareObjects(a, b)] *)
Definition shallowCompareObjects (a b : list (string * JsVal)) : bool :=
  if negb (Nat.eqb (length (keys a)) (length (keys b))) then false
  else compareEntries Object_is a b.

(** [shallowEquals(a, b)] *)
Definition shallowEquals (a b : JsVal) : bool :=
  if Object_is a b then true
  else if isNullOrUndefined a || isNullOrUndefined b then false
  else if negb (bool_decide (typeof a = typeof b)) then false
  else if isArray a && isArray b then
    match a, b with
    | JArray _ xs, JArray _ ys => shallowCompareArrays xs ys
    | _, _ => false
    end
  else if isObject a && isObject b && negb (isArray a) && negb (isArray b) then
    match a, b with
    | JObject _ ea, JObject _ eb => shallowCompareObjects ea eb
    | _, _ => false
    end
  else false.

(** [deepEquals(a, b)], with the loops of [deepCompareArrays] and
    [deepCompareObjects] in place. *)
Fixpoint deepEquals (a b : JsVal) {struct a} : bool :=
  if Object_is a b then true
  else if isNullOrUndefined a || isNullOrUndefined b then false
  else if negb (bool_decide (typeof a = typeof b)) then false
  else if isArray a && isArray b then
    match a, b with
    | JArray _ xs, JArray _ ys =>
        if negb (Nat.eqb (length xs) (length ys)) then false
        else
          (fix items (a b : list JsVal) : bool :=
             match a, b with
             | x :: a', y :: b' => if deepEquals x y then items a' b' else false
             | _, _ => true
             end) xs ys
    | _, _ => false
    end
  else if isObject a && isObject b && negb (isArray a) && negb (isArray b) then
    match a, b with
    | JObject _ ea, JObject _ eb =>
        if negb (Nat.eqb (length (keys ea)) (length (keys eb))) then false
        else
          (fix entries (a : list (string * JsVal)) : bool :=
             match a with
             | [] => true
             | (key, v) :: a' =>
                 if negb (includes key (keys eb)) then false
                 else if negb (deepEquals v (get eb key)) then false
                 else entries a'
             end) ea
    | _, _ => false
    end
  else false.

(** [deepCompareArrays(a, b)] *)
Definition deepCompareArrays (a b : list JsVal) : bool :=
  if negb (Nat.eqb (length a) (length b)) then false else compareItems deepEquals a b.

(** [deepCompareObjects(a, b)] *)
Definition deepCompareObjects (a b : list (string * JsVal)) : bool :=
  if negb (Nat.eqb (length (keys a)) (length (keys b))) then false
  else compareEntries deepEquals a b.

(** A dependency of an effect, as a value with identity. *)
Definition of_value (v : Value) : JsVal :=
  match v with
  | VUndefined => JUndefined
  | VNull => JNull
  | VBool b => JBool b
  | VNum z => JNum z
  | VStr s => JStr s
  | VRef r => JObject r []
  end.

(** The dependencies of an effect as a value: [null], or an array at an
    address of its own. *)
Definition of_deps (address : nat) (dependencies : option (list Value)) : JsVal :=
  match dependencies with
  | None => JNull
  | Some l => JArray address (map of_value l)
  end.

(** The same value with every address forgotten. *)
Fixpoint shape (v : JsVal) : JsVal :=
  match v with
  | JArray _ items => JArray 0 (map shape items)
  | JObject _ entries => JObject 0 (map (fun kv => (fst kv, shape (snd kv))) entries)
  | _ => v
  end.

(** No object, at any depth, has a key twice. *)
Fixpoint distinct_keys (v : JsVal) : Prop :=
  match v with
  | JArray _ items =>
      (fix all (l : list JsVal) : Prop :=
         match l with [] => True | x :: l' => distinct_keys x /\ all l' end) items
  | JObject _ entries =>
      NoDup (keys entries) /\
      (fix all (l : list (string * JsVal)) : Prop :=
         match l with [] => True | kv :: l' => distinct_keys (snd kv) /\ all l' end) entries
  | _ => True
  end.

End Equals.

(** * Concrete programs

    Small applications on which the runtime is run below. *)

Module Scenario.

(** A text VNode, as [createTextElement] builds it. *)
Definition text (s : string) : VNode :=
  mkVNode TEXT_ELEMENT None [("nodeValue", PValue (VStr s)); ("children", PChildren [])].

(** A host VNode with unkeyed children. *)
Definition el (tag : string) (props : Props) (cs : list VNode) : VNode :=
  mkVNode (HostTag tag) None (props ++ [("children", PChildren (map Some cs))]).

(** A component VNode without props. *)
Definition use (c : nat) : VNode := mkVNode (ComponentFn c) None [].

(** A document that holds one detached [div], the container, at address 0,
    and a runtime in which nothing has happened yet. *)
Definition initial : Runtime :=
  mkRuntime (mkDocument {[ 0 := mkDomNode (ElementData "div" empty_element) None [] ]} 1)
    (mkRoot None None None) (mkHooks ∅ ∅ ∅ []) ∅ 0 [] (mkScheduler [] false false) [].

Definition returned {A} (o : Outcome A) : option Runtime :=
  match o with Returned _ rt => Some rt | _ => None end.

(** The tags (or texts) of the children of host node [n], in document order. *)
Definition child_tags (rt : Runtime) (n : nat) : list string :=
  match nodes (document rt) !! n with
  | Some nd =>
      map (fun c =>
        match nodes (document rt) !! c with
        | Some (mkDomNode (ElementData t _) _ _) => t
        | Some (mkDomNode (TextData t) _ _) => "#" ++ t
        | None => "?"
        end) (childNodes nd)
  | None => []
  end.

Definition child_ids (rt : Runtime) (n : nat) : list nat :=
  match nodes (document rt) !! n with Some nd => childNodes nd | None => [] end.

(** The setter of the state hook in slot 0 of the root component, as it was
    handed out by the render that read [v]. *)
Definition root_setter (v : Z) : Setter := mkSetter 0 0 (VNum v).

(** ** An unkeyed list that grows at the front *)

Definition li (s : string) : VNode := el "li" [] [text s].
Definition list_abc : VNode := el "ul" [] [li "A"; li "B"; li "C"].
Definition list_xabc : VNode := el "ul" [] [li "X"; li "A"; li "B"; li "C"].
Definition no_name (c : nat) : string := "".
Definition no_components (c : nat) (p : Props) : Prog := Return None.

(** Callbacks that do no more than call their setters. *)
Definition no_user (id : nat) : M unit := ret tt.

(** The list [A B C] is mounted under the container. *)
Definition abc_mounted : option Runtime :=
  returned (setup no_name no_components 10 (Some list_abc) (Some 0) initial).

Definition abc_runtime : Runtime := default initial abc_mounted.

(** The instance of the [ul] that the mount committed. *)
Definition abc_instance : Instance :=
  default (mkInstance TEXT None (text "") [] None "") (root_instance (root abc_runtime)).

(** The text of host node [n]. *)
Definition text_at (rt : Runtime) (n : nat) : option string :=
  nodeValue_of (nodes (document rt)) n.

(** ** A child mounted in a hole that an earlier render left *)

(** The first render has a child of a type that [mount] does not know, so the
    child list of the [div] starts with a hole; the second render puts a
    [p] there. *)
Definition hole_name (c : nat) : string := "App".
Definition hole_app (c : nat) (p : Props) : Prog :=
  UseState (InitVal (VNum 0)) (fun v _ =>
    match v with
    | VNum 0 => Return (Some (el "div" [] [mkVNode (OtherSymbol "x") None []; el "span" [] []]))
    | _ => Return (Some (el "div" [] [el "p" [] []; el "span" [] []]))
    end).

(** The root setter is called with 1, then the microtasks run. *)
Definition hole_mounted : option Runtime :=
  returned (setup hole_name hole_app 10 (Some (use 0)) (Some 0) initial).
Definition hole_filled : option Runtime :=
  rt ← hole_mounted;
  rt' ← returned (setState (root_setter 0) (NextVal (VNum 1)) rt);
  run_microtasks hole_name hole_app no_user 10 5 rt'.

(** The host nodes of the children of the only child of the root component;
    a hole shows as [None]. *)
Definition committed_children (rt : Runtime) : list (option (option nat)) :=
  match root_instance (root rt) with
  | Some app =>
      match i_children app with
      | [Some host] => map (option_map i_dom) (i_children host)
      | _ => []
      end
  | None => []
  end.

(** ** Props that go away *)

(** [App] renders a [div] with an [id], a [data-k] attribute, a class and a
    click listener, then a [div] without any prop. *)
Definition props_name (c : nat) : string := "App".
Definition props_app (c : nat) (p : Props) : Prog :=
  UseState (InitVal (VNum 0)) (fun v _ =>
    match v with
    | VNum 0 =>
        Return (Some (el "div"
          [("id", PValue (VStr "x")); ("data-k", PValue (VStr "v"));
           ("className", PValue (VStr "a")); ("onClick", PFunction 7)] []))
    | _ => Return (Some (el "div" [] []))
    end).
Definition props_mounted : option Runtime :=
  returned (setup props_name props_app 10 (Some (use 0)) (Some 0) initial).
Definition props_dropped : option Runtime :=
  rt ← props_mounted;
  rt' ← returned (setState (root_setter 0) (NextVal (VNum 1)) rt);
  run_microtasks props_name props_app no_user 10 5 rt'.

(** The container element after [setDomProps] with a class name. *)
Definition with_class : option Runtime :=
  returned (setDomProps 0 [("className", PValue (VStr "a"))] initial).

Definition element_of (rt : Runtime) (n : nat) : Element :=
  default empty_element (element_at (nodes (document rt)) n).

(** ** Siblings of one type that change position among their type *)

(** [App] renders [A B A], then [B B A], then [B B], then [B B A] again;
    [A] holds one state hook with initial value 7 and shows it. *)
Definition shift_name (c : nat) : string :=
  match c with 0 => "App" | 1 => "A" | _ => "B" end.
Definition shift_app (c : nat) (p : Props) : Prog :=
  match c with
  | 0 =>
      UseState (InitVal (VNum 0)) (fun v _ =>
        match v with
        | VNum 0 => Return (Some (el "div" [] [use 1; use 2; use 1]))
        | VNum 1 => Return (Some (el "div" [] [use 2; use 2; use 1]))
        | VNum 2 => Return (Some (el "div" [] [use 2; use 2]))
        | _ => Return (Some (el "div" [] [use 2; use 2; use 1]))
        end)
  | 1 => UseState (InitVal (VNum 7)) (fun v _ => Return (Some (text (to_string (PValue v)))))
  | _ => Return (Some (text "b"))
  end.

(** The root setter is called with [v], then the microtasks run. *)
Definition shift_step (v : Z) (rt : Runtime) : option Runtime :=
  rt' ← returned (setState (root_setter (v - 1)) (NextVal (VNum v)) rt);
  run_microtasks shift_name shift_app no_user 10 5 rt'.

Definition shift_mounted : option Runtime :=
  returned (setup shift_name shift_app 10 (Some (use 0)) (Some 0) initial).
Definition shift_moved : option Runtime := shift_mounted ≫= shift_step 1.
Definition shift_removed : option Runtime := shift_moved ≫= shift_step 2.
Definition shift_remounted : option Runtime := shift_removed ≫= shift_step 3.

(** ** An effect in a component that changes position among its type *)

Definition effect1 : EffectFn := mkEffectFn (mkCallback 1 []) (Some (mkCallback 11 [])).

(** [App] renders [E E], then [A E]; [E] calls
    [useEffect(effect1, [7])]. *)
Definition regate_name (c : nat) : string :=
  match c with 0 => "App" | 1 => "A" | _ => "E" end.
Definition regate_app (c : nat) (p : Props) : Prog :=
  match c with
  | 0 =>
      UseState (InitVal (VNum 0)) (fun v _ =>
        match v with
        | VNum 0 => Return (Some (el "div" [] [use 2; use 2]))
        | _ => Return (Some (el "div" [] [use 1; use 2]))
        end)
  | 1 => Return (Some (text "a"))
  | _ => UseEffect effect1 (Some [VNum 7]) (Return (Some (text "e")))
  end.

(** The root setter is called with [v], then the microtasks run: the
    render, the flush and the deferred effects. *)
Definition regate_step (v : Z) (rt : Runtime) : option Runtime :=
  rt' ← returned (setState (root_setter (v - 1)) (NextVal (VNum v)) rt);
  run_microtasks regate_name regate_app no_user 10 5 rt'.

Definition regate_mounted : option Runtime :=
  rt ← returned (setup regate_name regate_app 10 (Some (use 0)) (Some 0) initial);
  run_microtasks regate_name regate_app no_user 10 5 rt.
Definition regate_shifted : option Runtime := regate_mounted ≫= regate_step 1.
Definition regate_again : option Runtime := regate_shifted ≫= regate_step 2.
Definition regate_third : option Runtime := regate_again ≫= regate_step 3.

(** ** A component that throws *)

Definition boom_name (c : nat) : string := "Boom".
Definition boom (c : nat) (p : Props) : Prog :=
  UseState (InitVal (VNum 0)) (fun _ _ => Throw "boom").

(** ** Callbacks *)

(** ** A counter *)

Definition counter_name (c : nat) : string := "Counter".
Definition counter (c : nat) (p : Props) : Prog :=
  UseState (InitVal (VNum 0)) (fun v _ => Return (Some (text (to_string (PValue v))))).

(** The counter is mounted, its setter is called with 1 and the render this
    schedules has run. *)
Definition counter_rerendered : option Runtime :=
  rt ← returned (setup counter_name counter 10 (Some (use 0)) (Some 0) initial);
  rt' ← returned (setState (root_setter 0) (NextVal (VNum 1)) rt);
  run_microtasks counter_name counter no_user 10 5 rt'.

(** The root component is being mounted: its path is on the stack and its
    slot list is empty. *)
Definition mounting_root : Runtime :=
  mkRuntime (document initial) (root initial)
    (mkHooks {[ "" := 0 ]} {[ "" := 0 ]} {[ "" ]} [""])
    {[ 0 := [] ]} 1 [] (mkScheduler [] false false) [].

Definition cleanup2 : Callback := mkCallback 2 [].

(** A runtime after a render that queued the effect of one component
    and, behind it, a cleanup of a later component; the flush is pending. *)
Definition effect_then_cleanup : Runtime :=
  mkRuntime (document initial) (root initial) (hooks initial) {[ 0 := [] ]} 1
    [EffectItem "p" 0 0 effect1; CleanupItem "q" 0 cleanup2]
    (mkScheduler [FlushTask] false true) [].

(** User code for the cleanups 1 to 4: the body of cleanup 1 leaves
    cleanup 4 in the effect queue, the body of cleanup 3 throws, and the
    others do nothing. *)
Definition busy_pushes (id : nat) : list QueueItem :=
  match id with
  | 1 => [CleanupItem "r" 0 (mkCallback 4 [])]
  | _ => []
  end.
Definition busy_throws (id : nat) : bool :=
  match id with 3 => true | _ => false end.
Definition busy_user (id : nat) : M unit :=
  match id with
  | 1 => modify (fun rt => with_queue (queue rt ++ busy_pushes 1) rt)
  | 3 => throw (UserError "cleanup 3")
  | _ => ret tt
  end.

Definition effect5 : EffectFn := mkEffectFn (mkCallback 5 []) None.

(** Runtimes whose flush is about to run, with cleanup 1 at the front of
    the queue. *)
Definition busy_queue : Runtime :=
  mkRuntime (document initial) (root initial) (hooks initial) {[ 0 := [] ]} 1
    [CleanupItem "p" 0 (mkCallback 1 []); EffectItem "p" 1 0 effect5;
     CleanupItem "q" 0 cleanup2]
    (mkScheduler [] false true) [].
Definition broken_queue : Runtime :=
  mkRuntime (document initial) (root initial) (hooks initial) {[ 0 := [] ]} 1
    [CleanupItem "p" 0 (mkCallback 1 []); CleanupItem "q" 0 (mkCallback 3 [])]
    (mkScheduler [] false true) [].

(** A runtime in the middle of a render: the component at path ["p"] is
    running, its cursor is on slot 0, and the slot holds the record of an
    effect that ran with dependencies [[1]] and returned [cleanup2]. *)
Definition inside_component : Runtime :=
  mkRuntime (document initial) (root initial)
    (mkHooks {[ "p" := 0 ]} {[ "p" := 0 ]} {[ "p" ]} ["p"])
    {[ 0 := [EffectSlot (mkEffectHook (Some [VNum 1]) (Some cleanup2) effect1)] ]} 1
    [] (mkScheduler [] false false) [].

End Scenario.

(** * Further concrete programs *)

Module Sample.

(** A text node that shows ["A"], mounted under the container. *)
Definition text_instance : Instance :=
  mkInstance TEXT (Some 1) (Scenario.text "A") [] None "".

Definition text_mounted : Runtime :=
  default Scenario.initial
    (Scenario.returned
       (reconcile Scenario.no_name Scenario.no_components 2 (Some 0) None
          (Some (Scenario.text "A")) "" Scenario.initial)).

(** The counter of the earlier programs, mounted under the container. *)
Definition counter_mounted : Runtime :=
  default Scenario.initial
    (Scenario.returned
       (setup Scenario.counter_name Scenario.counter 10 (Some (Scenario.use 0)) (Some 0)
          Scenario.initial)).

(** The mounted counter after its setter was called with 1. *)
Definition counter_set : Runtime :=
  default counter_mounted
    (Scenario.returned (setState (Scenario.root_setter 0) (NextVal (VNum 1)) counter_mounted)).

(** The runtime at the moment a later render has entered the root component:
    its path is on the stack and its cursor is back on slot 0. *)
Definition entered (rt : Runtime) : Runtime :=
  with_hooks
    (with_componentStack [""] (with_cursor (<[ "" := 0 ]> (cursor (hooks rt))) (hooks rt)))
    rt.

(** The object [{ x: 1, y: ["a"] }], the same built a second time, and one
    with the entries in the other order. *)
Definition object_xy : Equals.JsVal :=
  Equals.JObject 1 [("x", Equals.JNum 1); ("y", Equals.JArray 2 [Equals.JStr "a"])].

Definition object_xy' : Equals.JsVal :=
  Equals.JObject 3 [("x", Equals.JNum 1); ("y", Equals.JArray 4 [Equals.JStr "a"])].

Definition object_yx : Equals.JsVal :=
  Equals.JObject 5 [("y", Equals.JArray 6 [Equals.JStr "a"]); ("x", Equals.JNum 1)].

(** The instance of the third item of the mounted list [A B C]. *)
Definition third_item : option Instance :=
  mjoin (i_children Scenario.abc_instance !! 2).

End Sample.

(** * Predicates used in the proofs *)

(** ** The flush, as a function of the queue *)

(** What the body of a cleanup leaves in the effect queue ([pushes id]) and
    whether it throws ([throws id]); an effect entry is handed to [enqueue],
    which does neither. *)
Definition item_pushes (pushes : nat -> list QueueItem) (item : QueueItem) : list QueueItem :=
  match item with
  | CleanupItem _ _ c => pushes (cb_id c)
  | EffectItem _ _ _ _ => []
  end.

Definition item_throws (throws : nat -> bool) (item : QueueItem) : bool :=
  match item with
  | CleanupItem _ _ c => throws (cb_id c)
  | EffectItem _ _ _ _ => false
  end.

(** The entries that the cleanups of [q] leave in the queue, in order. *)
Definition pushed_by (pushes : nat -> list QueueItem) (q : list QueueItem) : list QueueItem :=
  flat_map (item_pushes pushes) q.

(** How a flush ends: the queue was emptied, and [taken] are the entries
    that were taken out, in order; or the last entry of [taken] threw and
    [kept] stayed in the queue; or the flush was still going on after the
    given number of iterations. *)
Inductive Flush :=
| Emptied (taken : list QueueItem)
| Interrupted (taken kept : list QueueItem)
| Running.

Definition took (item : QueueItem) (f : Flush) : Flush :=
  match f with
  | Emptied taken => Emptied (item :: taken)
  | Interrupted taken kept => Interrupted (item :: taken) kept
  | Running => Running
  end.

(** A queue served first in, first out, for at most [n] entries: the entry
    at the front is taken out, what it enqueues goes to the back, and an
    entry that throws ends the flush. *)
Fixpoint fifo (pushes : nat -> list QueueItem) (throws : nat -> bool) (n : nat)
    (q : list QueueItem) : Flush :=
  match q with
  | [] => Emptied []
  | item :: rest =>
      match n with
      | 0 => Running
      | S n' =>
          if item_throws throws item then Interrupted [item] (rest ++ item_pushes pushes item)%list
          else took item (fifo pushes throws n' (rest ++ item_pushes pushes item)%list)
      end
  end.

(** The log and the deferred effects of [rt'] are those of [rt]. *)
Definition same_record (rt rt' : Runtime) : Prop :=
  log rt' = log rt /\
  effect_tasks (microtasks (scheduler rt')) = effect_tasks (microtasks (scheduler rt)).

(** The bodies of the table [user] do what [pushes] and [throws] say: the
    body of callback [id] ends, by a return or, when [throws id], by an
    exception; it leaves [pushes id] at the back of the effect queue, and it
    neither writes to the log nor defers an effect. *)
Definition bodies (user : nat -> M unit) (pushes : nat -> list QueueItem)
    (throws : nat -> bool) : Prop :=
  forall id rt,
    match user id rt with
    | Returned _ rt' =>
        throws id = false /\ queue rt' = (queue rt ++ pushes id)%list /\ same_record rt rt'
    | Thrown _ rt' =>
        throws id = true /\ queue rt' = (queue rt ++ pushes id)%list /\ same_record rt rt'
    | OutOfFuel => False
    end.

(** What a flush that ends as [f] has done to the runtime: [rt] is the
    runtime before and [o] the outcome of the flush. *)
Definition flushed (pushes : nat -> list QueueItem) (rt : Runtime) (f : Flush)
    (o : Outcome unit) : Prop :=
  match f, o with
  | Emptied taken, Returned _ rt' =>
      queue rt' = [] /\
      taken = (queue rt ++ pushed_by pushes taken)%list /\
      log rt' = (log rt ++ cleanup_ids taken)%list /\
      effect_tasks (microtasks (scheduler rt'))
        = (effect_tasks (microtasks (scheduler rt)) ++ deferred_effects taken)%list
  | Interrupted taken kept, Thrown _ rt' =>
      queue rt' = kept /\
      (taken ++ kept = queue rt ++ pushed_by pushes taken)%list /\
      log rt' = (log rt ++ cleanup_ids taken)%list /\
      effect_tasks (microtasks (scheduler rt'))
        = (effect_tasks (microtasks (scheduler rt)) ++ deferred_effects taken)%list
  | Running, OutOfFuel => True
  | _, _ => False
  end.

(** Actions that always return and touch neither the effect queue, nor the
    log, nor the deferred effects. *)
Definition quiet (m : M unit) : Prop :=
  forall rt, exists rt',
    m rt = Returned tt rt' /\
    queue rt' = queue rt /\ log rt' = log rt /\
    effect_tasks (microtasks (scheduler rt')) = effect_tasks (microtasks (scheduler rt)).

(** The component stack is the same after the call as before it, whether
    the call returns or throws. *)
Definition keeps_stack {A} (m : M A) : Prop :=
  forall rt,
    match m rt with
    | Returned _ rt' | Thrown _ rt' =>
        componentStack (hooks rt') = componentStack (hooks rt)
    | OutOfFuel => True
    end.

(** Whatever a call does, returning or throwing, the runtime it leaves is
    related by [R] to the one it found. *)
Definition respects (R : Runtime -> Runtime -> Prop) {A} (m : M A) : Prop :=
  forall rt,
    match m rt with
    | Returned _ rt' | Thrown _ rt' => R rt rt'
    | OutOfFuel => True
    end.

(** The scheduler, the log of user callbacks and the root binding are the
    same in both runtimes. *)
Definition same_schedule (rt rt' : Runtime) : Prop :=
  scheduler rt' = scheduler rt /\ log rt' = log rt /\ root rt' = root rt.

(** The effect queue of the second runtime extends that of the first. *)
Definition queue_extends (rt rt' : Runtime) : Prop :=
  exists more, queue rt' = (queue rt ++ more)%list.

(** Every path visited in the first runtime is visited in the second. *)
Definition visited_grows (rt rt' : Runtime) : Prop :=
  visited (hooks rt) ⊆ visited (hooks rt').

(** A relation between runtimes that holds along every elementary step
    that a reconciliation makes outside the document: a change of a slot
    array, a push on the effect queue, a change of the component stack, of a
    cursor or of the set of slot lists, and a path added to the visited
    ones. *)
Class Frame (R : Runtime -> Runtime -> Prop) : Prop := {
  frame_refl : forall rt, R rt rt;
  frame_trans : forall a b c, R a b -> R b c -> R a c;
  frame_arrays : forall rt a, R rt (with_arrays a rt);
  frame_next_array : forall rt n, R rt (with_next_array n rt);
  frame_push : forall rt item, R rt (with_queue (queue rt ++ [item])%list rt);
  frame_stack : forall rt s, R rt (with_hooks (with_componentStack s (hooks rt)) rt);
  frame_visit :
    forall rt p, R rt (with_hooks (with_visited ({[p]} ∪ visited (hooks rt)) (hooks rt)) rt);
  frame_cursor : forall rt c, R rt (with_hooks (with_cursor c (hooks rt)) rt);
  frame_state : forall rt s, R rt (with_hooks (with_state s (hooks rt)) rt)
}.

(** A relation between runtimes that holds whatever becomes of the
    document. *)
Class AnyDocument (R : Runtime -> Runtime -> Prop) : Prop := {
  frame_document : forall rt d, R rt (with_document d rt)
}.

(** The document is the same in both runtimes. *)
Definition same_document (rt rt' : Runtime) : Prop := document rt' = document rt.

(** ** Host nodes of the previous render *)

(** No address is used again, and every host node with an address below
    [lo] that has a parent in [rt'] had that parent in [rt]: the nodes that
    were there are not moved, they can only be removed. *)
Definition stays (lo : nat) (rt rt' : Runtime) : Prop :=
  (fresh (document rt) <= fresh (document rt'))%nat /\
  forall n q, (n < lo)%nat ->
    parent_of (nodes (document rt')) n = Some q -> parent_of (nodes (document rt)) n = Some q.

(** Run in a runtime whose unused addresses start at [lo] or above, the
    call leaves the host nodes below [lo] where they are, whether it returns
    or throws, and what it returns satisfies [post]. *)
Definition tends (lo : nat) {A} (post : A -> Prop) (m : M A) : Prop :=
  forall rt, (lo <= fresh (document rt))%nat ->
    match m rt with
    | Returned a rt' => stays lo rt rt' /\ post a
    | Thrown _ rt' => stays lo rt rt'
    | OutOfFuel => True
    end.

(** The call returns or throws: it is not cut short for want of fuel. *)
Definition ends {A} (m : M A) : Prop := forall rt, m rt <> OutOfFuel.

(** Whatever the call returns satisfies [post]. *)
Definition yields {A} (post : A -> Prop) (m : M A) : Prop :=
  forall rt a rt', m rt = Returned a rt' -> post a.

(** The test of [reconcile] that sends an instance and a node to a new
    mount: [instance.node.type !== node.type || instance.key !== node.key]. *)
Definition differs (inst : Instance) (node : VNode) : bool :=
  negb (bool_decide (node_type (i_node inst) = node_type node))
  || negb (bool_decide (i_key inst = node_key node)).

(** [reconcile] has nothing to update: there is no instance, no node, or
    they differ in type or key. *)
Definition remounts (instance : option Instance) (node : option VNode) : bool :=
  match instance, node with
  | Some inst, Some node => differs inst node
  | _, _ => true
  end.

(** The host nodes of [r] have addresses from [lo] on: they were created
    after the document had [lo] as its next unused address. *)
Definition created_from (lo : nat) (r : option Instance) : Prop :=
  Forall (fun n => (lo <= n)%nat) (getDomNodes r).

(** No host node of [old] is a child of the host node [target]. *)
Definition removed_from (target : option nat) (ns : gmap nat DomNode) (old : option Instance)
    : Prop :=
  forall p n, target = Some p -> n ∈ getDomNodes old -> parent_of ns n <> Some p.

(** What the update of a child list with previous children [prev] by the
    next children [next] under [path] has done at index [i], where [entry]
    is entry [i] of the new child list, [ns] the host nodes at the end, and
    [lo] the next unused address at the start.  Without a next child the
    entry is null and the previous child is removed.  With a next child and
    a previous child of the same type and key, the entry is the previous
    instance, updated: the same host node, kind and key, with the next
    child as its node and the path of index [i].  With a next child and a
    previous child that differs, the previous child is removed and the
    entry is a new mount, on host nodes created during the update; without
    a previous child the entry is a new mount. *)
Definition reconciled_at (component_name : nat -> string) (lo : nat) (target : option nat)
    (ns : gmap nat DomNode) (path : string) (prev : list (option Instance))
    (next : list VNode) (i : nat) (entry : option Instance) : Prop :=
  match next !! i, mjoin (prev !! i) with
  | None, prevChild => entry = None /\ removed_from target ns prevChild
  | Some nextChild, Some old =>
      if differs old nextChild then
        removed_from target ns (Some old) /\ created_from lo entry
      else
        exists c,
          entry = Some c /\
          i_dom c = i_dom old /\ i_kind c = i_kind old /\ i_key c = i_key old /\
          i_node c = nextChild /\
          i_path c
          = createChildPath component_name path (node_key nextChild) i (node_type nextChild)
              next
  | Some nextChild, None => created_from lo entry
  end.

(** The characters of a string are decimal digits. *)
Definition is_digit (c : Ascii.ascii) : bool :=
  let n := Ascii.nat_of_ascii c in (48 <=? n)%nat && (n <=? 57)%nat.

Fixpoint all_digits (s : string) : bool :=
  match s with
  | EmptyString => true
  | String c rest => is_digit c && all_digits rest
  end.

(** The listeners that the properties [props] ask for: one for each
    property whose name starts with [on] and whose value is a function. *)
Definition handlers (props : Props) : list (string * nat) :=
  flat_map (fun kv =>
    match snd kv with
    | PFunction f => if String.prefix "on" (fst kv) then [(eventName (fst kv), f)] else []
    | _ => []
    end) props.

(** The first loop of [updateDomProps] does not throw at the entry [kv] of
    the previous props: if it is a [style] whose [typeof] is ["object"], it
    is a plain object of style entries (not [null], whose keys cannot be
    read, and not an array or a reference, whose keys are not modelled), and
    it has no key or the next [style] is falsy or an object. *)
Definition style_entry_safe (nextProps : Props) (kv : string * PropVal) : Prop :=
  fst kv = "style" -> is_object (snd kv) = true ->
  (exists o, snd kv = PObject o) /\ style_clash nextProps "style" (snd kv) = false.

(** The child nodes of host node [p], in document order. *)
Definition children_at (ns : gmap nat DomNode) (p : nat) : list nat :=
  match ns !! p with Some pd => childNodes pd | None => [] end.

(** The list [l] without the nodes of [gone]. *)
Definition without (gone l : list nat) : list nat :=
  List.filter (fun x => negb (existsb (Nat.eqb x) gone)) l.

(** What a tree of nodes without components stands for in the document: a
    text, or an element, with what the adapter can observe of it and with the
    trees of its children. *)
#[warnings="-register-all"]
Inductive HostTree :=
| HText (value : string)
| HElement (tag : string) (el : Element) (children : list HostTree).

(** [node] holds no component, is nested at most [depth] deep, and the
    [children] property of every host tag and fragment in it is an array, is
    absent or is falsy. *)
Fixpoint plain (depth : nat) (node : VNode) : bool :=
  match depth with
  | 0 => false
  | S depth' =>
      match node_type node with
      | TEXT_ELEMENT | OtherSymbol _ => true
      | HostTag _ | Fragment =>
          children_readable node && forallb (plain depth') (children_of node)
      | ComponentFn _ => false
      end
  end.

(** The host trees of a node without components: one for a text and for a
    host tag, the element being what [setDomProps] makes of a new element
    with the props of the node, those of its children for a fragment, none
    for a type that is not known. *)
Fixpoint host_trees (depth : nat) (node : VNode) : list HostTree :=
  match depth with
  | 0 => []
  | S depth' =>
      match node_type node with
      | TEXT_ELEMENT => [HText (text_of node)]
      | HostTag tag =>
          [HElement tag (setDomProps_element (node_props node) empty_element)
             (flat_map (host_trees depth') (children_of node))]
      | Fragment => flat_map (host_trees depth') (children_of node)
      | ComponentFn _ | OtherSymbol _ => []
      end
  end.

(** In the store [ns] the host node [n] is the root of the tree [t], and
    the addresses of the tree are from [lo] up to, not including, [hi]. *)
Fixpoint shows (lo hi : nat) (ns : gmap nat DomNode) (n : nat) (t : HostTree) {struct t}
    : Prop :=
  (lo <= n < hi)%nat /\
  match t with
  | HText value =>
      exists nd, ns !! n = Some nd /\ data nd = TextData value /\ childNodes nd = []
  | HElement tag el trees =>
      exists nd,
        ns !! n = Some nd /\ data nd = ElementData tag el /\
        (fix all (cs : list nat) (ts : list HostTree) {struct ts} : Prop :=
           match ts, cs with
           | [], [] => True
           | t' :: ts', c :: cs' => shows lo hi ns c t' /\ all cs' ts'
           | _, _ => False
           end) (childNodes nd) trees
  end.

(** The document [doc'] is [doc] after the host nodes [new], the roots of
    [trees], were mounted as the last children of [p]: the nodes that [doc]
    had, [p] apart, are as they were, and [p] has changed in its child list
    only. *)
Definition mounted (p : nat) (doc doc' : Document) (new : list nat) (trees : list HostTree)
    : Prop :=
  (fresh doc <= fresh doc')%nat /\
  (forall a, is_Some (nodes doc' !! a) -> (a < fresh doc')%nat) /\
  children_at (nodes doc') p = (children_at (nodes doc) p ++ new)%list /\
  Forall2 (shows (fresh doc) (fresh doc') (nodes doc')) new trees /\
  (forall a, (a < fresh doc)%nat -> a <> p -> nodes doc' !! a = nodes doc !! a) /\
  (exists pd pd',
     nodes doc !! p = Some pd /\ nodes doc' !! p = Some pd' /\
     data pd' = data pd /\ parentNode pd' = parentNode pd).

(** The host node [p] is in the document, and every node of the document
    has an address below the next unused one. *)
Definition ready (p : nat) (doc : Document) : Prop :=
  is_Some (nodes doc !! p) /\ forall a, is_Some (nodes doc !! a) -> (a < fresh doc)%nat.

(** [reconcile] with [depth] units of fuel mounts every node without
    components that is nested at most [depth] deep. *)
Definition mounts (component_name : nat -> string) (components : nat -> Props -> Prog)
    (depth : nat) : Prop :=
  forall node p path rt,
    plain depth node = true -> ready p (document rt) ->
    exists inst doc',
      reconcile component_name components depth (Some p) None (Some node) path rt
      = Returned inst (with_document doc' rt) /\
      mounted p (document rt) doc' (getDomNodes inst) (host_trees depth node).

(** * Verification *)

Local Open Scope list_scope.

(** ** Reasoning about outcomes *)

Lemma bind_returned {A B} (m : M A) (f : A -> M B) rt a rt' :
  m rt = Returned a rt' -> bind m f rt = f a rt'.
Proof. intros H. unfold bind. now rewrite H. Qed.

Lemma bind_thrown {A B} (m : M A) (f : A -> M B) rt e rt' :
  m rt = Thrown e rt' -> bind m f rt = Thrown e rt'.
Proof. intros H. unfold bind. now rewrite H. Qed.

Lemma with_hooks_hooks h rt : hooks (with_hooks h rt) = h.
Proof. reflexivity. Qed.

(** ** Hooks outside a component *)

Lemma currentPath_empty rt :
  componentStack (hooks rt) = [] -> currentPath rt = Thrown HookOutsideComponent rt.
Proof. intros H. unfold currentPath, bind, get. now rewrite H. Qed.

Lemma currentPath_top rt path :
  last (componentStack (hooks rt)) = Some path -> currentPath rt = Returned path rt.
Proof. intros H. unfold currentPath, bind, get. now rewrite H. Qed.

(** C8: with an empty component stack [useState] and [useEffect] throw, and
    the runtime they leave is the one they found: no slot, cursor or queue
    entry is created or changed. *)
Theorem hooks_outside_component_throw
    (rt : Runtime) (initialValue : InitialValue) (eff : EffectFn) (d : option (list Value)) :
  componentStack (hooks rt) = [] ->
  useState initialValue rt = Thrown HookOutsideComponent rt /\
  useEffect eff d rt = Thrown HookOutsideComponent rt.
Proof.
  intros H. split.
  - unfold useState. now rewrite (bind_thrown _ _ _ _ _ (currentPath_empty rt H)).
  - unfold useEffect. now rewrite (bind_thrown _ _ _ _ _ (currentPath_empty rt H)).
Qed.

(** The runtime in which nothing has run yet has an empty stack. *)
Lemma hooks_outside_component_throw_witness :
  componentStack (hooks Scenario.initial) = [] /\
  useState (InitVal (VNum 0)) Scenario.initial = Thrown HookOutsideComponent Scenario.initial /\
  useEffect Scenario.effect1 None Scenario.initial = Thrown HookOutsideComponent Scenario.initial.
Proof.
  split; [reflexivity |].
  apply (hooks_outside_component_throw Scenario.initial (InitVal (VNum 0)) Scenario.effect1 None).
  reflexivity.
Defined.

(** ** The state setter *)

Lemma array_set_lookup (arr : list Hook) (i : nat) (x : Hook) :
  array_set arr i x !! i = Some x.
Proof.
  unfold array_set. destruct (i <? length arr)%nat eqn:E.
  - apply Nat.ltb_lt in E. now apply list_lookup_insert_eq.
  - apply Nat.ltb_ge in E.
    rewrite lookup_app_r by lia.
    rewrite lookup_app_r by (rewrite length_replicate; lia).
    rewrite length_replicate.
    replace (i - length arr - (i - length arr)) with 0 by lia. reflexivity.
Qed.

Lemma enqueueRender_spec rt :
  enqueueRender rt =
    Returned tt
      (if render_pending (scheduler rt) then rt
       else with_scheduler
              (mkScheduler (microtasks (scheduler rt) ++ [RenderTask]) true
                 (flush_pending (scheduler rt))) rt).
Proof.
  unfold enqueueRender, bind, get. destruct (render_pending (scheduler rt)); reflexivity.
Qed.

(** C7, as amended: the setter compares the new value with the state value
    it captured when [useState] returned it (an updater is applied to that
    captured value).  When they are identical the call changes nothing;
    otherwise the new value is written at the slot of the setter and
    [enqueueRender] is called once, which adds one deferred render unless one
    is already pending. *)
Theorem setState_compares_captured_state
    (s : Setter) (nextValue : NextValue) (rt : Runtime) :
  let newValue := newValue_of s nextValue in
  let arr := default [] (arrays rt !! st_hooks s) in
  exists rt',
    setState s nextValue rt = Returned tt rt' /\
    if Object_is (st_state s) newValue then rt' = rt
    else
      (exists arr',
         arrays rt' = <[st_hooks s := arr']> (arrays rt) /\
         arr' = array_set arr (st_cursor s) (StateHook newValue) /\
         arr' !! st_cursor s = Some (StateHook newValue)) /\
      scheduler rt' =
        (if render_pending (scheduler rt) then scheduler rt
         else mkScheduler (microtasks (scheduler rt) ++ [RenderTask]) true
                (flush_pending (scheduler rt))) /\
      hooks rt' = hooks rt /\ queue rt' = queue rt /\ log rt' = log rt /\
      document rt' = document rt /\ root rt' = root rt.
Proof.
  intros newValue arr. unfold setState. fold newValue.
  destruct (Object_is (st_state s) newValue) eqn:E.
  - exists rt. split; reflexivity.
  - unfold bind at 1. unfold read_array. fold arr.
    unfold bind at 1. unfold write_array, modify.
    rewrite enqueueRender_spec. eexists. split; [reflexivity |].
    cbn. destruct (render_pending (scheduler rt)) eqn:P; cbn;
      (split; [eexists; split; [reflexivity | split; [reflexivity | apply array_set_lookup]] |]);
      repeat split; try reflexivity.
Qed.

(** The first render of a root component hands out the setter that captured
    the initial value. *)
Example first_render_setter :
  match useState (InitVal (VNum 0)) Scenario.mounting_root with
  | Returned (v, s) rt' =>
      v = VNum 0 /\ s = Scenario.root_setter 0 /\
      arrays rt' !! 0 = Some [StateHook (VNum 0)] /\ cursor (hooks rt') !! "" = Some 1
  | _ => False
  end.
Proof. vm_compute. repeat split; reflexivity. Qed.

(** C7, as stated, fails: a setter handed out by an earlier render still
    compares with the value that render read.  The slot holds 1; the stale
    setter that captured 0 ignores a call with 0, which differs from the slot,
    and performs a write and schedules a render on a call with 1, which is
    the value of the slot. *)
Lemma setState_stale_setter_counterexample :
  match Scenario.counter_rerendered with
  | Some rt =>
      arrays rt !! 0 = Some [StateHook (VNum 1)] /\
      microtasks (scheduler rt) = [] /\
      setState (Scenario.root_setter 0) (NextVal (VNum 0)) rt = Returned tt rt /\
      match setState (Scenario.root_setter 0) (NextVal (VNum 1)) rt with
      | Returned _ rt' => microtasks (scheduler rt') = [RenderTask]
      | _ => False
      end
  | None => False
  end.
Proof. vm_compute. repeat split; reflexivity. Qed.

(** ** Effect dependencies *)

Lemma currentHooks_spec rt path :
  last (componentStack (hooks rt)) = Some path ->
  currentHooks rt = Returned (resolve_hooks path rt).1 (resolve_hooks path rt).2.
Proof.
  intros H. unfold currentHooks.
  rewrite (bind_returned _ _ _ _ _ (currentPath_top rt path H)).
  unfold bind, get, resolve_hooks. destruct (state (hooks rt) !! path); reflexivity.
Qed.

Lemma resolve_hooks_frame path rt :
  hooks (resolve_hooks path rt).2 = hooks rt /\
  queue (resolve_hooks path rt).2 = queue rt.
Proof. unfold resolve_hooks. destruct (state (hooks rt) !! path); split; reflexivity. Qed.

(** The effect is skipped exactly when the slot holds a record, [deps] is
    an array, and the array is shallow-equal to the recorded one. *)
Lemma shouldRun_false (prevHook : option EffectHook) (d : option (list Value)) :
  shouldRun prevHook d = false <->
  exists h ds, prevHook = Some h /\ d = Some ds /\ shallowEquals (deps h) (Some ds) = true.
Proof.
  unfold shouldRun. split.
  - destruct prevHook as [h |]; [| discriminate].
    destruct d as [ds |]; [| discriminate].
    intros E. exists h, ds. repeat split. now apply negb_false_iff in E.
  - intros (h & ds & -> & -> & E). now rewrite E.
Qed.

Lemma lookup_push_or_set (arr : list Hook) (c : nat) (x : Hook) :
  let arr' := if (length arr <=? c)%nat then (arr ++ [x])%list else array_set arr c x in
  x ∈ arr' /\
  (c <= length arr -> arr' !! c = Some x) /\
  (forall i, i <> c -> i < length arr -> arr' !! i = arr !! i).
Proof.
  cbn. destruct (length arr <=? c)%nat eqn:E.
  - apply Nat.leb_le in E. split; [| split].
    + apply elem_of_app. right. apply list_elem_of_singleton. reflexivity.
    + intros Hc. assert (c = length arr) as -> by lia.
      rewrite lookup_app_r by lia. now rewrite Nat.sub_diag.
    + intros i _ Hi. now rewrite lookup_app_l.
  - apply Nat.leb_gt in E. split; [| split].
    + apply list_elem_of_lookup. exists c. apply array_set_lookup.
    + intros _. apply array_set_lookup.
    + intros i Hi _. unfold array_set.
      assert ((c <? length arr)%nat = true) as -> by now apply Nat.ltb_lt.
      now apply list_lookup_insert_ne.
Qed.

(** What [useEffect] does with the record it finds: inside a component at
    [path], it looks at the slot under the cursor in the array that
    [currentHooks] yields.  When the slot holds a record, [deps] is an array
    and it is shallow-equal to the recorded one, nothing is queued and the
    arrays are left as they are.  Otherwise (no record in the slot, [deps]
    undefined, or not shallow-equal) the stored cleanup, when there is one,
    is pushed, then the effect is pushed behind it, and a new record with a
    null cleanup is written.  The cursor advances in both cases.  The record
    found is the one of the previous invocation only when the path has a
    stored slot list; see [effect_requeued_without_slot_list]. *)
Lemma useEffect_on_slot_record
    (rt : Runtime) (path : string) (eff : EffectFn) (d : option (list Value)) :
  last (componentStack (hooks rt)) = Some path ->
  let c := default 0 (cursor (hooks rt) !! path) in
  let a := (resolve_hooks path rt).1 in
  let rt1 := (resolve_hooks path rt).2 in
  let arr := default [] (arrays rt1 !! a) in
  let prevHook := prevHook_of arr c in
  let record := EffectSlot (mkEffectHook d None eff) in
  (shouldRun prevHook d = false <->
     exists h ds, prevHook = Some h /\ d = Some ds /\ shallowEquals (deps h) (Some ds) = true) /\
  exists rt',
    useEffect eff d rt = Returned tt rt' /\
    cursor (hooks rt') = <[path := c + 1]> (cursor (hooks rt)) /\
    if shouldRun prevHook d then
      queue rt' = queue rt ++ stored_cleanup path c prevHook ++ [EffectItem path c a eff] /\
      exists arr',
        arrays rt' = <[a := arr']> (arrays rt1) /\
        record ∈ arr' /\
        (c <= length arr -> arr' !! c = Some record) /\
        (forall i, i <> c -> i < length arr -> arr' !! i = arr !! i)
    else
      queue rt' = queue rt /\ arrays rt' = arrays rt1 /\
      arrays rt' !! a = arrays rt1 !! a.
Proof.
  intros H c a rt1 arr prevHook record.
  split; [apply shouldRun_false |].
  unfold useEffect.
  rewrite (bind_returned _ _ _ _ _ (currentPath_top rt path H)).
  unfold currentCursor.
  unfold bind at 1. unfold bind at 1.
  rewrite (currentPath_top rt path H). unfold bind at 1, get at 1.
  unfold ret at 1. fold c.
  rewrite (bind_returned _ _ _ _ _ (currentHooks_spec rt path H)). fold a rt1.
  unfold bind at 1, read_array at 1. fold arr. fold prevHook.
  destruct (resolve_hooks_frame path rt) as [Hh Hq]. fold rt1 in Hh, Hq.
  destruct (shouldRun prevHook d) eqn:Run.
  - destruct (lookup_push_or_set arr c record) as (Hin & Hat & Hothers).
    assert (forall rt2 : Runtime,
      (match prevHook with
       | Some h => match cleanup h with
                   | Some cl => push_queue (CleanupItem path c cl)
                   | None => ret tt
                   end
       | None => ret tt
       end) rt2 = Returned tt (with_queue (queue rt2 ++ stored_cleanup path c prevHook) rt2))
      as Hpush.
    { intros rt2. unfold stored_cleanup. destruct prevHook as [h |].
      - destruct (cleanup h); [reflexivity |]. cbn. rewrite app_nil_r. now destruct rt2.
      - cbn. rewrite app_nil_r. now destruct rt2. }
    unfold bind at 1. unfold bind at 1. rewrite Hpush.
    destruct (length arr <=? c)%nat;
      (eexists; split; [reflexivity |];
       cbn; rewrite Hh, Hq; split; [reflexivity |]; split;
       [now rewrite <- app_assoc |];
       eexists; split; [reflexivity | split; [exact Hin | split; [exact Hat | exact Hothers]]]).
  - apply shouldRun_false in Run. destruct Run as (h & ds & Hp & -> & E).
    rewrite Hp.
    assert ((length arr <=? c)%nat = false) as Hlen.
    { unfold prevHook, prevHook_of in Hp.
      destruct (c <? length arr)%nat eqn:L; [| discriminate].
      apply Nat.ltb_lt in L. apply Nat.leb_gt. lia. }
    rewrite Hlen. eexists. split; [reflexivity |].
    cbn. rewrite Hh, Hq. repeat split; reflexivity.
Qed.

(** A component whose effect ran with dependencies [[1]] and returned a
    cleanup calls [useEffect] with [[2]]: the cleanup is queued, then the
    effect. *)
Lemma useEffect_on_slot_record_cleanup_first :
  last (componentStack (hooks Scenario.inside_component)) = Some "p" /\
  exists rt',
    useEffect Scenario.effect1 (Some [VNum 2]) Scenario.inside_component = Returned tt rt' /\
    queue rt' = [CleanupItem "p" 0 Scenario.cleanup2; EffectItem "p" 0 0 Scenario.effect1].
Proof.
  split; [reflexivity |].
  destruct (useEffect_on_slot_record Scenario.inside_component "p" Scenario.effect1
              (Some [VNum 2]) eq_refl) as (_ & rt' & Hrun & _ & Hrest).
  exists rt'. split; [exact Hrun |].
  vm_compute in Hrest. destruct Hrest as [Hq _]. exact Hq.
Qed.

(** C4 fails on the code.  [App] renders [E E], then [A E] three times;
    [E] calls [useEffect(effect 1, [7])], and effect 1 returns cleanup 11.
    At the first change the second [E] stays at index 1 but becomes the
    first of its type, so it is updated in place under a new path,
    [".i1.cE_0"], for which [updateComponent] sets a cursor but, unlike
    [mountComponent], creates no slot list: [currentHooks] hands
    [useEffect] a new empty array that nothing keeps.  So on each later
    render the invocation at [".i1.cE_0"] finds no record of the previous
    one: with dependencies [[7]], the same as before, the effect is queued
    and run again (the log grows by a 1 at every render), and the cleanup
    that the previous run returned is never queued (11 is never logged). *)
Theorem effect_requeued_without_slot_list :
  match Scenario.regate_mounted, Scenario.regate_shifted, Scenario.regate_again,
        Scenario.regate_third with
  | Some rt0, Some rt1, Some rt2, Some rt3 =>
      log rt0 = [1; 1] /\
      (a ← state (hooks rt0) !! ".i1.cE_1"; arrays rt0 !! a)
        = Some [EffectSlot (mkEffectHook (Some [VNum 7]) (Some (mkCallback 11 []))
                              Scenario.effect1)] /\
      state (hooks rt1) !! ".i1.cE_0" = None /\
      cursor (hooks rt1) !! ".i1.cE_0" = Some 1 /\
      log rt1 = [1; 1; 1] /\
      state (hooks rt2) !! ".i1.cE_0" = None /\ log rt2 = [1; 1; 1; 1] /\
      state (hooks rt3) !! ".i1.cE_0" = None /\ log rt3 = [1; 1; 1; 1; 1] /\
      queue rt3 = [] /\ microtasks (scheduler rt3) = []
  | _, _, _, _ => False
  end.
Proof. vm_compute. repeat split; reflexivity. Qed.

(** ** Host nodes and their parents *)

Lemma parent_of_alter_children (f : DomNode -> list nat) (p n : nat) (ns : gmap nat DomNode) :
  parent_of (alter (fun pd => mkDomNode (data pd) (parentNode pd) (f pd)) p ns) n
  = parent_of ns n.
Proof.
  unfold parent_of. rewrite lookup_alter. case_decide; [| reflexivity].
  subst. now destruct (ns !! n).
Qed.

Lemma parent_of_orphan (m n : nat) (ns : gmap nat DomNode) :
  parent_of (orphan m ns) n = if decide (n = m) then None else parent_of ns n.
Proof.
  unfold parent_of, orphan. rewrite lookup_alter.
  destruct (decide (n = m)) as [-> | Hne].
  - rewrite decide_True by reflexivity. now destruct (ns !! m).
  - now rewrite decide_False by congruence.
Qed.

Lemma parent_of_detach (m n : nat) (ns : gmap nat DomNode) :
  parent_of (detach m ns) n = if decide (n = m) then None else parent_of ns n.
Proof.
  unfold detach. destruct (parent_of ns m) as [p |] eqn:E.
  - change (alter (fun nd => mkDomNode (data nd) None (childNodes nd)) m) with (orphan m).
    rewrite parent_of_orphan. case_decide; [reflexivity |].
    apply parent_of_alter_children.
  - case_decide; [now subst |]. reflexivity.
Qed.

(** Nodes that are not under [c] stay so when the nodes of an instance are
    removed from [c], and the nodes of the instance are no longer under it. *)
Lemma remove_loop_spec (c : nat) (l : list nat) (rt : Runtime) :
  exists ns',
    forEach (fun n =>
      rt <- get ;;
      when (bool_decide (parent_of (nodes (document rt)) n = Some c))
        (removeChild (Some c) n)) l rt
    = Returned tt (with_nodes ns' rt) /\
    (forall n, parent_of (nodes (document rt)) n <> Some c -> parent_of ns' n <> Some c) /\
    (forall n, n ∈ l -> parent_of ns' n <> Some c).
Proof.
  revert rt. induction l as [| m l IH]; intros rt.
  - exists (nodes (document rt)). split; [| split].
    + cbn. unfold ret, with_nodes. now destruct rt as [[] ].
    + auto.
    + intros n Hn. now apply elem_of_nil in Hn.
  - cbn [forEach].
    set (rt1 := if bool_decide (parent_of (nodes (document rt)) m = Some c)
                then with_nodes (detach m (nodes (document rt))) rt else rt).
    assert ((rt0 <- get ;;
             when (bool_decide (parent_of (nodes (document rt0)) m = Some c))
               (removeChild (Some c) m)) rt = Returned tt rt1) as Hstep.
    { unfold bind at 1, get at 1. subst rt1.
      destruct (bool_decide (parent_of (nodes (document rt)) m = Some c)) eqn:E; [| reflexivity].
      cbn. unfold bind, get. now rewrite E. }
    rewrite (bind_returned _ _ _ _ _ Hstep).
    destruct (IH rt1) as (ns' & Hrun & Hkeep & Hgone).
    assert (forall n, parent_of (nodes (document rt)) n <> Some c ->
                      parent_of (nodes (document rt1)) n <> Some c) as Hkeep1.
    { intros n Hn. subst rt1.
      destruct (bool_decide (parent_of (nodes (document rt)) m = Some c)); [| exact Hn].
      cbn. rewrite parent_of_detach. now case_decide. }
    assert (parent_of (nodes (document rt1)) m <> Some c) as Hm.
    { subst rt1.
      destruct (bool_decide (parent_of (nodes (document rt)) m = Some c)) eqn:E.
      - cbn. rewrite parent_of_detach. now rewrite decide_True.
      - now apply bool_decide_eq_false in E. }
    exists ns'. split; [| split].
    + rewrite Hrun. f_equal. subst rt1.
      destruct (bool_decide (parent_of (nodes (document rt)) m = Some c)); reflexivity.
    + intros n Hn. apply Hkeep, Hkeep1, Hn.
    + intros n Hn. apply elem_of_cons in Hn as [-> | Hn].
      * apply Hkeep, Hm.
      * now apply Hgone.
Qed.

Lemma removeInstance_spec (c : nat) (instance : option Instance) (rt : Runtime) :
  exists ns',
    removeInstance (Some c) instance rt = Returned tt (with_nodes ns' rt) /\
    (forall n, parent_of (nodes (document rt)) n <> Some c -> parent_of ns' n <> Some c) /\
    (forall n, n ∈ getDomNodes instance -> parent_of ns' n <> Some c).
Proof.
  destruct instance as [i |].
  - apply remove_loop_spec.
  - exists (nodes (document rt)). split; [| split].
    + cbn. unfold ret, with_nodes. now destruct rt as [[] ].
    + auto.
    + intros n Hn. now apply elem_of_nil in Hn.
Qed.

Lemma parent_of_foldr_orphan (l : list nat) (ns : gmap nat DomNode) (c n : nat) :
  parent_of ns n <> Some c -> parent_of (foldr orphan ns l) n <> Some c.
Proof.
  intros H. induction l as [| m l IH]; [exact H |].
  cbn. rewrite parent_of_orphan. now case_decide.
Qed.

Lemma clear_children_spec (c : nat) (rt : Runtime) :
  exists ns',
    clear_children c rt = Returned tt (with_nodes ns' rt) /\
    (forall pd, ns' !! c = Some pd -> childNodes pd = []) /\
    (forall n, parent_of (nodes (document rt)) n <> Some c -> parent_of ns' n <> Some c).
Proof.
  unfold clear_children, modify_nodes, modify.
  destruct (nodes (document rt) !! c) as [pd |] eqn:E.
  - eexists. split; [reflexivity |]. split.
    + intros pd'. rewrite lookup_alter, decide_True by reflexivity.
      destruct (foldr orphan (nodes (document rt)) (childNodes pd) !! c); cbn; [| discriminate].
      now intros [= <-].
    + intros n Hn. rewrite parent_of_alter_children. now apply parent_of_foldr_orphan.
  - exists (nodes (document rt)). split; [reflexivity |]. split.
    + intros pd'. rewrite E. discriminate.
    + auto.
Qed.

Section SetupContract.

Variable component_name : nat -> string.
Variable components : nat -> Props -> Prog.

Abbreviation setup' := (setup component_name components).
Abbreviation render' := (render component_name components).
Abbreviation reconcile' := (reconcile component_name components).

(** ** [setup] *)

(** C9: [setup] throws, and leaves the runtime as it found it, when the
    container is absent and when the root node is null.  With both present
    it is one call of [render] on a runtime [rt0] in which the root binding
    is reset to the new container and node with no instance, the hook
    state, cursors, visited set and component stack are empty, the
    container has no child, and no host node of the instance tree that was
    committed before is under the container. *)
Theorem setup_contract
    (fuel : nat) (rootNode : option VNode) (node : VNode) (c : nat) (rt : Runtime) :
  setup' fuel rootNode None rt = Thrown MissingContainer rt /\
  setup' fuel None (Some c) rt = Thrown NullRoot rt /\
  exists rt0,
    setup' fuel (Some node) (Some c) rt = render' fuel rt0 /\
    root rt0 = mkRoot (Some c) (Some node) None /\
    hooks rt0 = mkHooks ∅ ∅ ∅ [] /\
    (forall pd, nodes (document rt0) !! c = Some pd -> childNodes pd = []) /\
    (forall n, n ∈ getDomNodes (root_instance (root rt)) ->
               parent_of (nodes (document rt0)) n <> Some c) /\
    queue rt0 = queue rt /\ scheduler rt0 = scheduler rt /\
    arrays rt0 = arrays rt /\ log rt0 = log rt.
Proof.
  split; [reflexivity |]. split; [reflexivity |].
  destruct (removeInstance_spec c (root_instance (root rt)) rt) as (ns1 & Hrm & _ & Hgone).
  destruct (clear_children_spec c (with_nodes ns1 rt)) as (ns2 & Hclear & Hempty & Hkeep).
  exists (with_hooks (mkHooks ∅ ∅ ∅ [])
            (with_root (mkRoot (Some c) (Some node) None) (with_nodes ns2 rt))).
  split; [| repeat split].
  - unfold setup. unfold bind at 1, get at 1.
    assert ((match root_instance (root rt) with
             | Some _ => removeInstance (Some c) (root_instance (root rt))
             | None => ret tt
             end) rt = Returned tt (with_nodes ns1 rt)) as Hrm'.
    { rewrite <- Hrm. now destruct (root_instance (root rt)). }
    rewrite (bind_returned _ _ _ _ _ Hrm').
    rewrite (bind_returned _ _ _ _ _ Hclear).
    reflexivity.
  - exact Hempty.
  - intros n Hn. apply Hkeep, Hgone, Hn.
Qed.

End SetupContract.

(** ** The effect flush *)

Lemma quiet_ret : quiet (ret tt).
Proof. intros rt. exists rt. repeat split. Qed.

Lemma quiet_bind (m : M unit) (k : M unit) : quiet m -> quiet k -> quiet (m ;; k).
Proof.
  intros Hm Hk rt. destruct (Hm rt) as (rt1 & E1 & Q1 & L1 & T1).
  destruct (Hk rt1) as (rt2 & E2 & Q2 & L2 & T2).
  exists rt2. rewrite (bind_returned _ _ _ _ _ E1). repeat split; congruence.
Qed.

Lemma effect_tasks_app (a b : list Task) :
  effect_tasks (a ++ b) = effect_tasks a ++ effect_tasks b.
Proof. unfold effect_tasks. induction a as [| t a IH]; cbn; [reflexivity |]. destruct t; cbn; now rewrite IH. Qed.

Lemma quiet_setState (s : Setter) (nextValue : NextValue) : quiet (setState s nextValue).
Proof.
  intros rt. unfold setState.
  destruct (Object_is (st_state s) (newValue_of s nextValue)).
  - exists rt. repeat split.
  - unfold bind at 1, read_array at 1. unfold bind at 1, write_array, modify.
    rewrite enqueueRender_spec. eexists. split; [reflexivity |].
    cbn. destruct (render_pending (scheduler rt)); cbn; repeat split.
    rewrite effect_tasks_app. cbn. now rewrite app_nil_r.
Qed.

Lemma quiet_forEach {A} (f : A -> M unit) (l : list A) :
  (forall x, quiet (f x)) -> quiet (forEach f l).
Proof.
  intros Hf. induction l as [| x l IH]; cbn; [apply quiet_ret |].
  now apply quiet_bind.
Qed.

Lemma run_callback_spec (user : nat -> M unit) (pushes : nat -> list QueueItem)
    (throws : nat -> bool) (cb : Callback) (rt : Runtime) :
  bodies user pushes throws ->
  match run_callback user cb rt with
  | Returned _ rt' =>
      throws (cb_id cb) = false /\ queue rt' = queue rt ++ pushes (cb_id cb) /\
      log rt' = log rt ++ [cb_id cb] /\
      effect_tasks (microtasks (scheduler rt')) = effect_tasks (microtasks (scheduler rt))
  | Thrown _ rt' =>
      throws (cb_id cb) = true /\ queue rt' = queue rt ++ pushes (cb_id cb) /\
      log rt' = log rt ++ [cb_id cb] /\
      effect_tasks (microtasks (scheduler rt')) = effect_tasks (microtasks (scheduler rt))
  | OutOfFuel => False
  end.
Proof.
  intros Hb. unfold run_callback. unfold bind at 1, modify at 1.
  destruct (quiet_forEach (fun call => setState call.1 call.2) (cb_calls cb)
              (fun call => quiet_setState _ _) (with_log (log rt ++ [cb_id cb]) rt))
    as (rt1 & E & Q & L & T).
  rewrite (bind_returned _ _ _ _ _ E). cbn in Q, L, T.
  specialize (Hb (cb_id cb) rt1). unfold same_record in Hb.
  destruct (user (cb_id cb) rt1) as [[] rt2 | e rt2 |]; [| | exact Hb];
    destruct Hb as (Ht & Q2 & L2 & T2); repeat split; congruence.
Qed.

Lemma flushed_took (pushes : nat -> list QueueItem) (item : QueueItem)
    (rest : list QueueItem) (rt rt1 : Runtime) (f : Flush) (o : Outcome unit) :
  queue rt = item :: rest ->
  queue rt1 = rest ++ item_pushes pushes item ->
  log rt1 = log rt ++ cleanup_ids [item] ->
  effect_tasks (microtasks (scheduler rt1))
    = effect_tasks (microtasks (scheduler rt)) ++ deferred_effects [item] ->
  flushed pushes rt1 f o -> flushed pushes rt (took item f) o.
Proof.
  intros Q Q1 L1 T1 H.
  assert (forall t, cleanup_ids (item :: t) = cleanup_ids [item] ++ cleanup_ids t) as Hc.
  { intros t. unfold cleanup_ids. cbn. now rewrite app_nil_r. }
  assert (forall t, deferred_effects (item :: t)
                    = deferred_effects [item] ++ deferred_effects t) as Hd.
  { intros t. unfold deferred_effects. cbn. now rewrite app_nil_r. }
  destruct f as [taken | taken kept |], o as [[] rt' | e rt' |]; cbn in *; try exact H;
    destruct H as (Hq & Ht & Hl & He); (split; [exact Hq |]); split.
  - rewrite Q. cbn. f_equal. rewrite Ht at 1. rewrite Q1. now rewrite <- app_assoc.
  - rewrite Hl, L1, Hc, He, T1, Hd. now rewrite <- !app_assoc.
  - rewrite Q. cbn. f_equal. rewrite Ht, Q1. now rewrite <- app_assoc.
  - rewrite Hl, L1, Hc, He, T1, Hd. now rewrite <- !app_assoc.
Qed.

(** The loop of the flush does to the runtime what the first-in, first-out
    service of its queue says. *)
Lemma flush_loop_fifo (user : nat -> M unit) (pushes : nat -> list QueueItem)
    (throws : nat -> bool) :
  bodies user pushes throws ->
  forall n rt, flushed pushes rt (fifo pushes throws n (queue rt)) (flush_loop user n rt).
Proof.
  intros Hb.
  assert (forall n rt, queue rt = [] ->
            flushed pushes rt (fifo pushes throws n (queue rt)) (flush_loop user n rt)) as Hnil.
  { intros n rt Q. destruct n; cbn; rewrite Q; cbn; rewrite Q, !app_nil_r; repeat split. }
  induction n as [| n IH]; intros rt; destruct (queue rt) as [| item rest] eqn:Q;
    try (rewrite <- Q; now apply Hnil).
  - cbn. rewrite Q. exact I.
  - cbn [flush_loop fifo]. rewrite Q. unfold bind at 1, modify at 1.
    destruct item as [path cur c | path cur a eff].
    + pose proof (run_callback_spec user pushes throws c (with_queue rest rt) Hb) as Hc.
      unfold bind at 1. cbn [item_throws item_pushes].
      destruct (run_callback user c (with_queue rest rt)) as [[] rt1 | e rt1 |];
        [| | contradiction]; destruct Hc as (Ht & Q1 & L1 & T1); rewrite Ht;
        cbn in Q1, L1, T1.
      * apply (flushed_took pushes _ rest rt rt1); try assumption.
        -- now rewrite T1, app_nil_r.
        -- rewrite <- Q1. apply IH.
      * cbn. rewrite Q, app_nil_r. repeat split; try assumption.
        now rewrite T1, app_nil_r.
    + unfold bind at 1, enqueue at 1, modify_scheduler, modify.
      cbn [item_throws item_pushes].
      set (rt1 := with_scheduler _ _).
      apply (flushed_took pushes _ rest rt rt1); [assumption | | | |].
      * subst rt1. cbn. now rewrite app_nil_r.
      * subst rt1. cbn. now rewrite app_nil_r.
      * subst rt1. cbn. now rewrite effect_tasks_app.
      * replace (rest ++ [])%list with (queue rt1) by (subst rt1; cbn; now rewrite app_nil_r).
        apply IH.
Qed.

(** When no body enqueues, the flush takes no more iterations than the
    queue has entries. *)
Lemma fifo_ends (pushes : nat -> list QueueItem) (throws : nat -> bool) (n : nat)
    (q : list QueueItem) :
  (forall id, pushes id = []) -> length q <= n -> fifo pushes throws n q <> Running.
Proof.
  intros Hp. revert q. induction n as [| n IH]; intros [| item rest] Hn; cbn in *;
    try discriminate; try lia.
  destruct (item_throws throws item); [discriminate |].
  assert (item_pushes pushes item = []) as ->.
  { destruct item; cbn; [apply Hp | reflexivity]. }
  rewrite app_nil_r. specialize (IH rest ltac:(lia)).
  destruct (fifo pushes throws n rest); cbn; congruence.
Qed.



(** The flush of the queue [cleanup 1; effect 5; cleanup 2], where cleanup 1
    enqueues cleanup 4: the cleanups run in the order 1, 2, 4, and the
    effect is deferred.  With cleanup 3, which throws, in the place of
    cleanup 2, the flush ends after 1 and 3, and cleanup 4 stays queued. *)
Example flush_serves_what_is_enqueued :
  fifo Scenario.busy_pushes Scenario.busy_throws 5 (queue Scenario.busy_queue)
    = Emptied [CleanupItem "p" 0 (mkCallback 1 []); EffectItem "p" 1 0 Scenario.effect5;
               CleanupItem "q" 0 Scenario.cleanup2; CleanupItem "r" 0 (mkCallback 4 [])] /\
  option_map (fun rt => (log rt, queue rt, microtasks (scheduler rt)))
    (Scenario.returned
       (run_task Scenario.no_name Scenario.no_components Scenario.busy_user 5 FlushTask
          Scenario.busy_queue))
    = Some ([1; 2; 4], [], [EffectTask 0 1 Scenario.effect5]) /\
  match run_task Scenario.no_name Scenario.no_components Scenario.busy_user 5 FlushTask
          Scenario.broken_queue with
  | Thrown _ rt' => log rt' = [1; 3] /\ queue rt' = [CleanupItem "r" 0 (mkCallback 4 [])]
  | _ => False
  end.
Proof. vm_compute. repeat split; reflexivity. Qed.


(** ** The component stack *)

Lemma keeps_stack_ret {A} (a : A) : keeps_stack (ret a).
Proof. intros rt. reflexivity. Qed.

Lemma keeps_stack_throw {A} (e : Error) : keeps_stack (@throw A e).
Proof. intros rt. reflexivity. Qed.

Lemma keeps_stack_get : keeps_stack get.
Proof. intros rt. reflexivity. Qed.

Lemma keeps_stack_bind {A B} (m : M A) (f : A -> M B) :
  keeps_stack m -> (forall a, keeps_stack (f a)) -> keeps_stack (bind m f).
Proof.
  intros Hm Hf rt. unfold bind. specialize (Hm rt).
  destruct (m rt) as [a rt1 | e rt1 |]; [| exact Hm | exact I].
  specialize (Hf a rt1). destruct (f a rt1); [congruence | congruence | exact I].
Qed.

Lemma keeps_stack_modify (f : Runtime -> Runtime) :
  (forall rt, componentStack (hooks (f rt)) = componentStack (hooks rt)) ->
  keeps_stack (modify f).
Proof. intros H rt. apply H. Qed.

Lemma keeps_stack_when (b : bool) (m : M unit) : keeps_stack m -> keeps_stack (when b m).
Proof. intros H. destruct b; [exact H | apply keeps_stack_ret]. Qed.

Lemma keeps_stack_forEach {A} (f : A -> M unit) (l : list A) :
  (forall x, keeps_stack (f x)) -> keeps_stack (forEach f l).
Proof.
  intros H. induction l as [| x l IH]; cbn; [apply keeps_stack_ret |].
  apply keeps_stack_bind; auto.
Qed.

(** Steps through the binds and case distinctions of an action. *)
Ltac keeps_step :=
  first
    [ assumption
    | apply keeps_stack_ret
    | apply keeps_stack_throw
    | apply keeps_stack_get
    | apply keeps_stack_modify; intros; reflexivity
    | apply keeps_stack_bind; [| intros ?]
    | apply keeps_stack_when
    | apply keeps_stack_forEach; intros ?
    | match goal with
      | |- keeps_stack (match ?x with _ => _ end) => destruct x
      end ].

Ltac keeps := repeat keeps_step.

Create HintDb stack discriminated.

Lemma keeps_stack_modify_nodes f : keeps_stack (modify_nodes f).
Proof. unfold modify_nodes. keeps. Qed.

Lemma keeps_stack_alloc_node d : keeps_stack (alloc_node d).
Proof. intros rt. reflexivity. Qed.

Lemma keeps_stack_appendChild p n : keeps_stack (appendChild p n).
Proof. unfold appendChild. keeps. Qed.

Lemma keeps_stack_insertBefore p n a : keeps_stack (insertBefore p n a).
Proof.
  unfold insertBefore. keeps; try apply keeps_stack_appendChild.
Qed.

Lemma keeps_stack_removeChild p n : keeps_stack (removeChild p n).
Proof. unfold removeChild. keeps. Qed.

Lemma keeps_stack_insert_following p n l : keeps_stack (insert_following p n l).
Proof.
  revert n. induction l as [| m l IH]; intros n; cbn; keeps.
  - apply keeps_stack_insertBefore.
  - apply IH.
Qed.

Lemma keeps_stack_insertInstance p i a : keeps_stack (insertInstance p i a).
Proof.
  unfold insertInstance. destruct i as [i |]; [| apply keeps_stack_ret].
  destruct (getDomNodes (Some i)) as [| first rest]; [apply keeps_stack_ret |].
  destruct a as [a |].
  - keeps; [apply keeps_stack_insertBefore | apply keeps_stack_insert_following].
  - apply keeps_stack_forEach. intros x. apply keeps_stack_appendChild.
Qed.

Lemma keeps_stack_removeInstance p i : keeps_stack (removeInstance p i).
Proof. unfold removeInstance. keeps; apply keeps_stack_removeChild. Qed.

Lemma keeps_stack_modify_element n f : keeps_stack (modify_element n f).
Proof. unfold modify_element. apply keeps_stack_modify_nodes. Qed.

Lemma keeps_stack_updateDomProps d prevProps nextProps :
  keeps_stack (updateDomProps d prevProps nextProps).
Proof.
  unfold updateDomProps, setDomProps.
  apply keeps_stack_bind; [| intros; apply keeps_stack_modify_element].
  apply keeps_stack_forEach. intros [key v]. unfold removeDomProp.
  repeat match goal with
         | |- keeps_stack (if ?b then _ else _) => destruct b
         end; keeps; try apply keeps_stack_modify_element.
Qed.

Lemma keeps_stack_currentPath : keeps_stack currentPath.
Proof. unfold currentPath. keeps. Qed.

Lemma keeps_stack_currentCursor : keeps_stack currentCursor.
Proof. unfold currentCursor. keeps; apply keeps_stack_currentPath. Qed.

Lemma keeps_stack_new_array l : keeps_stack (new_array l).
Proof. intros rt. reflexivity. Qed.

Lemma keeps_stack_currentHooks : keeps_stack currentHooks.
Proof.
  unfold currentHooks. keeps;
    first [apply keeps_stack_currentPath | apply keeps_stack_new_array].
Qed.

Lemma keeps_stack_read_array a : keeps_stack (read_array a).
Proof. intros rt. reflexivity. Qed.

Lemma keeps_stack_write_array a l : keeps_stack (write_array a l).
Proof. unfold write_array. keeps. Qed.

Lemma keeps_stack_set_cursor p c : keeps_stack (set_cursor p c).
Proof. unfold set_cursor. keeps. Qed.

Lemma keeps_stack_push_queue i : keeps_stack (push_queue i).
Proof. unfold push_queue. keeps. Qed.

#[local] Hint Resolve keeps_stack_currentPath keeps_stack_currentCursor
  keeps_stack_currentHooks keeps_stack_read_array keeps_stack_write_array
  keeps_stack_set_cursor keeps_stack_push_queue keeps_stack_new_array
  keeps_stack_removeInstance keeps_stack_insertInstance keeps_stack_updateDomProps
  keeps_stack_modify_element keeps_stack_alloc_node keeps_stack_modify_nodes : stack.

Lemma keeps_stack_useState initialValue : keeps_stack (useState initialValue).
Proof. unfold useState. keeps; auto with stack. Qed.

Lemma keeps_stack_useEffect eff d : keeps_stack (useEffect eff d).
Proof.
  unfold useEffect. keeps; auto with stack.
Qed.

Lemma keeps_stack_run_component p : keeps_stack (run_component p).
Proof.
  induction p as [child | message | initialValue k IH | eff d k IH]; cbn.
  - apply keeps_stack_ret.
  - apply keeps_stack_throw.
  - apply keeps_stack_bind; [apply keeps_stack_useState | intros r; apply IH].
  - apply keeps_stack_bind; [apply keeps_stack_useEffect | intros _; apply IH].
Qed.

(** [try { body } finally { componentStack.pop() }] leaves the stack without
    its last entry when the body keeps the stack. *)
Lemma try_finally_pops {A} (body : M A) (rt : Runtime) :
  keeps_stack body ->
  match try_finally body pop_path rt with
  | Returned _ rt' | Thrown _ rt' =>
      componentStack (hooks rt') = removelast (componentStack (hooks rt))
  | OutOfFuel => True
  end.
Proof.
  intros H. unfold try_finally. specialize (H rt).
  destruct (body rt) as [a rt1 | e rt1 |]; cbn; [| | exact I]; now rewrite H.
Qed.

Section StackOfReconcile.

Variable component_name : nat -> string.
Variable components : nat -> Props -> Prog.
Variable rec : option nat -> option Instance -> option VNode -> string -> M (option Instance).
Hypothesis rec_keeps_stack : forall p i n path, keeps_stack (rec p i n path).

Lemma keeps_stack_mount_children p path children index rest :
  keeps_stack (mount_children component_name rec p path children index rest).
Proof.
  revert index. induction rest as [| child rest IH]; intros index; cbn.
  - apply keeps_stack_ret.
  - apply keeps_stack_bind; [apply rec_keeps_stack | intros i].
    apply keeps_stack_bind; [apply IH | intros others; apply keeps_stack_ret].
Qed.

Lemma keeps_stack_mountComponent p node c path :
  keeps_stack (mountComponent components rec p node c path).
Proof.
  intros rt. unfold mountComponent.
  unfold bind at 1, push_path at 1, modify at 1.
  unfold bind at 1, visit at 1, modify at 1.
  unfold bind at 1. unfold bind at 1, get at 1.
  match goal with
  | |- context [try_finally ?b pop_path] => set (body := b)
  end.
  assert (keeps_stack body) as Hbody.
  { subst body. apply keeps_stack_bind; [apply keeps_stack_run_component | intros childNode].
    destruct childNode; [| apply keeps_stack_ret].
    apply keeps_stack_bind; [apply rec_keeps_stack | intros; apply keeps_stack_ret]. }
  assert (forall r : Runtime,
            componentStack (hooks r) = componentStack (hooks rt) ++ [path] ->
            match try_finally body pop_path r with
            | Returned _ rt' | Thrown _ rt' =>
                componentStack (hooks rt') = componentStack (hooks rt)
            | OutOfFuel => True
            end) as Hpop.
  { intros r Hr. pose proof (try_finally_pops body r Hbody) as H.
    destruct (try_finally body pop_path r); [| | exact I];
      rewrite Hr, removelast_last in H; exact H. }
  cbn [hooks with_hooks state with_visited with_componentStack].
  destruct (state (hooks rt) !! path) as [a |].
  - unfold ret at 1. unfold bind at 1. unfold bind at 1, get at 1.
    cbn [hooks with_hooks cursor with_visited with_componentStack].
    destruct (cursor (hooks rt) !! path) as [k |]; apply Hpop; reflexivity.
  - unfold bind at 1, new_array at 1. unfold modify at 1.
    unfold bind at 1. unfold bind at 1, get at 1.
    cbn [hooks with_hooks cursor with_visited with_componentStack with_state
         with_next_array with_arrays].
    destruct (cursor (hooks rt) !! path) as [k |]; apply Hpop; reflexivity.
Qed.

Lemma keeps_stack_children_read (node : VNode) : keeps_stack (children_read node).
Proof.
  unfold children_read.
  destruct (children_readable node); [apply keeps_stack_ret | apply keeps_stack_throw].
Qed.

Lemma keeps_stack_mount p node path :
  keeps_stack (mount component_name components rec p node path).
Proof.
  unfold mount. destruct (node_type node) as [| tag | | c | d].
  - apply keeps_stack_bind; [apply keeps_stack_alloc_node | intros textNode].
    apply keeps_stack_bind; [apply keeps_stack_insertInstance | intros _; apply keeps_stack_ret].
  - apply keeps_stack_bind; [apply keeps_stack_alloc_node | intros d].
    apply keeps_stack_bind; [apply keeps_stack_modify_element | intros _].
    apply keeps_stack_bind; [apply keeps_stack_children_read | intros children].
    apply keeps_stack_bind; [apply keeps_stack_mount_children | intros cs].
    apply keeps_stack_bind; [apply keeps_stack_insertInstance | intros _; apply keeps_stack_ret].
  - apply keeps_stack_bind; [apply keeps_stack_children_read | intros children].
    apply keeps_stack_bind; [apply keeps_stack_mount_children | intros cs; apply keeps_stack_ret].
  - apply keeps_stack_mountComponent.
  - apply keeps_stack_ret.
Qed.

Lemma keeps_stack_reconcileChild p path prevChildren nextChildren i :
  keeps_stack (reconcileChild component_name rec p path prevChildren nextChildren i).
Proof.
  unfold reconcileChild. destruct (nextChildren !! i) as [nextChild |].
  - apply keeps_stack_bind; [apply rec_keeps_stack | intros childInstance].
    apply keeps_stack_bind; [| intros _; apply keeps_stack_ret].
    unfold place_mounted.
    destruct childInstance; [| apply keeps_stack_ret].
    destruct (mjoin (prevChildren !! i)); [apply keeps_stack_ret |].
    destruct (getFirstDomFromChildren (drop (i + 1) prevChildren)); [| apply keeps_stack_ret].
    destruct (getFirstDom (Some i0)); [| apply keeps_stack_ret].
    apply keeps_stack_bind; [apply keeps_stack_get | intros rt].
    apply keeps_stack_when, keeps_stack_insertInstance.
  - apply keeps_stack_bind; [| intros _; apply keeps_stack_ret].
    destruct (mjoin (prevChildren !! i)); [apply keeps_stack_removeInstance | apply keeps_stack_ret].
Qed.

Lemma keeps_stack_reconcileChildren_loop p path prevChildren nextChildren remaining i acc :
  keeps_stack
    (reconcileChildren_loop component_name rec p path prevChildren nextChildren remaining i acc).
Proof.
  revert i acc. induction remaining as [| remaining IH]; intros i acc; cbn.
  - apply keeps_stack_ret.
  - apply keeps_stack_bind; [apply keeps_stack_reconcileChild | intros c; apply IH].
Qed.

Lemma keeps_stack_reconcileChildren p instance node path :
  keeps_stack (reconcileChildren component_name rec p instance node path).
Proof.
  unfold reconcileChildren.
  apply keeps_stack_bind; [apply keeps_stack_children_read | intros nextChildren].
  apply keeps_stack_bind; [apply keeps_stack_reconcileChildren_loop | intros; apply keeps_stack_ret].
Qed.

Lemma keeps_stack_updateComponent p instance node c path :
  keeps_stack (updateComponent components rec p instance node c path).
Proof.
  intros rt. unfold updateComponent.
  unfold bind at 1, push_path at 1, modify at 1.
  unfold bind at 1, visit at 1, modify at 1.
  unfold bind at 1, set_cursor at 1, modify at 1.
  match goal with
  | |- context [try_finally ?b pop_path ?r] =>
      assert (keeps_stack b) as Hbody;
      [| pose proof (try_finally_pops b r Hbody) as H;
         destruct (try_finally b pop_path r); [| | exact I];
         cbn in H; rewrite removelast_last in H; exact H]
  end.
  apply keeps_stack_bind; [apply keeps_stack_run_component | intros childNode].
  apply keeps_stack_bind.
  { destruct childNode; [apply rec_keeps_stack | apply keeps_stack_ret]. }
  intros nextChild.
  apply keeps_stack_bind; [| intros _; apply keeps_stack_ret].
  destruct nextChild; [apply keeps_stack_ret |].
  destruct (mjoin _); [apply keeps_stack_removeInstance | apply keeps_stack_ret].
Qed.

Lemma keeps_stack_reconcile_body p instance node path :
  keeps_stack (reconcile_body component_name components rec p instance node path).
Proof.
  unfold reconcile_body. destruct node as [node |].
  2:{ apply keeps_stack_bind; [| intros _; apply keeps_stack_ret].
      destruct instance; [apply keeps_stack_removeInstance | apply keeps_stack_ret]. }
  destruct instance as [inst |]; [| apply keeps_stack_mount].
  destruct (negb (bool_decide (node_type (i_node inst) = node_type node))
            || negb (bool_decide (i_key inst = node_key node))).
  { apply keeps_stack_bind; [apply keeps_stack_removeInstance | intros _; apply keeps_stack_mount]. }
  destruct (node_type node) as [| tag | | c | d].
  - apply keeps_stack_bind; [| intros _; apply keeps_stack_ret].
    destruct (i_dom _); [| apply keeps_stack_ret].
    apply keeps_stack_bind; [apply keeps_stack_get | intros rt].
    apply keeps_stack_when, keeps_stack_modify_nodes.
  - apply keeps_stack_bind.
    { destruct (i_dom _); [apply keeps_stack_updateDomProps | apply keeps_stack_ret]. }
    intros _.
    apply keeps_stack_bind; [apply keeps_stack_reconcileChildren | intros; apply keeps_stack_ret].
  - apply keeps_stack_bind; [apply keeps_stack_reconcileChildren | intros; apply keeps_stack_ret].
  - apply keeps_stack_updateComponent.
  - apply keeps_stack_ret.
Qed.

End StackOfReconcile.

Lemma keeps_stack_reconcile component_name components fuel p instance node path :
  keeps_stack (reconcile component_name components fuel p instance node path).
Proof.
  revert p instance node path. induction fuel as [| fuel IH]; intros p instance node path.
  - intros rt. exact I.
  - cbn [reconcile]. apply keeps_stack_reconcile_body. exact IH.
Qed.

(** C10: a call of [reconcile] on a component VNode, whether it mounts or
    updates and whether it returns or throws, leaves the component stack as
    it found it: the path pushed on entry has been popped. *)
Theorem reconcile_component_restores_stack
    (component_name : nat -> string) (components : nat -> Props -> Prog)
    (fuel : nat) (parentDom : option nat) (instance : option Instance)
    (node : VNode) (c : nat) (path : string) (rt : Runtime) :
  node_type node = ComponentFn c ->
  match reconcile component_name components fuel parentDom instance (Some node) path rt with
  | Returned _ rt' | Thrown _ rt' =>
      componentStack (hooks rt') = componentStack (hooks rt) /\
      currentPath rt' = match currentPath rt with
                        | Returned p _ => Returned p rt'
                        | Thrown e _ => Thrown e rt'
                        | OutOfFuel => OutOfFuel
                        end
  | OutOfFuel => True
  end.
Proof.
  intros _.
  pose proof (keeps_stack_reconcile component_name components fuel parentDom instance
                (Some node) path rt) as H.
  destruct (reconcile _ _ _ _ _ _ _ _) as [i rt' | e rt' |]; [| | exact I];
    (split; [exact H |]);
    unfold currentPath, bind, get; rewrite H;
    destruct (last (componentStack (hooks rt))); reflexivity.
Qed.

(** A component that calls a hook and then throws. *)
Lemma reconcile_component_restores_stack_witness :
  node_type (Scenario.use 0) = ComponentFn 0 /\
  match reconcile Scenario.boom_name Scenario.boom 3 (Some 0) None (Some (Scenario.use 0)) ""
          Scenario.initial with
  | Returned _ rt' | Thrown _ rt' =>
      componentStack (hooks rt') = componentStack (hooks Scenario.initial) /\
      currentPath rt' = match currentPath Scenario.initial with
                        | Returned p _ => Returned p rt'
                        | Thrown e _ => Thrown e rt'
                        | OutOfFuel => OutOfFuel
                        end
  | OutOfFuel => True
  end.
Proof.
  split; [reflexivity |].
  apply (reconcile_component_restores_stack Scenario.boom_name Scenario.boom 3 (Some 0) None
           (Scenario.use 0) 0 "" Scenario.initial).
  reflexivity.
Defined.

(** The component of the witness does throw, after its hook ran, and the
    stack is empty again; a component that returns is covered as well. *)
Example throwing_component_pops :
  match reconcile Scenario.boom_name Scenario.boom 3 (Some 0) None (Some (Scenario.use 0)) ""
          Scenario.initial with
  | Thrown e rt' =>
      e = UserError "boom" /\ componentStack (hooks rt') = [] /\
      cursor (hooks rt') !! "" = Some 1
  | _ => False
  end.
Proof. vm_compute. repeat split; reflexivity. Qed.

Example returning_component_pops :
  match reconcile Scenario.counter_name Scenario.counter 3 (Some 0) None (Some (Scenario.use 0))
          "" Scenario.initial with
  | Returned (Some i) rt' => i_kind i = COMPONENT /\ componentStack (hooks rt') = []
  | _ => False
  end.
Proof. vm_compute. repeat split; reflexivity. Qed.

(** ** Children are matched by index *)

Section ChildrenByIndex.

Variable component_name : nat -> string.
Variable components : nat -> Props -> Prog.

Abbreviation reconcile' := (reconcile component_name components).
Abbreviation reconcileChild' := (reconcileChild component_name).
Abbreviation childPath' := (createChildPath component_name).

(** The loop of [reconcileChildren] is a walk over consecutive indices. *)
Lemma reconcileChildren_loop_mapM rec p path prev next remaining i acc rt :
  reconcileChildren_loop component_name rec p path prev next remaining i acc rt
  = (cs <- mapM (reconcileChild' rec p path prev next) (seq i remaining) ;;
     ret (acc ++ cs)) rt.
Proof.
  revert i acc rt. induction remaining as [| remaining IH]; intros i acc rt.
  - cbn. unfold bind, ret. now rewrite app_nil_r.
  - cbn [reconcileChildren_loop seq mapM]. unfold bind.
    destruct (reconcileChild' rec p path prev next i rt) as [c rt1 | e rt1 |];
      [| reflexivity | reflexivity].
    rewrite IH. unfold bind, ret.
    destruct (mapM _ _ rt1) as [cs rt2 | e rt2 |]; [| reflexivity | reflexivity].
    now rewrite <- app_assoc.
Qed.

Lemma mapM_length {A B} (f : A -> M B) (l : list A) rt ys rt' :
  mapM f l rt = Returned ys rt' -> length ys = length l.
Proof.
  revert rt ys rt'. induction l as [| x l IH]; intros rt ys rt'; cbn.
  - intros [= <- _]. reflexivity.
  - unfold bind at 1. destruct (f x rt) as [y rt1 | |]; [| discriminate | discriminate].
    unfold bind at 1. destruct (mapM f l rt1) as [ys' rt2 | |] eqn:E; [| discriminate | discriminate].
    intros [= <- _]. cbn. f_equal. exact (IH _ _ _ E).
Qed.

Lemma reconcileChildren_mapM rec p instance node path rt :
  reconcileChildren component_name rec p instance node path rt
  = (next <- children_read node ;;
     cs <- mapM (reconcileChild' rec p path (i_children instance) next)
             (seq 0 (Nat.max (length (i_children instance)) (length next))) ;;
     ret (set_children cs instance)) rt.
Proof.
  unfold reconcileChildren. unfold bind at 1 3.
  destruct (children_read node rt) as [next rt1 | |]; [| reflexivity | reflexivity].
  unfold bind at 1. rewrite reconcileChildren_loop_mapM.
  unfold bind, ret. now destruct (mapM _ _ rt1).
Qed.

End ChildrenByIndex.

(** The unkeyed list [A B C] re-rendered as [X A B C]: the three [li] host
    nodes stay where they are and index [i] of the new list is reconciled
    against index [i] of the old one, so their texts become X, A and B; the
    fourth [li] is new and shows C. *)
Example unkeyed_prepend_matches_by_index :
  Scenario.child_ids Scenario.abc_runtime 1 = [2; 4; 6] /\
  map (Scenario.text_at Scenario.abc_runtime) [3; 5; 7] = [Some "A"; Some "B"; Some "C"] /\
  match reconcile Scenario.no_name Scenario.no_components 10 (Some 0)
          (Some Scenario.abc_instance) (Some Scenario.list_xabc) "" Scenario.abc_runtime with
  | Returned _ rt' =>
      Scenario.child_ids rt' 1 = [2; 4; 6; 8] /\
      map (Scenario.text_at rt') [3; 5; 7; 9] = [Some "X"; Some "A"; Some "B"; Some "C"]
  | _ => False
  end.
Proof. vm_compute. repeat split; reflexivity. Qed.

(** ** Placement of a child mounted into a hole *)

(** The host nodes after a new text node [n] was created and appended to [p]. *)
Lemma appended_text_nodes (ns : gmap nat DomNode) (p n : nat) (pd : DomNode) (value : string) :
  ns !! p = Some pd ->
  ns !! n = None ->
  let ns' := attach_last p n (detach n (<[n := mkDomNode (TextData value) None []]> ns)) in
  parent_of ns' n = Some p /\
  childNodes <$> ns' !! p = Some (childNodes pd ++ [n]).
Proof.
  intros Hp Hn. assert (p <> n) as Hne by congruence. cbn.
  assert (detach n (<[n := mkDomNode (TextData value) None []]> ns)
          = <[n := mkDomNode (TextData value) None []]> ns) as ->.
  { unfold detach, parent_of. now rewrite lookup_insert_eq. }
  unfold attach_last, parent_of. split.
  - rewrite lookup_alter, decide_True by reflexivity.
    rewrite lookup_alter, decide_False by exact Hne.
    now rewrite lookup_insert_eq.
  - rewrite lookup_alter, decide_False by congruence.
    rewrite lookup_alter, decide_True by reflexivity.
    rewrite lookup_insert_ne by congruence. now rewrite Hp.
Qed.

Lemma mount_text (component_name : nat -> string) (components : nat -> Props -> Prog)
    rec (p : nat) (child : VNode) (path : string) (rt : Runtime) :
  node_type child = TEXT_ELEMENT ->
  let n := fresh (document rt) in
  mount component_name components rec (Some p) child path rt
  = Returned (Some (mkInstance TEXT (Some n) child [] (node_key child) path))
      (with_document
         (mkDocument
            (attach_last p n
               (detach n (<[n := mkDomNode (TextData (text_of child)) None []]>
                            (nodes (document rt)))))
            (S n)) rt).
Proof. intros Htext. unfold mount. rewrite Htext. reflexivity. Qed.

(** A text child that is mounted where the previous child list has a hole
    ends up behind every child the parent already has, whether or not a
    later previous sibling has a host node. *)
Lemma mounted_text_child_is_appended
    (component_name : nat -> string) (components : nat -> Props -> Prog)
    (fuel p i : nat) (path : string) (prev : list (option Instance)) (next : list VNode)
    (child : VNode) (pd : DomNode) (rt : Runtime) :
  mjoin (prev !! i) = None ->
  next !! i = Some child ->
  node_type child = TEXT_ELEMENT ->
  nodes (document rt) !! p = Some pd ->
  nodes (document rt) !! fresh (document rt) = None ->
  exists rt',
    reconcileChild component_name (reconcile component_name components (S fuel))
      (Some p) path prev next i rt
    = Returned
        (Some (mkInstance TEXT (Some (fresh (document rt))) child [] (node_key child)
                 (createChildPath component_name path (node_key child) i (node_type child) next)))
        rt' /\
    childNodes <$> nodes (document rt') !! p = Some (childNodes pd ++ [fresh (document rt)]).
Proof.
  intros Hprev Hnext Htext Hp Hfresh.
  destruct (appended_text_nodes (nodes (document rt)) p (fresh (document rt)) pd
              (text_of child) Hp Hfresh) as [Hparent Hchildren].
  unfold reconcileChild. rewrite Hprev, Hnext.
  cbn [reconcile]. unfold reconcile_body.
  unfold bind at 1. rewrite (mount_text _ _ _ p child _ rt Htext).
  exists (with_document
            (mkDocument
               (attach_last p (fresh (document rt))
                  (detach (fresh (document rt))
                     (<[fresh (document rt) := mkDomNode (TextData (text_of child)) None []]>
                        (nodes (document rt)))))
               (S (fresh (document rt)))) rt).
  split; [| exact Hchildren].
  unfold bind at 1. unfold place_mounted.
  destruct (getFirstDomFromChildren (drop (i + 1) prev)); [| reflexivity].
  cbn [getFirstDom firstDom]. unfold bind at 1, get at 1.
  cbn [document with_document nodes].
  rewrite Hparent, bool_decide_eq_true_2 by reflexivity. reflexivity.
Qed.

(** C2 fails on the code.  The first render leaves a hole at index 0 of the
    children of the [div], in front of a [span] that has a host node.  The
    second render mounts a [p] at index 0: [mount] has already appended it to
    the parent, so the test [firstDom.parentNode !== parentDom] of
    [reconcileChildren] is false and the [p] is never moved in front of the
    [span]: the document order is [span, p], the virtual order [p, span]. *)
Theorem mounted_in_hole_is_appended :
  match Scenario.hole_mounted, Scenario.hole_filled with
  | Some rt1, Some rt2 =>
      Scenario.committed_children rt1 = [None; Some (Some 2)] /\
      Scenario.child_tags rt1 1 = ["span"] /\
      Scenario.committed_children rt2 = [Some (Some 3); Some (Some 2)] /\
      Scenario.child_tags rt2 1 = ["span"; "p"] /\
      Scenario.child_ids rt2 1 = [2; 3]
  | _, _ => False
  end.
Proof. vm_compute. repeat split; reflexivity. Qed.

(** ** Props that are dropped by an update *)

Lemma element_at_modify_element (d n : nat) (f : Element -> Element) (rt : Runtime) :
  exists rt',
    modify_element d f rt = Returned tt rt' /\
    element_at (nodes (document rt')) n
    = if decide (n = d) then f <$> element_at (nodes (document rt)) n
      else element_at (nodes (document rt)) n.
Proof.
  eexists. split; [reflexivity |]. cbn. unfold element_at.
  rewrite lookup_alter. destruct (decide (n = d)) as [-> | Hne].
  - rewrite decide_True by reflexivity.
    destruct (nodes (document rt) !! d) as [nd |]; [| reflexivity].
    now destruct nd as [[s | tag el] pn cn].
  - now rewrite decide_False by congruence.
Qed.

(** A change of an element that keeps its class name keeps the class name
    found at every address. *)
Lemma class_after_modify_element (d n : nat) (f : Element -> Element) (rt : Runtime) :
  (forall el, className (f el) = className el) ->
  match modify_element d f rt with
  | Returned _ rt' | Thrown _ rt' =>
      className <$> element_at (nodes (document rt')) n
      = className <$> element_at (nodes (document rt)) n
  | OutOfFuel => True
  end.
Proof.
  intros Hf. destruct (element_at_modify_element d n f rt) as (rt' & -> & E).
  rewrite E. case_decide; [| reflexivity].
  destruct (element_at (nodes (document rt)) n); cbn; [| reflexivity]. now rewrite Hf.
Qed.

Lemma className_fold_set_style (g : Element -> string * string -> Element)
    (l : list (string * string)) (el : Element) :
  (forall e kv, className (g e kv) = className e) ->
  className (fold_left g l el) = className el.
Proof.
  intros Hg. revert el. induction l as [| kv l IH]; intros el; cbn; [reflexivity |].
  now rewrite IH, Hg.
Qed.

Lemma className_setDomProp (el : Element) (key : string) (v : PropVal) :
  key <> "className" -> className (setDomProp el (key, v)) = className el.
Proof.
  intros Hkey. unfold setDomProp.
  destruct (String.eqb key "children"); [reflexivity |].
  destruct (String.prefix "on" key && is_function v).
  { destruct v; try reflexivity. unfold addEventListener.
    now destruct (existsb _ _). }
  destruct (String.eqb key "className") eqn:E.
  { apply String.eqb_eq in E. contradiction. }
  destruct (String.eqb key "style" && is_object v).
  { apply className_fold_set_style. intros e kv. reflexivity. }
  destruct (String.prefix "data-" key); reflexivity.
Qed.

Lemma className_setDomProps_element (props : Props) (el : Element) :
  prop_in "className" props = false ->
  className (setDomProps_element props el) = className el.
Proof.
  unfold setDomProps_element, prop_in. revert el.
  induction props as [| [key v] props IH]; intros el H; cbn [fold_left]; [reflexivity |].
  cbn [prop_get] in H. destruct (String.eqb key "className") eqn:E; [discriminate |].
  rewrite IH by exact H. apply className_setDomProp.
  intros ->. now rewrite String.eqb_refl in E.
Qed.

Lemma class_after_removeDomProp (d n : nat) (nextProps : Props) (kv : string * PropVal)
    (rt : Runtime) :
  match removeDomProp d nextProps kv rt with
  | Returned _ rt' | Thrown _ rt' =>
      className <$> element_at (nodes (document rt')) n
      = className <$> element_at (nodes (document rt)) n
  | OutOfFuel => True
  end.
Proof.
  destruct kv as [key v]. unfold removeDomProp.
  destruct (String.eqb key "children"); [reflexivity |].
  destruct (String.prefix "on" key && is_function v).
  { destruct v; try reflexivity. now apply class_after_modify_element. }
  destruct (String.eqb key "className"); [reflexivity |].
  destruct (String.eqb key "style" && is_object v).
  { destruct v as [[] | | |]; try reflexivity;
      (destruct (style_clash _ _ _); [reflexivity |]);
      apply class_after_modify_element; intros el;
      apply className_fold_set_style; intros e skv;
      now destruct (style_key_gone _ _ _). }
  destruct (String.prefix "data-" key);
    (destruct (negb (prop_in key nextProps)); [| reflexivity]);
    now apply class_after_modify_element.
Qed.

(** Whatever the previous props, an update whose next props have no
    [className] leaves the class name of the element as it was. *)
Lemma updateDomProps_keeps_className (d : nat) (prevProps nextProps : Props) (rt : Runtime) :
  prop_in "className" nextProps = false ->
  match updateDomProps d prevProps nextProps rt with
  | Returned _ rt' | Thrown _ rt' =>
      className <$> element_at (nodes (document rt')) d
      = className <$> element_at (nodes (document rt)) d
  | OutOfFuel => True
  end.
Proof.
  intros Hnext. unfold updateDomProps.
  assert (forall l r,
            match forEach (removeDomProp d nextProps) l r with
            | Returned _ rt' | Thrown _ rt' =>
                className <$> element_at (nodes (document rt')) d
                = className <$> element_at (nodes (document r)) d
            | OutOfFuel => True
            end) as Hloop.
  { induction l as [| kv l IH]; intros r; cbn; [reflexivity |].
    unfold bind. pose proof (class_after_removeDomProp d d nextProps kv r) as Hstep.
    destruct (removeDomProp d nextProps kv r) as [[] r1 | e r1 |]; [| exact Hstep | exact I].
    specialize (IH r1). destruct (forEach _ l r1); [| | exact I]; congruence. }
  unfold bind. specialize (Hloop prevProps rt).
  destruct (forEach _ prevProps rt) as [[] rt1 | e rt1 |]; [| exact Hloop | exact I].
  pose proof (class_after_modify_element d d (setDomProps_element nextProps) rt1
                (fun el => className_setDomProps_element nextProps el Hnext)) as Hset.
  unfold setDomProps. destruct (modify_element _ _ rt1); [| | exact I]; congruence.
Qed.

(** C3 fails on the code, in two ways.  [updateDomProps] does nothing for a
    [className] of the previous props, so a class that the next props no
    longer have stays on the element.  And [reconcile] assigns
    [instance.node = node] before it calls
    [updateDomProps(dom, instance.node.props, node.props)]: the previous props
    it passes are the next props, so no prop of the old node is removed and
    the old listener stays attached. *)
Theorem dropped_props_stay :
  match Scenario.with_class with
  | Some rt =>
      className (Scenario.element_of rt 0) = "a" /\
      match updateDomProps 0 [("className", PValue (VStr "a"))] [] rt with
      | Returned _ rt' => className (Scenario.element_of rt' 0) = "a"
      | _ => False
      end
  | None => False
  end /\
  match Scenario.props_mounted, Scenario.props_dropped with
  | Some rt1, Some rt2 =>
      Scenario.child_ids rt1 0 = [1] /\ Scenario.child_ids rt2 0 = [1] /\
      option_map (fun i => map (option_map (fun c => node_props (i_node c))) (i_children i))
        (root_instance (root rt2))
      = Some [Some [("children", PChildren [])]] /\
      fields (Scenario.element_of rt2 1) !! "id" = Some (PValue (VStr "x")) /\
      attributes (Scenario.element_of rt2 1) !! "data-k" = Some "v" /\
      className (Scenario.element_of rt2 1) = "a" /\
      listeners (Scenario.element_of rt2 1) = [("click", 7)]
  | _, _ => False
  end.
Proof. vm_compute. repeat split; reflexivity. Qed.

(** ** Garbage collection of hook slots *)

Lemma elem_of_pathsToRemove (h : Hooks) (p : string) :
  p ∈ pathsToRemove h <-> is_Some (state h !! p) /\ p ∉ visited h.
Proof.
  unfold pathsToRemove. rewrite list_elem_of_In, filter_In, in_map_iff. split.
  - intros [(kv & <- & Hin) Hv]. split.
    + destruct kv as [k a]. apply list_elem_of_In, elem_of_map_to_list in Hin.
      cbn. now exists a.
    + apply negb_true_iff, bool_decide_eq_false in Hv. exact Hv.
  - intros [[a Ha] Hv]. split.
    + exists (p, a). split; [reflexivity |].
      apply list_elem_of_In, elem_of_map_to_list. exact Ha.
    + apply negb_true_iff, bool_decide_eq_false. exact Hv.
Qed.

(** [cleanupUnusedHooks] deletes the slot list and the cursor of every path
    that has a slot list and was not visited, keeps the slot lists of the
    visited paths, and empties the visited set.  The cursor of a path
    without a slot list is kept, visited or not. *)
Lemma cleanupUnusedHooks_spec (rt : Runtime) :
  exists rt',
    cleanupUnusedHooks rt = Returned tt rt' /\
    (forall p, state (hooks rt') !! p
               = if decide (p ∈ visited (hooks rt)) then state (hooks rt) !! p else None) /\
    (forall p, cursor (hooks rt') !! p
               = if decide (p ∈ visited (hooks rt) \/ state (hooks rt) !! p = None)
                 then cursor (hooks rt) !! p else None) /\
    visited (hooks rt') = ∅ /\
    componentStack (hooks rt') = componentStack (hooks rt).
Proof.
  eexists. split; [reflexivity |]. cbn. repeat split.
  - intros p. case_decide as Hv.
    + apply lookup_foldr_delete_not_elem_of. rewrite elem_of_pathsToRemove. tauto.
    + destruct (state (hooks rt) !! p) as [a |] eqn:E.
      * apply lookup_foldr_delete. rewrite elem_of_pathsToRemove. split; [now exists a | exact Hv].
      * rewrite lookup_foldr_delete_not_elem_of; [exact E |].
        rewrite elem_of_pathsToRemove, E. intros [[a Ha] _]. discriminate.
  - intros p. case_decide as Hv.
    + apply lookup_foldr_delete_not_elem_of. rewrite elem_of_pathsToRemove.
      intros [[a Ha] Hn]. destruct Hv as [Hv | Hv]; [tauto | congruence].
    + apply lookup_foldr_delete. rewrite elem_of_pathsToRemove. split.
      * destruct (state (hooks rt) !! p) as [a |]; [now exists a | tauto].
      * tauto.
Qed.

(** C6 fails on the code.  [App] renders [A B A], then [B B A]: the second
    [A] is updated in place under a new path, [".i2.cA_0"], for which
    [updateComponent] sets a cursor but, unlike [mountComponent], creates no
    slot list.  Then [App] renders [B B]: the path is not visited, and
    [cleanupUnusedHooks], which walks the slot lists only, keeps its cursor,
    1.  Then [App] renders [B B A] again: [A] is mounted anew at
    [".i2.cA_0"], finds the cursor 1, pushes its initial state 7 into slot 0
    and reads slot 1: it starts from [undefined], not from its initial
    state. *)
Theorem stale_cursor_survives_collection :
  match Scenario.shift_moved, Scenario.shift_removed, Scenario.shift_remounted with
  | Some rt1, Some rt2, Some rt3 =>
      state (hooks rt1) !! ".i2.cA_0" = None /\
      cursor (hooks rt1) !! ".i2.cA_0" = Some 1 /\
      Scenario.child_tags rt2 1 = ["#b"; "#b"] /\
      state (hooks rt2) !! ".i2.cA_0" = None /\
      cursor (hooks rt2) !! ".i2.cA_0" = Some 1 /\
      Scenario.child_tags rt3 1 = ["#b"; "#b"; "#undefined"] /\
      (a ← state (hooks rt3) !! ".i2.cA_0"; arrays rt3 !! a) = Some [StateHook (VNum 7)] /\
      cursor (hooks rt3) !! ".i2.cA_0" = Some 2
  | _, _, _ => False
  end.
Proof. vm_compute. repeat split; reflexivity. Qed.

(** * Further properties of the runtime *)

(** ** The host nodes of an instance *)

(** Induction over an instance and, through its child list, over the
    instances below it. *)
Lemma Instance_nested_ind (P : Instance -> Prop) :
  (forall kind d node children key path,
      Forall (fun c => match c with Some i => P i | None => True end) children ->
      P (mkInstance kind d node children key path)) ->
  forall i, P i.
Proof.
  intros step. fix rec 1. intros [kind d node children key path].
  apply step. induction children as [| c children IH]; constructor.
  - destruct c as [i |]; [apply rec | exact I].
  - exact IH.
Qed.

Lemma firstDom_head (i : Instance) : firstDom i = head (domNodes i).
Proof.
  induction i as [kind d node children key path IH] using Instance_nested_ind.
  cbn [firstDom domNodes].
  assert ((fix first (l : list (option Instance)) : option nat :=
             match l with
             | [] => None
             | c :: rest =>
                 match match c with Some c' => firstDom c' | None => None end with
                 | Some n => Some n
                 | None => first rest
                 end
             end) children
          = head (flat_map (fun c => match c with Some c' => domNodes c' | None => [] end)
                    children)) as Hchildren.
  { induction IH as [| c children Hc _ IHchildren]; [reflexivity |].
    cbn [flat_map]. rewrite IHchildren. destruct c as [c' |]; [| reflexivity].
    rewrite Hc. now destruct (domNodes c'). }
  destruct kind; try exact Hchildren; now destruct d.
Qed.

(** X1: the first host node that [getFirstDom] finds is the first of the host
    nodes that [getDomNodes] collects, and [getFirstDomFromChildren] finds
    the first host node of the whole child list; each is null exactly when
    there is no host node at all. *)
Theorem first_dom_is_first_collected (instance : option Instance)
    (children : list (option Instance)) :
  getFirstDom instance = head (getDomNodes instance) /\
  getFirstDomFromChildren children = head (flat_map getDomNodes children) /\
  (getFirstDom instance = None <-> getDomNodes instance = []).
Proof.
  assert (forall i, getFirstDom i = head (getDomNodes i)) as Hone.
  { intros [i |]; [apply firstDom_head | reflexivity]. }
  split; [apply Hone |]. split.
  - induction children as [| c children IH]; [reflexivity |].
    cbn [getFirstDomFromChildren flat_map]. rewrite IH, Hone.
    now destruct (getDomNodes c).
  - rewrite Hone. now destruct (getDomNodes instance).
Qed.

(** ** Inserting an instance *)

Lemma parent_of_attach_last (p m n : nat) (ns : gmap nat DomNode) :
  parent_of (attach_last p m ns) n
  = if decide (n = m)
    then match ns !! m with Some _ => Some p | None => None end
    else parent_of ns n.
Proof.
  unfold attach_last, parent_of. rewrite lookup_alter.
  destruct (decide (n = m)) as [-> | Hne].
  - rewrite decide_True by reflexivity. rewrite lookup_alter.
    case_decide; subst; destruct (ns !! m); reflexivity.
  - rewrite decide_False by congruence. rewrite lookup_alter.
    case_decide; [| reflexivity]. subst. now destruct (ns !! n).
Qed.

Lemma is_Some_alter_node (f : DomNode -> DomNode) (m n : nat) (ns : gmap nat DomNode) :
  is_Some (alter f m ns !! n) <-> is_Some (ns !! n).
Proof.
  rewrite lookup_alter. case_decide; [| reflexivity]. subst.
  destruct (ns !! n); cbn; split; intros [x H]; eauto; discriminate.
Qed.

Lemma is_Some_detach (m n : nat) (ns : gmap nat DomNode) :
  is_Some (detach m ns !! n) <-> is_Some (ns !! n).
Proof.
  unfold detach. destruct (parent_of ns m); [| reflexivity].
  now rewrite !is_Some_alter_node.
Qed.

Lemma append_loop_spec (p : nat) (l : list nat) (rt : Runtime) :
  exists ns',
    forEach (appendChild (Some p)) l rt = Returned tt (with_nodes ns' rt) /\
    (forall n, is_Some (ns' !! n) <-> is_Some (nodes (document rt) !! n)) /\
    (forall n, parent_of (nodes (document rt)) n = Some p -> parent_of ns' n = Some p) /\
    (forall n, n ∈ l -> is_Some (nodes (document rt) !! n) -> parent_of ns' n = Some p).
Proof.
  revert rt. induction l as [| m l IH]; intros rt.
  - exists (nodes (document rt)). split; [| split; [| split]].
    + cbn. unfold ret, with_nodes. now destruct rt as [[] ].
    + reflexivity.
    + auto.
    + intros n Hn. now apply elem_of_nil in Hn.
  - cbn [forEach]. unfold bind at 1, appendChild at 1, modify_nodes, modify.
    set (ns1 := attach_last p m (detach m (nodes (document rt)))).
    destruct (IH (with_nodes ns1 rt)) as (ns' & Hrun & Hsome & Hkeep & Hin).
    cbn [document with_nodes with_document nodes] in Hsome, Hkeep, Hin.
    assert (forall n, is_Some (ns1 !! n) <-> is_Some (nodes (document rt) !! n)) as Hsome1.
    { intros n. subst ns1. unfold attach_last.
      now rewrite !is_Some_alter_node, is_Some_detach. }
    assert (forall n, is_Some (nodes (document rt) !! n) ->
                      n = m \/ parent_of (nodes (document rt)) n = Some p ->
                      parent_of ns1 n = Some p) as Hstep.
    { intros n Hn Hcase. subst ns1. rewrite parent_of_attach_last.
      destruct (decide (n = m)) as [-> | Hne].
      - apply (is_Some_detach m m) in Hn. now destruct Hn as [x ->].
      - rewrite parent_of_detach, decide_False by exact Hne.
        destruct Hcase; [contradiction | assumption]. }
    exists ns'. split; [| split; [| split]].
    + exact Hrun.
    + intros n. now rewrite Hsome, Hsome1.
    + intros n Hn. apply Hkeep, Hstep; [| now right].
      unfold parent_of in Hn. destruct (nodes (document rt) !! n); [eauto | discriminate].
    + intros n Hn Hstore. apply elem_of_cons in Hn as [-> | Hn].
      * apply Hkeep, Hstep; [exact Hstore | now left].
      * apply Hin; [exact Hn | now apply Hsome1].
Qed.

(** X2: [insertInstance] without an anchor returns and changes only the
    document: every host node of the instance is afterwards a child node of
    [parentDom], and what was under [parentDom] before stays there.  (The
    document does not refuse to place a node under one of its descendants;
    the host nodes of an instance are not above [parentDom].) *)
Theorem insertInstance_appends (p : nat) (instance : option Instance) (rt : Runtime) :
  exists ns',
    insertInstance (Some p) instance None rt = Returned tt (with_nodes ns' rt) /\
    (forall n, n ∈ getDomNodes instance -> is_Some (nodes (document rt) !! n) ->
               parent_of ns' n = Some p) /\
    (forall n, parent_of (nodes (document rt)) n = Some p -> parent_of ns' n = Some p) /\
    (forall n, is_Some (ns' !! n) <-> is_Some (nodes (document rt) !! n)).
Proof.
  destruct (append_loop_spec p (getDomNodes instance) rt) as (ns' & Hrun & Hsome & Hkeep & Hin).
  exists ns'. split; [| split; [exact Hin | split; [exact Hkeep | exact Hsome]]].
  unfold insertInstance. destruct instance as [i |].
  - destruct (getDomNodes (Some i)); [| exact Hrun]. exact Hrun.
  - exact Hrun.
Qed.

(** ** Unmounting *)

(** X3: [reconcile] with a null node never throws and returns null; it changes
    only the document, where no host node of the old instance is under
    [parentDom] any more.  No component is entered and no cleanup of an
    effect of the removed subtree is queued: hooks, slot arrays and effect
    queue are as before. *)
Theorem reconcile_null_unmounts
    (component_name : nat -> string) (components : nat -> Props -> Prog)
    (fuel p : nat) (instance : option Instance) (path : string) (rt : Runtime) :
  exists rt',
    reconcile component_name components (S fuel) (Some p) instance None path rt
    = Returned None rt' /\
    (forall n, n ∈ getDomNodes instance -> parent_of (nodes (document rt')) n <> Some p) /\
    (forall n, parent_of (nodes (document rt)) n <> Some p ->
               parent_of (nodes (document rt')) n <> Some p) /\
    hooks rt' = hooks rt /\ arrays rt' = arrays rt /\ queue rt' = queue rt /\
    scheduler rt' = scheduler rt /\ log rt' = log rt.
Proof.
  destruct (removeInstance_spec p instance rt) as (ns' & Hrm & Hkeep & Hgone).
  exists (with_nodes ns' rt). split; [| repeat split; assumption].
  cbn [reconcile]. unfold reconcile_body.
  assert ((match instance with
           | Some _ => removeInstance (Some p) instance
           | None => ret tt
           end) rt = Returned tt (with_nodes ns' rt)) as Hrm'.
  { rewrite <- Hrm. now destruct instance. }
  now rewrite (bind_returned _ _ _ _ _ Hrm').
Qed.

(** ** Updating a text node *)

(** X4: the update of a text instance by a text node of the same key keeps the
    host node: no node is created, no other node changes, the node keeps its
    parent, and it shows the new text.  Hooks, slot arrays and effect queue
    are not touched. *)
Theorem text_update_in_place
    (component_name : nat -> string) (components : nat -> Props -> Prog)
    (fuel n : nat) (parentDom : option nat) (inst : Instance) (node : VNode)
    (path : string) (rt : Runtime) :
  node_type (i_node inst) = TEXT_ELEMENT ->
  node_type node = TEXT_ELEMENT ->
  i_key inst = node_key node ->
  i_dom inst = Some n ->
  exists rt',
    reconcile component_name components (S fuel) parentDom (Some inst) (Some node) path rt
    = Returned (Some (set_path path (set_node node inst))) rt' /\
    i_dom (set_path path (set_node node inst)) = Some n /\
    fresh (document rt') = fresh (document rt) /\
    (forall m, m <> n -> nodes (document rt') !! m = nodes (document rt) !! m) /\
    (is_Some (nodeValue_of (nodes (document rt)) n) ->
     nodeValue_of (nodes (document rt')) n = Some (text_of node)) /\
    parent_of (nodes (document rt')) n = parent_of (nodes (document rt)) n /\
    hooks rt' = hooks rt /\ arrays rt' = arrays rt /\ queue rt' = queue rt.
Proof.
  intros Hold Hnew Hkey Hdom.
  assert (i_dom (set_path path (set_node node inst)) = Some n) as Hdom'
    by (now destruct inst).
  cbn [reconcile]. unfold reconcile_body.
  rewrite Hold, Hnew, Hkey, !bool_decide_eq_true_2 by reflexivity. cbn [negb orb].
  rewrite Hdom'. unfold bind at 1. unfold bind at 1, get at 1.
  destruct (bool_decide (nodeValue_of (nodes (document rt)) n = Some (text_of node))) eqn:E.
  - exists rt. cbn. repeat split; try assumption; try reflexivity.
    intros _. now apply bool_decide_eq_true in E.
  - exists (with_nodes
              (alter (fun nd =>
                 match data nd with
                 | TextData _ => mkDomNode (TextData (text_of node)) (parentNode nd) (childNodes nd)
                 | ElementData _ _ => nd
                 end) n (nodes (document rt))) rt).
    split; [reflexivity |].
    cbn [document with_nodes with_document nodes fresh hooks arrays queue].
    repeat split; try assumption.
    + intros m Hm. now rewrite lookup_alter, decide_False by congruence.
    + intros [old Hold']. unfold nodeValue_of in *.
      rewrite lookup_alter, decide_True by reflexivity.
      destruct (nodes (document rt) !! n) as [[[s | tag el] pn cn] |]; cbn in *;
        congruence.
    + unfold parent_of. rewrite lookup_alter, decide_True by reflexivity.
      now destruct (nodes (document rt) !! n) as [[[s | tag el] pn cn] |].
Qed.

(** The text ["A"] under the container is updated to ["B"]. *)
Lemma text_update_in_place_witness :
  node_type (i_node Sample.text_instance) = TEXT_ELEMENT /\
  node_type (Scenario.text "B") = TEXT_ELEMENT /\
  i_key Sample.text_instance = node_key (Scenario.text "B") /\
  i_dom Sample.text_instance = Some 1 /\
  is_Some (nodeValue_of (nodes (document Sample.text_mounted)) 1) /\
  exists rt',
    reconcile Scenario.no_name Scenario.no_components 1 (Some 0) (Some Sample.text_instance)
      (Some (Scenario.text "B")) "" Sample.text_mounted
    = Returned (Some (set_path "" (set_node (Scenario.text "B") Sample.text_instance))) rt' /\
    nodeValue_of (nodes (document rt')) 1 = Some "B".
Proof.
  split; [reflexivity |]. split; [reflexivity |]. split; [reflexivity |].
  split; [reflexivity |].
  assert (is_Some (nodeValue_of (nodes (document Sample.text_mounted)) 1)) as Hsome
    by (vm_compute; eauto).
  split; [exact Hsome |].
  destruct (text_update_in_place Scenario.no_name Scenario.no_components 0 1 (Some 0)
              Sample.text_instance (Scenario.text "B") "" Sample.text_mounted
              eq_refl eq_refl eq_refl eq_refl)
    as (rt' & Hrun & _ & _ & _ & Htext & _).
  exists rt'. split; [exact Hrun | exact (Htext Hsome)].
Defined.


(** ** What a reconciliation leaves alone *)

Section Respects.

Context (R : Runtime -> Runtime -> Prop) `{!Frame R}.

Lemma respects_ret {A} (a : A) : respects R (ret a).
Proof. intros rt. apply frame_refl. Qed.

Lemma respects_throw {A} (e : Error) : respects R (@throw A e).
Proof. intros rt. apply frame_refl. Qed.

Lemma respects_get : respects R get.
Proof. intros rt. apply frame_refl. Qed.

Lemma respects_bind {A B} (m : M A) (f : A -> M B) :
  respects R m -> (forall a, respects R (f a)) -> respects R (bind m f).
Proof.
  intros Hm Hf rt. unfold bind. specialize (Hm rt).
  destruct (m rt) as [a rt1 | e rt1 |]; [| exact Hm | exact I].
  specialize (Hf a rt1). destruct (f a rt1); [| | exact I]; eapply frame_trans; eassumption.
Qed.

Lemma respects_modify (f : Runtime -> Runtime) :
  (forall rt, R rt (f rt)) -> respects R (modify f).
Proof. intros H rt. apply H. Qed.

Lemma respects_when (b : bool) (m : M unit) : respects R m -> respects R (when b m).
Proof. intros H. destruct b; [exact H | apply respects_ret]. Qed.

Lemma respects_forEach {A} (f : A -> M unit) (l : list A) :
  (forall x, respects R (f x)) -> respects R (forEach f l).
Proof.
  intros H. induction l as [| x l IH]; cbn; [apply respects_ret |].
  apply respects_bind; auto.
Qed.

Lemma respects_try_finally {A} (body : M A) (fin : M unit) :
  respects R body -> respects R fin -> respects R (try_finally body fin).
Proof.
  intros Hb Hf rt. unfold try_finally. specialize (Hb rt).
  destruct (body rt) as [a rt1 | e rt1 |]; [| | exact I];
    specialize (Hf rt1); unfold bind;
    (destruct (fin rt1) as [[] rt2 | e' rt2 |]; [| | exact I]);
    cbn; eapply frame_trans; eassumption.
Qed.

Context `{!AnyDocument R}.

Lemma respects_modify_nodes f : respects R (modify_nodes f).
Proof. apply respects_modify. intros rt. apply frame_document. Qed.

Lemma respects_alloc_node d : respects R (alloc_node d).
Proof. intros rt. apply frame_document. Qed.

Lemma respects_appendChild p n : respects R (appendChild p n).
Proof. destruct p; [apply respects_modify_nodes | apply respects_throw]. Qed.

Lemma respects_insertBefore p n a : respects R (insertBefore p n a).
Proof.
  unfold insertBefore. destruct p as [p |]; [| apply respects_throw].
  destruct a as [r |]; [| apply respects_appendChild].
  apply respects_bind; [apply respects_get | intros rt].
  destruct (negb _); [apply respects_throw |].
  destruct (Nat.eqb n r); [apply respects_ret | apply respects_modify_nodes].
Qed.

Lemma respects_removeChild p n : respects R (removeChild p n).
Proof.
  unfold removeChild. destruct p as [p |]; [| apply respects_throw].
  apply respects_bind; [apply respects_get | intros rt].
  destruct (bool_decide _); [apply respects_modify_nodes | apply respects_throw].
Qed.

Lemma respects_insert_following p n l : respects R (insert_following p n l).
Proof.
  revert n. induction l as [| m l IH]; intros n; cbn; [apply respects_ret |].
  apply respects_bind; [apply respects_get | intros rt].
  apply respects_bind; [apply respects_insertBefore | intros _; apply IH].
Qed.

Lemma respects_insertInstance p i a : respects R (insertInstance p i a).
Proof.
  unfold insertInstance. destruct i as [i |]; [| apply respects_ret].
  destruct (getDomNodes (Some i)) as [| first rest]; [apply respects_ret |].
  destruct a as [a |].
  - apply respects_bind; [apply respects_insertBefore | intros _].
    apply respects_insert_following.
  - apply respects_forEach. intros x. apply respects_appendChild.
Qed.

Lemma respects_removeInstance p i : respects R (removeInstance p i).
Proof.
  unfold removeInstance. destruct i as [i |]; [| apply respects_ret].
  apply respects_forEach. intros n.
  apply respects_bind; [apply respects_get | intros rt].
  apply respects_when, respects_removeChild.
Qed.

Lemma respects_modify_element n f : respects R (modify_element n f).
Proof. apply respects_modify_nodes. Qed.

Lemma respects_updateDomProps d prevProps nextProps :
  respects R (updateDomProps d prevProps nextProps).
Proof.
  unfold updateDomProps, setDomProps.
  apply respects_bind; [| intros; apply respects_modify_element].
  apply respects_forEach. intros [key v]. unfold removeDomProp.
  repeat match goal with
         | |- respects R (if ?b then _ else _) => destruct b
         | |- respects R (match ?x with _ => _ end) => destruct x
         end;
    first [apply respects_ret | apply respects_throw | apply respects_modify_element
          | apply respects_when, respects_modify_element].
Qed.

Lemma respects_currentPath : respects R currentPath.
Proof.
  unfold currentPath. apply respects_bind; [apply respects_get | intros rt].
  destruct (last _); [apply respects_ret | apply respects_throw].
Qed.

Lemma respects_currentCursor : respects R currentCursor.
Proof.
  unfold currentCursor. apply respects_bind; [apply respects_currentPath | intros path].
  apply respects_bind; [apply respects_get | intros rt; apply respects_ret].
Qed.

Lemma respects_new_array l : respects R (new_array l).
Proof.
  intros rt. cbn. eapply frame_trans; [apply frame_arrays | apply frame_next_array].
Qed.

Lemma respects_currentHooks : respects R currentHooks.
Proof.
  unfold currentHooks. apply respects_bind; [apply respects_currentPath | intros path].
  apply respects_bind; [apply respects_get | intros rt].
  destruct (state _ !! _); [apply respects_ret | apply respects_new_array].
Qed.

Lemma respects_read_array a : respects R (read_array a).
Proof. intros rt. apply frame_refl. Qed.

Lemma respects_write_array a l : respects R (write_array a l).
Proof. apply respects_modify. intros rt. apply frame_arrays. Qed.

Lemma respects_set_cursor p c : respects R (set_cursor p c).
Proof. apply respects_modify. intros rt. apply frame_cursor. Qed.

Lemma respects_push_queue i : respects R (push_queue i).
Proof. apply respects_modify. intros rt. apply frame_push. Qed.

Lemma respects_useState initialValue : respects R (useState initialValue).
Proof.
  unfold useState.
  apply respects_bind; [apply respects_currentPath | intros path].
  apply respects_bind; [apply respects_currentCursor | intros c].
  apply respects_bind; [apply respects_currentHooks | intros a].
  apply respects_bind; [apply respects_read_array | intros arr].
  apply respects_bind; [apply respects_when, respects_write_array | intros _].
  apply respects_bind; [apply respects_read_array | intros arr'].
  apply respects_bind; [apply respects_set_cursor | intros _; apply respects_ret].
Qed.

Lemma respects_useEffect eff d : respects R (useEffect eff d).
Proof.
  unfold useEffect.
  apply respects_bind; [apply respects_currentPath | intros path].
  apply respects_bind; [apply respects_currentCursor | intros c].
  apply respects_bind; [apply respects_currentHooks | intros a].
  apply respects_bind; [apply respects_read_array | intros arr].
  apply respects_bind; [| intros _; apply respects_set_cursor].
  destruct (shouldRun _ _).
  - apply respects_bind.
    { destruct (prevHook_of arr c) as [h |]; [| apply respects_ret].
      destruct (cleanup h); [apply respects_push_queue | apply respects_ret]. }
    intros _. apply respects_bind; [| intros _; apply respects_push_queue].
    destruct (_ <=? _)%nat; apply respects_write_array.
  - destruct (prevHook_of arr c); [| apply respects_ret].
    apply respects_when, respects_write_array.
Qed.

Lemma respects_run_component p : respects R (run_component p).
Proof.
  induction p as [child | message | initialValue k IH | eff d k IH]; cbn.
  - apply respects_ret.
  - apply respects_throw.
  - apply respects_bind; [apply respects_useState | intros r; apply IH].
  - apply respects_bind; [apply respects_useEffect | intros _; apply IH].
Qed.

Lemma respects_push_path p : respects R (push_path p).
Proof. apply respects_modify. intros rt. apply frame_stack. Qed.

Lemma respects_pop_path : respects R pop_path.
Proof. apply respects_modify. intros rt. apply frame_stack. Qed.

Lemma respects_visit p : respects R (visit p).
Proof. apply respects_modify. intros rt. apply frame_visit. Qed.

Lemma respects_place_mounted p prevChild childInstance nextSibling :
  respects R (place_mounted p prevChild childInstance nextSibling).
Proof.
  unfold place_mounted.
  destruct childInstance as [ci |]; [| apply respects_ret].
  destruct prevChild; [apply respects_ret |].
  destruct nextSibling; [| apply respects_ret].
  destruct (getFirstDom (Some ci)); [| apply respects_ret].
  apply respects_bind; [apply respects_get | intros rt].
  apply respects_when, respects_insertInstance.
Qed.

Section Level.

Variable component_name : nat -> string.
Variable components : nat -> Props -> Prog.
Variable rec : option nat -> option Instance -> option VNode -> string -> M (option Instance).
Hypothesis rec_respects : forall p i n path, respects R (rec p i n path).

Lemma respects_mount_children p path children index rest :
  respects R (mount_children component_name rec p path children index rest).
Proof.
  revert index. induction rest as [| child rest IH]; intros index; cbn.
  - apply respects_ret.
  - apply respects_bind; [apply rec_respects | intros i].
    apply respects_bind; [apply IH | intros others; apply respects_ret].
Qed.

Lemma respects_mountComponent p node c path :
  respects R (mountComponent components rec p node c path).
Proof.
  unfold mountComponent.
  apply respects_bind; [apply respects_push_path | intros _].
  apply respects_bind; [apply respects_visit | intros _].
  apply respects_bind; [apply respects_get | intros rt].
  apply respects_bind.
  { destruct (state _ !! _); [apply respects_ret |].
    apply respects_bind; [apply respects_new_array | intros a].
    apply respects_modify. intros rt'. apply frame_state. }
  intros _. apply respects_bind; [apply respects_get | intros rt1].
  apply respects_bind.
  { destruct (cursor _ !! _); [apply respects_ret | apply respects_set_cursor]. }
  intros _. apply respects_try_finally; [| apply respects_pop_path].
  apply respects_bind; [apply respects_run_component | intros childNode].
  destruct childNode; [| apply respects_ret].
  apply respects_bind; [apply rec_respects | intros; apply respects_ret].
Qed.

Lemma respects_children_read (node : VNode) : respects R (children_read node).
Proof.
  unfold children_read.
  destruct (children_readable node); [apply respects_ret | apply respects_throw].
Qed.

Lemma respects_mount p node path :
  respects R (mount component_name components rec p node path).
Proof.
  unfold mount. destruct (node_type node) as [| tag | | c | d].
  - apply respects_bind; [apply respects_alloc_node | intros textNode].
    apply respects_bind; [apply respects_insertInstance | intros _; apply respects_ret].
  - apply respects_bind; [apply respects_alloc_node | intros d].
    apply respects_bind; [apply respects_modify_element | intros _].
    apply respects_bind; [apply respects_children_read | intros children].
    apply respects_bind; [apply respects_mount_children | intros cs].
    apply respects_bind; [apply respects_insertInstance | intros _; apply respects_ret].
  - apply respects_bind; [apply respects_children_read | intros children].
    apply respects_bind; [apply respects_mount_children | intros cs; apply respects_ret].
  - apply respects_mountComponent.
  - apply respects_ret.
Qed.

Lemma respects_reconcileChild p path prevChildren nextChildren i :
  respects R (reconcileChild component_name rec p path prevChildren nextChildren i).
Proof.
  unfold reconcileChild. destruct (nextChildren !! i) as [nextChild |].
  - apply respects_bind; [apply rec_respects | intros childInstance].
    apply respects_bind; [apply respects_place_mounted | intros _; apply respects_ret].
  - apply respects_bind; [| intros _; apply respects_ret].
    destruct (mjoin (prevChildren !! i)); [apply respects_removeInstance | apply respects_ret].
Qed.

Lemma respects_reconcileChildren p instance node path :
  respects R (reconcileChildren component_name rec p instance node path).
Proof.
  unfold reconcileChildren.
  apply respects_bind; [apply respects_children_read | intros nextChildren].
  apply respects_bind; [| intros; apply respects_ret].
  generalize (Nat.max (length (i_children instance)) (length nextChildren)).
  generalize (@nil (option Instance)). generalize 0.
  intros i acc remaining. revert i acc.
  induction remaining as [| remaining IH]; intros i acc; cbn.
  - apply respects_ret.
  - apply respects_bind; [apply respects_reconcileChild | intros c; apply IH].
Qed.

Lemma respects_updateComponent p instance node c path :
  respects R (updateComponent components rec p instance node c path).
Proof.
  unfold updateComponent.
  apply respects_bind; [apply respects_push_path | intros _].
  apply respects_bind; [apply respects_visit | intros _].
  apply respects_bind; [apply respects_set_cursor | intros _].
  apply respects_try_finally; [| apply respects_pop_path].
  apply respects_bind; [apply respects_run_component | intros childNode].
  apply respects_bind.
  { destruct childNode; [apply rec_respects | apply respects_ret]. }
  intros nextChild.
  apply respects_bind; [| intros _; apply respects_ret].
  destruct nextChild; [apply respects_ret |].
  destruct (mjoin _); [apply respects_removeInstance | apply respects_ret].
Qed.

Lemma respects_reconcile_body p instance node path :
  respects R (reconcile_body component_name components rec p instance node path).
Proof.
  unfold reconcile_body. destruct node as [node |].
  2:{ apply respects_bind; [| intros _; apply respects_ret].
      destruct instance; [apply respects_removeInstance | apply respects_ret]. }
  destruct instance as [inst |]; [| apply respects_mount].
  destruct (negb (bool_decide (node_type (i_node inst) = node_type node))
            || negb (bool_decide (i_key inst = node_key node))).
  { apply respects_bind; [apply respects_removeInstance | intros _; apply respects_mount]. }
  destruct (node_type node) as [| tag | | c | d].
  - apply respects_bind; [| intros _; apply respects_ret].
    destruct (i_dom _); [| apply respects_ret].
    apply respects_bind; [apply respects_get | intros rt].
    apply respects_when, respects_modify_nodes.
  - apply respects_bind.
    { destruct (i_dom _); [apply respects_updateDomProps | apply respects_ret]. }
    intros _.
    apply respects_bind; [apply respects_reconcileChildren | intros; apply respects_ret].
  - apply respects_bind; [apply respects_reconcileChildren | intros; apply respects_ret].
  - apply respects_updateComponent.
  - apply respects_ret.
Qed.

End Level.

Lemma respects_reconcile component_name components fuel p instance node path :
  respects R (reconcile component_name components fuel p instance node path).
Proof.
  revert p instance node path. induction fuel as [| fuel IH]; intros p instance node path.
  - intros rt. exact I.
  - cbn [reconcile]. apply respects_reconcile_body. exact IH.
Qed.

End Respects.

#[local] Instance same_schedule_frame : Frame same_schedule.
Proof.
  split; unfold same_schedule; try (intros; repeat split; reflexivity).
  intros a b c (H1 & H2 & H3) (H4 & H5 & H6). repeat split; congruence.
Qed.

#[local] Instance same_schedule_document : AnyDocument same_schedule.
Proof. split. intros rt d. repeat split; reflexivity. Qed.

#[local] Instance queue_extends_frame : Frame queue_extends.
Proof.
  split; unfold queue_extends;
    try (intros; exists []; cbn; now rewrite app_nil_r).
  - intros a b c [m1 H1] [m2 H2]. exists (m1 ++ m2). now rewrite H2, H1, app_assoc.
  - intros rt item. now exists [item].
Qed.

#[local] Instance queue_extends_document : AnyDocument queue_extends.
Proof. split. intros rt d. exists []. cbn. now rewrite app_nil_r. Qed.

#[local] Instance visited_grows_frame : Frame visited_grows.
Proof.
  split; unfold visited_grows; try (intros; cbn; set_solver).
Qed.

#[local] Instance visited_grows_document : AnyDocument visited_grows.
Proof. split. intros rt d. unfold visited_grows. cbn. set_solver. Qed.

(** X5: while a tree is reconciled no render is scheduled, no microtask is
    added, no effect body or cleanup runs, and the container and the root
    node of the root binding are not changed, whether the call returns or a
    component throws.  (Nothing is said of the committed instance: the
    source updates its objects in place as it goes.) *)
Theorem reconcile_runs_no_callback
    (component_name : nat -> string) (components : nat -> Props -> Prog)
    (fuel : nat) (parentDom : option nat) (instance : option Instance)
    (node : option VNode) (path : string) (rt : Runtime) :
  match reconcile component_name components fuel parentDom instance node path rt with
  | Returned _ rt' | Thrown _ rt' =>
      scheduler rt' = scheduler rt /\ log rt' = log rt /\
      container (root rt') = container (root rt) /\
      root_node (root rt') = root_node (root rt)
  | OutOfFuel => True
  end.
Proof.
  pose proof (respects_reconcile same_schedule component_name components fuel parentDom
                instance node path rt) as H.
  destruct (reconcile _ _ _ _ _ _ _ rt) as [i rt' | e rt' |]; [| | exact I];
    destruct H as (Hs & Hl & Hr); rewrite Hr; repeat split; assumption.
Qed.

(** X6: a reconciliation only appends to the effect queue: the entries that were
    queued before it are still there, in front and in the same order. *)
Theorem reconcile_only_appends_to_queue
    (component_name : nat -> string) (components : nat -> Props -> Prog)
    (fuel : nat) (parentDom : option nat) (instance : option Instance)
    (node : option VNode) (path : string) (rt : Runtime) :
  match reconcile component_name components fuel parentDom instance node path rt with
  | Returned _ rt' | Thrown _ rt' => exists more, queue rt' = queue rt ++ more
  | OutOfFuel => True
  end.
Proof.
  exact (respects_reconcile queue_extends component_name components fuel parentDom instance
           node path rt).
Qed.


(** ** A component that is entered is visited *)

Lemma entered_path_is_visited {A} (path : string) (k : M A) (rt : Runtime) :
  respects visited_grows k ->
  match (push_path path ;; visit path ;; k) rt with
  | Returned _ rt' | Thrown _ rt' => path ∈ visited (hooks rt')
  | OutOfFuel => True
  end.
Proof.
  intros Hk. unfold bind at 1, push_path at 1, modify at 1.
  unfold bind at 1, visit at 1, modify at 1.
  match goal with
  | |- match k ?r with _ => _ end => specialize (Hk r); revert Hk; generalize (k r)
  end.
  intros [a rt' | e rt' |] Hk; [| | exact I];
    unfold visited_grows in Hk; cbn in Hk; set_solver.
Qed.

Section Entered.

Variable component_name : nat -> string.
Variable components : nat -> Props -> Prog.

Lemma mountComponent_visits fuel p node c path rt :
  match mountComponent components (reconcile component_name components fuel) p node c path rt
  with
  | Returned _ rt' | Thrown _ rt' => path ∈ visited (hooks rt')
  | OutOfFuel => True
  end.
Proof.
  unfold mountComponent. apply entered_path_is_visited.
  apply (respects_bind visited_grows); [apply (respects_get visited_grows) | intros r].
  apply (respects_bind visited_grows).
  { destruct (state _ !! _); [apply (respects_ret visited_grows) |].
    apply (respects_bind visited_grows); [apply (respects_new_array visited_grows) | intros a].
    apply (respects_modify visited_grows). intros r'. apply frame_state. }
  intros _. apply (respects_bind visited_grows); [apply (respects_get visited_grows) | intros r1].
  apply (respects_bind visited_grows).
  { destruct (cursor _ !! _); [apply (respects_ret visited_grows) | apply (respects_set_cursor visited_grows)]. }
  intros _. apply (respects_try_finally visited_grows); [| apply (respects_pop_path visited_grows)].
  apply (respects_bind visited_grows); [apply (respects_run_component visited_grows) | intros childNode].
  destruct childNode; [| apply (respects_ret visited_grows)].
  apply (respects_bind visited_grows); [apply (respects_reconcile visited_grows) | intros; apply (respects_ret visited_grows)].
Qed.

Lemma updateComponent_visits fuel p inst node c path rt :
  match updateComponent components (reconcile component_name components fuel) p inst node c
          path rt
  with
  | Returned _ rt' | Thrown _ rt' => path ∈ visited (hooks rt')
  | OutOfFuel => True
  end.
Proof.
  unfold updateComponent. apply entered_path_is_visited.
  apply (respects_bind visited_grows); [apply (respects_set_cursor visited_grows) | intros _].
  apply (respects_try_finally visited_grows); [| apply (respects_pop_path visited_grows)].
  apply (respects_bind visited_grows); [apply (respects_run_component visited_grows) | intros childNode].
  apply (respects_bind visited_grows).
  { destruct childNode; [apply (respects_reconcile visited_grows) | apply (respects_ret visited_grows)]. }
  intros nextChild.
  apply (respects_bind visited_grows); [| intros _; apply (respects_ret visited_grows)].
  destruct nextChild; [apply (respects_ret visited_grows) |].
  destruct (mjoin _); [apply (respects_removeInstance visited_grows) | apply (respects_ret visited_grows)].
Qed.

(** X7: reconciling a component node under a host parent, as a mount, as a
    remount after a change of type or key, or as an update, marks its path
    visited, even when the component throws; and the collection that follows
    a pass keeps the slot list and the cursor of that path. *)
Theorem entered_component_survives_collection
    (fuel p c : nat) (instance : option Instance) (node : VNode) (path : string)
    (rt : Runtime) :
  node_type node = ComponentFn c ->
  match reconcile component_name components fuel (Some p) instance (Some node) path rt with
  | Returned _ rt' | Thrown _ rt' =>
      path ∈ visited (hooks rt') /\
      exists rt'',
        cleanupUnusedHooks rt' = Returned tt rt'' /\
        state (hooks rt'') !! path = state (hooks rt') !! path /\
        cursor (hooks rt'') !! path = cursor (hooks rt') !! path
  | OutOfFuel => True
  end.
Proof.
  intros Htype.
  assert (match reconcile component_name components fuel (Some p) instance (Some node) path rt
          with
          | Returned _ rt' | Thrown _ rt' => path ∈ visited (hooks rt')
          | OutOfFuel => True
          end) as Hvisited.
  { destruct fuel as [| fuel]; [exact I |].
    cbn [reconcile]. unfold reconcile_body.
    destruct instance as [inst |].
    - destruct (negb (bool_decide (node_type (i_node inst) = node_type node))
                || negb (bool_decide (i_key inst = node_key node))).
      + destruct (removeInstance_spec p (Some inst) rt) as (ns' & Hrm & _).
        rewrite (bind_returned _ _ _ _ _ Hrm).
        unfold mount. rewrite Htype. apply mountComponent_visits.
      + rewrite Htype. apply updateComponent_visits.
    - unfold mount. rewrite Htype. apply mountComponent_visits. }
  destruct (reconcile _ _ _ _ _ _ _ _) as [i rt' | e rt' |]; [| | exact I];
    (split; [exact Hvisited |]);
    destruct (cleanupUnusedHooks_spec rt') as (rt'' & Hrun & Hstate & Hcursor & _);
    exists rt''; (split; [exact Hrun |]);
    rewrite Hstate, Hcursor, decide_True by exact Hvisited;
    rewrite decide_True by (left; exact Hvisited); split; reflexivity.
Qed.

End Entered.

(** The counter component, mounted. *)
Lemma entered_component_survives_collection_witness :
  node_type (Scenario.use 0) = ComponentFn 0 /\
  match reconcile Scenario.counter_name Scenario.counter 3 (Some 0) None (Some (Scenario.use 0))
          "" Scenario.initial with
  | Returned _ rt' | Thrown _ rt' =>
      "" ∈ visited (hooks rt') /\
      exists rt'',
        cleanupUnusedHooks rt' = Returned tt rt'' /\
        state (hooks rt'') !! "" = state (hooks rt') !! "" /\
        cursor (hooks rt'') !! "" = cursor (hooks rt') !! ""
  | OutOfFuel => True
  end.
Proof.
  split; [reflexivity |].
  apply (entered_component_survives_collection Scenario.counter_name Scenario.counter 3 0 0
           None (Scenario.use 0) "" Scenario.initial).
  reflexivity.
Defined.


(** ** State across renders *)

Lemma currentCursor_top rt path :
  last (componentStack (hooks rt)) = Some path ->
  currentCursor rt = Returned (default 0 (cursor (hooks rt) !! path)) rt.
Proof.
  intros H. unfold currentCursor.
  now rewrite (bind_returned _ _ _ _ _ (currentPath_top rt path H)).
Qed.

Lemma currentHooks_stored rt path a :
  last (componentStack (hooks rt)) = Some path ->
  state (hooks rt) !! path = Some a ->
  currentHooks rt = Returned a rt.
Proof.
  intros H Ha. rewrite (currentHooks_spec rt path H). unfold resolve_hooks. now rewrite Ha.
Qed.

(** A slot that holds a state value is read as it is; the initial value is
    not looked at. *)
Lemma useState_stored rt path a c arr v initialValue :
  last (componentStack (hooks rt)) = Some path ->
  state (hooks rt) !! path = Some a ->
  cursor (hooks rt) !! path = Some c ->
  arrays rt !! a = Some arr ->
  arr !! c = Some (StateHook v) ->
  useState initialValue rt
  = Returned (v, mkSetter a c v)
      (with_hooks (with_cursor (<[path := c + 1]> (cursor (hooks rt))) (hooks rt)) rt).
Proof.
  intros Hpath Hstate Hcursor Harr Hslot. unfold useState.
  rewrite (bind_returned _ _ _ _ _ (currentPath_top rt path Hpath)).
  rewrite (bind_returned _ _ _ _ _ (currentCursor_top rt path Hpath)).
  rewrite (bind_returned _ _ _ _ _ (currentHooks_stored rt path a Hpath Hstate)).
  rewrite Hcursor. cbn [from_option id].
  unfold bind at 1, read_array at 1. rewrite Harr. cbn [from_option id].
  assert ((length arr <=? c)%nat = false) as ->.
  { apply Nat.leb_gt. now apply lookup_lt_Some in Hslot. }
  cbn [when]. unfold bind at 1, ret at 1.
  unfold bind at 1, read_array at 1. rewrite Harr. cbn [from_option id].
  rewrite Hslot. reflexivity.
Qed.

(** X8: the value that a setter wrote is what the next call of [useState] for
    that slot returns, whatever initial value it is given: in a later
    render in which the slot array of the setter is the one stored for the
    component and the cursor is on the slot of the setter. *)
Theorem useState_returns_what_setState_wrote
    (s : Setter) (nextValue : NextValue) (initialValue : InitialValue) (path : string)
    (rt rt1 rt2 : Runtime) :
  setState s nextValue rt = Returned tt rt1 ->
  Object_is (st_state s) (newValue_of s nextValue) = false ->
  arrays rt2 !! st_hooks s = arrays rt1 !! st_hooks s ->
  last (componentStack (hooks rt2)) = Some path ->
  state (hooks rt2) !! path = Some (st_hooks s) ->
  cursor (hooks rt2) !! path = Some (st_cursor s) ->
  exists rt3,
    useState initialValue rt2
    = Returned (newValue_of s nextValue,
                mkSetter (st_hooks s) (st_cursor s) (newValue_of s nextValue)) rt3.
Proof.
  intros Hset Hnew Harrays Hpath Hstate Hcursor.
  assert (exists arr,
            arrays rt1 !! st_hooks s = Some arr /\
            arr !! st_cursor s = Some (StateHook (newValue_of s nextValue)))
    as (arr & Harr & Hslot).
  { unfold setState in Hset. rewrite Hnew in Hset.
    unfold bind at 1, read_array at 1 in Hset.
    unfold bind at 1, write_array at 1, modify at 1 in Hset.
    rewrite enqueueRender_spec in Hset. injection Hset as <-.
    eexists. split; [| apply array_set_lookup].
    destruct (render_pending _); cbn; apply lookup_insert_eq. }
  eexists.
  apply (useState_stored rt2 path (st_hooks s) (st_cursor s) arr); try assumption.
  now rewrite Harrays.
Qed.

(** The counter is mounted, its setter is called with 1, and the component
    is entered again. *)
Lemma useState_returns_what_setState_wrote_witness :
  setState (Scenario.root_setter 0) (NextVal (VNum 1)) Sample.counter_mounted
  = Returned tt Sample.counter_set /\
  exists rt3,
    useState (InitVal (VNum 0)) (Sample.entered Sample.counter_set)
    = Returned (VNum 1, mkSetter 0 0 (VNum 1)) rt3.
Proof.
  assert (setState (Scenario.root_setter 0) (NextVal (VNum 1)) Sample.counter_mounted
          = Returned tt Sample.counter_set) as Hset by (vm_compute; reflexivity).
  split; [exact Hset |].
  apply (useState_returns_what_setState_wrote (Scenario.root_setter 0) (NextVal (VNum 1))
           (InitVal (VNum 0)) "" Sample.counter_mounted Sample.counter_set
           (Sample.entered Sample.counter_set) Hset);
    vm_compute; reflexivity.
Defined.

(** X9: inside a component whose path has a stored slot list (as
    [mountComponent] leaves it) and whose cursor stands at the end of that
    list, a call of [useState] appends the initial value to the list and
    returns it; a later call inside that component, made while the path
    still has that list and with the cursor back on that slot, returns that
    same value and does not look at the initial value it is given.  (Both
    conditions are needed: for a path without a stored list, which
    [updateComponent] can leave, or a cursor beyond the list, see
    [stale_cursor_survives_collection].) *)
Theorem useState_initial_value_persists
    (rt : Runtime) (path : string) (a : nat) (arr : list Hook)
    (initialValue : InitialValue) :
  last (componentStack (hooks rt)) = Some path ->
  state (hooks rt) !! path = Some a ->
  arrays rt !! a = Some arr ->
  default 0 (cursor (hooks rt) !! path) = length arr ->
  let c := length arr in
  let v := match initialValue with InitFn f => f tt | InitVal v => v end in
  exists rt1,
    useState initialValue rt = Returned (v, mkSetter a c v) rt1 /\
    arrays rt1 !! a = Some (arr ++ [StateHook v]) /\
    cursor (hooks rt1) !! path = Some (c + 1) /\
    forall (other : InitialValue) (rt2 : Runtime),
      arrays rt2 !! a = arrays rt1 !! a ->
      last (componentStack (hooks rt2)) = Some path ->
      state (hooks rt2) !! path = Some a ->
      cursor (hooks rt2) !! path = Some c ->
      exists rt3, useState other rt2 = Returned (v, mkSetter a c v) rt3.
Proof.
  intros Hpath Hstate Harr Hcursor c v.
  assert ((arr ++ [StateHook v]) !! c = Some (StateHook v)) as Hslot.
  { rewrite lookup_app_r by (subst c; lia). subst c. now rewrite Nat.sub_diag. }
  eexists. split; [| split; [| split]].
  - unfold useState.
    rewrite (bind_returned _ _ _ _ _ (currentPath_top rt path Hpath)).
    rewrite (bind_returned _ _ _ _ _ (currentCursor_top rt path Hpath)).
    rewrite (bind_returned _ _ _ _ _ (currentHooks_stored rt path a Hpath Hstate)).
    rewrite Hcursor.
    unfold bind at 1, read_array at 1. rewrite Harr. cbn [from_option id].
    rewrite Nat.leb_refl. cbn [when].
    unfold bind at 1, write_array at 1, modify at 1.
    unfold bind at 1, read_array at 1. cbn [arrays with_arrays].
    rewrite lookup_insert_eq. cbn [from_option id]. fold v. fold c. rewrite Hslot.
    reflexivity.
  - cbn. apply lookup_insert_eq.
  - cbn. apply lookup_insert_eq.
  - intros other rt2 Harrays Hpath2 Hstate2 Hcursor2. eexists.
    apply (useState_stored rt2 path a c (arr ++ [StateHook v])); try assumption.
    rewrite Harrays. cbn. apply lookup_insert_eq.
Qed.

(** The root component is being mounted and calls [useState] with 5. *)
Lemma useState_initial_value_persists_witness :
  exists rt1,
    useState (InitVal (VNum 5)) Scenario.mounting_root
    = Returned (VNum 5, mkSetter 0 0 (VNum 5)) rt1 /\
    arrays rt1 !! 0 = Some [StateHook (VNum 5)].
Proof.
  destruct (useState_initial_value_persists Scenario.mounting_root "" 0 [] (InitVal (VNum 5))
              eq_refl eq_refl eq_refl eq_refl) as (rt1 & Hrun & Harr & _).
  exists rt1. split; [exact Hrun | exact Harr].
Defined.


(** ** A render pass *)

Lemma flushEffects_spec rt :
  flushEffects rt =
    Returned tt
      (if flush_pending (scheduler rt) then rt
       else with_scheduler
              (mkScheduler (microtasks (scheduler rt) ++ [FlushTask])
                 (render_pending (scheduler rt)) true) rt).
Proof.
  unfold flushEffects, bind, get. destruct (flush_pending (scheduler rt)); reflexivity.
Qed.

(** X10: a render pass that returns leaves the component stack and the visited
    set empty and a flush of the effect queue pending: the flush is deferred
    once if none was pending and not again otherwise.  No effect has run and
    no render was scheduled.  When a component throws, the pass stops there:
    the stack is empty again, nothing is deferred, and the container and the
    root node of the root binding are as before.  (Nothing is said of the
    committed instance after a throw: the source has updated its objects in
    place up to the component that threw.) *)
Theorem render_pass_outcome
    (component_name : nat -> string) (components : nat -> Props -> Prog)
    (fuel : nat) (rt : Runtime) :
  match render component_name components fuel rt with
  | Returned _ rt' =>
      componentStack (hooks rt') = [] /\
      visited (hooks rt') = ∅ /\
      flush_pending (scheduler rt') = true /\
      microtasks (scheduler rt')
      = (if flush_pending (scheduler rt) then microtasks (scheduler rt)
         else microtasks (scheduler rt) ++ [FlushTask]) /\
      render_pending (scheduler rt') = render_pending (scheduler rt) /\
      log rt' = log rt /\
      container (root rt') = container (root rt) /\
      root_node (root rt') = root_node (root rt)
  | Thrown _ rt' =>
      componentStack (hooks rt') = [] /\
      scheduler rt' = scheduler rt /\ log rt' = log rt /\
      container (root rt') = container (root rt) /\
      root_node (root rt') = root_node (root rt)
  | OutOfFuel => True
  end.
Proof.
  unfold render. unfold bind at 1, modify at 1. unfold bind at 1, get at 1.
  set (rt0 := with_hooks (with_componentStack [] (with_visited ∅ (hooks rt))) rt).
  change (root rt0) with (root rt).
  set (pass :=
         match container (root rt), root_node (root rt) with
         | Some c, Some node =>
             instance <-
               reconcile component_name components fuel (Some c) (root_instance (root rt))
                 (Some node) "" ;;
             modify (fun r => with_root (mkRoot (container (root r)) (root_node (root r)) instance) r)
         | _, _ => ret tt
         end).
  assert (match pass rt0 with
          | Returned _ rt1 =>
              componentStack (hooks rt1) = [] /\ scheduler rt1 = scheduler rt /\
              log rt1 = log rt /\ container (root rt1) = container (root rt) /\
              root_node (root rt1) = root_node (root rt)
          | Thrown _ rt1 =>
              componentStack (hooks rt1) = [] /\ scheduler rt1 = scheduler rt /\
              log rt1 = log rt /\ container (root rt1) = container (root rt) /\
              root_node (root rt1) = root_node (root rt)
          | OutOfFuel => True
          end) as Hpass.
  { subst pass. destruct (container (root rt)) as [c |] eqn:Hc;
      [| unfold ret; cbn; rewrite Hc; repeat split; reflexivity].
    destruct (root_node (root rt)) as [node |] eqn:Hn;
      [| unfold ret; cbn; rewrite Hc, Hn; repeat split; reflexivity].
    unfold bind.
    pose proof (keeps_stack_reconcile component_name components fuel (Some c)
                  (root_instance (root rt)) (Some node) "" rt0) as Hstack.
    pose proof (respects_reconcile same_schedule component_name components fuel (Some c)
                  (root_instance (root rt)) (Some node) "" rt0) as Hsame.
    destruct (reconcile _ _ _ _ _ _ _ rt0) as [i rt1 | e rt1 |]; [| | exact I];
      destruct Hsame as (Hs & Hl & Hr); cbn in *; repeat split; try congruence;
      now rewrite Hr. }
  unfold bind at 1.
  destruct (pass rt0) as [[] rt1 | e rt1 |]; [| exact Hpass | exact I].
  destruct Hpass as (Hstack & Hsched & Hlog & Hc & Hn).
  destruct (cleanupUnusedHooks_spec rt1) as (rt2 & Hgc & _ & _ & Hvisited & Hstack2).
  rewrite (bind_returned _ _ _ _ _ Hgc). rewrite flushEffects_spec.
  assert (scheduler rt2 = scheduler rt /\ log rt2 = log rt /\ root rt2 = root rt1)
    as (Hsched2 & Hlog2 & Hroot2).
  { unfold cleanupUnusedHooks, modify in Hgc. injection Hgc as <-. cbn. auto. }
  rewrite Hsched2.
  destruct (flush_pending (scheduler rt)) eqn:Hpending; cbn;
    rewrite ?Hsched2, ?Hpending, ?Hroot2; repeat split; congruence.
Qed.


(** ** Identity paths *)

Lemma append_cons (c : Ascii.ascii) (s t : string) :
  (String c s ++ t)%string = String c (s ++ t)%string.
Proof. reflexivity. Qed.

Lemma append_nil (t : string) : ("" ++ t)%string = t.
Proof. reflexivity. Qed.

Lemma append_inv_head (p a b : string) : (p ++ a = p ++ b)%string -> a = b.
Proof. apply (inj (String.append p)). Qed.

Lemma append_assoc_string (a b c : string) : ((a ++ b) ++ c = a ++ (b ++ c))%string.
Proof.
  induction a as [| x a IH]; [reflexivity |].
  rewrite !append_cons. f_equal. exact IH.
Qed.

Lemma all_digits_pretty_N_go (x : N) (s : string) :
  all_digits s = true -> all_digits (pretty_N_go x s) = true.
Proof.
  revert s. induction (N.lt_wf_0 x) as [x _ IH]. intros s Hs.
  destruct (decide (x = 0)%N) as [-> | Hx]; [now rewrite pretty_N_go_0 |].
  rewrite pretty_N_go_step by lia. apply IH.
  - apply N.div_lt; lia.
  - cbn. rewrite Hs, andb_true_r. unfold pretty_N_char.
    repeat case_match; reflexivity.
Qed.

Lemma all_digits_pretty_nat (n : nat) : all_digits (pretty n) = true.
Proof.
  unfold pretty, pretty_nat, pretty, pretty_N. case_decide; [reflexivity |].
  now apply all_digits_pretty_N_go.
Qed.

(** Two runs of digits that are each followed by a dot and agree with what
    follows are the same run. *)
Lemma digits_before_dot (a b x y : string) :
  all_digits a = true -> all_digits b = true ->
  (a ++ String (Ascii.ascii_of_nat 46) x = b ++ String (Ascii.ascii_of_nat 46) y)%string ->
  a = b.
Proof.
  revert b. induction a as [| c a IH]; intros [| d b]; intros Ha Hb H;
    rewrite ?append_cons, ?append_nil in H.
  - reflexivity.
  - injection H as <- _. cbn in Hb. discriminate.
  - injection H as -> _. cbn in Ha. discriminate.
  - injection H as -> H. cbn in Ha, Hb.
    apply andb_true_iff in Ha as [_ Ha], Hb as [_ Hb].
    f_equal. now apply IH.
Qed.

(** X11: under one parent, two children have the same path only if both have a
    key and the keys are equal, or neither has a key and they stand at the
    same index: a keyed and an unkeyed child never share a path, and unkeyed
    children at different indices never do, whatever their types and
    siblings. *)
Theorem sibling_paths_coincide
    (component_name : nat -> string) (parentPath : string) (key1 key2 : option string)
    (i j : nat) (type1 type2 : VType) (siblings1 siblings2 : list VNode) :
  createChildPath component_name parentPath key1 i type1 siblings1
  = createChildPath component_name parentPath key2 j type2 siblings2 ->
  match key1, key2 with
  | Some a, Some b => a = b
  | None, None => i = j
  | _, _ => False
  end.
Proof.
  unfold createChildPath. intros H.
  destruct key1 as [a |], key2 as [b |]; apply append_inv_head in H;
    rewrite ?append_cons, ?append_nil in H.
  - now injection H.
  - discriminate H.
  - discriminate H.
  - injection H as H.
    apply digits_before_dot in H; [| apply all_digits_pretty_nat ..].
    now apply (inj pretty) in H.
Qed.

(** Two unkeyed [li] children at index 12 of the same parent. *)
Lemma sibling_paths_coincide_witness :
  createChildPath Scenario.no_name "" None 12 (HostTag "li") []
  = createChildPath Scenario.no_name "" None 12 (HostTag "li") [] /\
  12 = 12.
Proof.
  split; [reflexivity |].
  exact (sibling_paths_coincide Scenario.no_name "" None None 12 12 (HostTag "li")
           (HostTag "li") [] [] eq_refl).
Defined.

(** X12: paths do not record depth: a keyed child of a keyed child has the path
    of a keyed child of the grandparent whose key is the two keys joined by
    the letter k. *)
Theorem keyed_paths_collide_across_depth
    (component_name : nat -> string) (parentPath k1 k2 : string) (i j l : nat)
    (t1 t2 t3 : VType) (s1 s2 s3 : list VNode) :
  createChildPath component_name
    (createChildPath component_name parentPath (Some k1) i t1 s1) (Some k2) j t2 s2
  = createChildPath component_name parentPath (Some (k1 ++ "k" ++ k2)%string) l t3 s3.
Proof.
  unfold createChildPath. now rewrite !append_assoc_string.
Qed.

(** ** The VNode builder *)

Lemma prop_get_rest_of (props : option Props) (k : string) :
  prop_get (Elements.rest_of props) k
  = if String.eqb k "key" then None else prop_get (default [] props) k.
Proof.
  unfold Elements.rest_of. induction (default [] props) as [| [k' v] l IH]; cbn.
  - now destruct (String.eqb k "key").
  - destruct (String.eqb k' "key") eqn:E'; cbn.
    + apply String.eqb_eq in E'. subst k'. rewrite IH.
      rewrite (String.eqb_sym "key" k). now destruct (String.eqb k "key").
    + destruct (String.eqb k' k) eqn:E; [| exact IH].
      apply String.eqb_eq in E. subst k'. now rewrite E'.
Qed.

Lemma prop_get_prop_set (props : Props) (k k' : string) (v : PropVal) :
  prop_get (Elements.prop_set props k v) k'
  = if String.eqb k k' then Some v else prop_get props k'.
Proof.
  induction props as [| [k0 x] l IH]; cbn; [reflexivity |].
  destruct (String.eqb k0 k) eqn:E; cbn.
  - apply String.eqb_eq in E. subst k0. now destruct (String.eqb k k').
  - rewrite IH. destruct (String.eqb k0 k') eqn:E0; [| reflexivity].
    apply String.eqb_eq in E0. subst k0. now rewrite String.eqb_sym, E.
Qed.

Lemma present_children (cs : list VNode) :
  omap id (List.filter (fun c => negb (isEmptyValue c)) (map Some cs)) = cs.
Proof. induction cs as [| c cs IH]; cbn; [reflexivity |]. now rewrite IH. Qed.

Lemma flatten_app (a b : list Elements.Raw) :
  Elements.flatten (a ++ b) = Elements.flatten a ++ Elements.flatten b.
Proof. apply flat_map_app. Qed.

Section BuilderFacts.

Variable emptyString : string -> bool.
Variable emptyNumber : Z -> bool.

(** X13: an array among the children counts as its items written out in its
    place: the element built is the same. *)
Theorem createElement_splices_arrays (type : VType) (originProps : option Props)
    (before items after : list Elements.Raw) :
  Elements.createElement emptyString emptyNumber type originProps
    (before ++ Elements.RArray items :: after)
  = Elements.createElement emptyString emptyNumber type originProps
      (before ++ items ++ after).
Proof.
  unfold Elements.createElement, Elements.normalized.
  replace (Elements.flatten (before ++ Elements.RArray items :: after))
    with (Elements.flatten (before ++ items ++ after)); [reflexivity |].
  rewrite !flatten_app. reflexivity.
Qed.


(** X15: [key] is never a property of a built element; [children] holds the
    children given as arguments when any is left after normalization, and
    every other property, [children] included when no child is left, is the
    one passed in. *)
Theorem createElement_props (type : VType) (originProps : option Props)
    (rawChildren : list Elements.Raw) (k : string) :
  prop_get (node_props (Elements.createElement emptyString emptyNumber type originProps
                          rawChildren)) k
  = if String.eqb k "key" then None
    else
      match Elements.normalized emptyString emptyNumber rawChildren with
      | first :: others =>
          if String.eqb k "children" then Some (PChildren (map Some (first :: others)))
          else prop_get (default [] originProps) k
      | [] => prop_get (default [] originProps) k
      end.
Proof.
  unfold Elements.createElement. cbn [node_props].
  destruct (Elements.normalized emptyString emptyNumber rawChildren) as [| c cs].
  - apply prop_get_rest_of.
  - rewrite prop_get_prop_set, prop_get_rest_of, (String.eqb_sym "children" k).
    destruct (String.eqb k "children") eqn:E; [| reflexivity].
    apply String.eqb_eq in E. now subst k.
Qed.

End BuilderFacts.

(** ** Equality of values *)

Lemma JsVal_nested_ind (P : Equals.JsVal -> Prop) :
  P Equals.JUndefined -> P Equals.JNull ->
  (forall b, P (Equals.JBool b)) -> (forall z, P (Equals.JNum z)) ->
  (forall s, P (Equals.JStr s)) -> (forall f, P (Equals.JFunction f)) ->
  (forall r items, Forall P items -> P (Equals.JArray r items)) ->
  (forall r entries, Forall (fun kv => P (snd kv)) entries -> P (Equals.JObject r entries)) ->
  forall v, P v.
Proof.
  intros HU HN HB HZ HS HF HA HO. fix IH 1.
  intros [| | b | z | s | f | r items | r entries];
    [exact HU | exact HN | apply HB | apply HZ | apply HS | apply HF | |].
  - apply HA. induction items as [| x l IHl]; constructor; [apply IH | exact IHl].
  - apply HO. induction entries as [| [k x] l IHl]; constructor; [apply IH | exact IHl].
Qed.

(** [deepEquals] calls [deepCompareArrays] on two arrays and
    [deepCompareObjects] on two objects. *)
Lemma deepEquals_eq (a b : Equals.JsVal) :
  Equals.deepEquals a b
  = if Equals.Object_is a b then true
    else if Equals.isNullOrUndefined a || Equals.isNullOrUndefined b then false
    else if negb (bool_decide (Equals.typeof a = Equals.typeof b)) then false
    else
      match a, b with
      | Equals.JArray _ xs, Equals.JArray _ ys => Equals.deepCompareArrays xs ys
      | Equals.JObject _ ea, Equals.JObject _ eb => Equals.deepCompareObjects ea eb
      | _, _ => false
      end.
Proof.
  destruct a as [| | x | x | x | x | r xs | r ea]; try reflexivity.
  - destruct b as [| | y | y | y | y | r' ys | r' eb]; try reflexivity.
    cbn. destruct (Nat.eqb r r'); [reflexivity |].
    unfold Equals.deepCompareArrays.
    destruct (negb (Nat.eqb (length xs) (length ys))); [reflexivity |].
    clear. revert ys. induction xs as [| x xs IH]; intros [| y ys]; cbn; try reflexivity.
    destruct (Equals.deepEquals x y); [apply IH | reflexivity].
  - destruct b as [| | y | y | y | y | r' ys | r' eb]; try reflexivity.
    cbn. destruct (Nat.eqb r r'); [reflexivity |].
    unfold Equals.deepCompareObjects.
    destruct (negb (Nat.eqb (length (Equals.keys ea)) (length (Equals.keys eb))));
      [reflexivity |].
    clear. induction ea as [| [k v] ea IH]; cbn; [reflexivity |].
    destruct (negb (Equals.includes k (Equals.keys eb))); [reflexivity |].
    destruct (negb (Equals.deepEquals v (Equals.get eb k))); [reflexivity | apply IH].
Qed.

Lemma compareItems_mono (eq1 eq2 : Equals.JsVal -> Equals.JsVal -> bool)
    (a b : list Equals.JsVal) :
  (forall x y, eq1 x y = true -> eq2 x y = true) ->
  Equals.compareItems eq1 a b = true -> Equals.compareItems eq2 a b = true.
Proof.
  intros Hle. revert b. induction a as [| x a IH]; intros [| y b]; cbn; try reflexivity.
  destruct (eq1 x y) eqn:E; [| discriminate]. rewrite (Hle _ _ E). apply IH.
Qed.

Lemma compareEntries_mono (eq1 eq2 : Equals.JsVal -> Equals.JsVal -> bool)
    (a b : list (string * Equals.JsVal)) :
  (forall x y, eq1 x y = true -> eq2 x y = true) ->
  Equals.compareEntries eq1 a b = true -> Equals.compareEntries eq2 a b = true.
Proof.
  intros Hle. induction a as [| [k v] a IH]; cbn; [reflexivity |].
  destruct (negb (Equals.includes k (Equals.keys b))); [discriminate |].
  destruct (eq1 v (Equals.get b k)) eqn:E; [| discriminate].
  rewrite (Hle _ _ E). exact IH.
Qed.

Lemma Object_is_deepEquals (x y : Equals.JsVal) :
  Equals.Object_is x y = true -> Equals.deepEquals x y = true.
Proof. intros H. now rewrite deepEquals_eq, H. Qed.

(** X16: two values that are shallowly equal are deeply equal. *)
Theorem shallowEquals_implies_deepEquals (a b : Equals.JsVal) :
  Equals.shallowEquals a b = true -> Equals.deepEquals a b = true.
Proof.
  rewrite deepEquals_eq. unfold Equals.shallowEquals.
  destruct (Equals.Object_is a b); [reflexivity |].
  destruct (Equals.isNullOrUndefined a || Equals.isNullOrUndefined b); [trivial |].
  destruct (negb (bool_decide (Equals.typeof a = Equals.typeof b))); [trivial |].
  destruct a as [| | x | x | x | x | r xs | r ea], b as [| | y | y | y | y | r' ys | r' eb];
    trivial.
  - unfold Equals.shallowCompareArrays, Equals.deepCompareArrays.
    destruct (negb (Nat.eqb (length xs) (length ys))); [trivial |].
    apply compareItems_mono, Object_is_deepEquals.
  - unfold Equals.shallowCompareObjects, Equals.deepCompareObjects.
    destruct (negb (Nat.eqb (length (Equals.keys ea)) (length (Equals.keys eb)))); [trivial |].
    apply compareEntries_mono, Object_is_deepEquals.
Qed.

(** Two arrays at different addresses holding the same number and the same
    string. *)
Lemma shallowEquals_implies_deepEquals_witness :
  Equals.shallowEquals
    (Equals.JArray 1 [Equals.JNum 1; Equals.JStr "a"])
    (Equals.JArray 2 [Equals.JNum 1; Equals.JStr "a"]) = true /\
  Equals.deepEquals
    (Equals.JArray 1 [Equals.JNum 1; Equals.JStr "a"])
    (Equals.JArray 2 [Equals.JNum 1; Equals.JStr "a"]) = true.
Proof.
  split; [reflexivity |].
  exact (shallowEquals_implies_deepEquals
           (Equals.JArray 1 [Equals.JNum 1; Equals.JStr "a"])
           (Equals.JArray 2 [Equals.JNum 1; Equals.JStr "a"]) eq_refl).
Defined.

Lemma Object_is_of_value (x y : Value) :
  Equals.Object_is (Equals.of_value x) (Equals.of_value y) = Object_is x y.
Proof.
  unfold Object_is.
  destruct x as [| | x | x | x | x], y as [| | y | y | y | y]; try reflexivity; cbn.
  - destruct (Bool.eqb_spec x y) as [-> | Hne];
      [now rewrite bool_decide_true | rewrite bool_decide_false; congruence].
  - destruct (Z.eqb_spec x y) as [-> | Hne];
      [now rewrite bool_decide_true | rewrite bool_decide_false; congruence].
  - destruct (String.eqb_spec x y) as [-> | Hne];
      [now rewrite bool_decide_true | rewrite bool_decide_false; congruence].
  - destruct (Nat.eqb_spec x y) as [-> | Hne];
      [now rewrite bool_decide_true | rewrite bool_decide_false; congruence].
Qed.

Lemma compareItems_of_value (a b : list Value) :
  length a = length b ->
  Equals.compareItems Equals.Object_is (map Equals.of_value a) (map Equals.of_value b)
  = compare_elements a b.
Proof.
  revert b. induction a as [| x a IH]; intros [| y b] Hlen; cbn; try reflexivity;
    try discriminate.
  rewrite Object_is_of_value. destruct (Object_is x y); [| reflexivity].
  apply IH. now injection Hlen.
Qed.

Lemma compare_elements_eq (a b : list Value) :
  length a = length b -> compare_elements a b = true -> a = b.
Proof.
  revert b. induction a as [| x a IH]; intros [| y b] Hlen; cbn; try discriminate;
    [reflexivity |].
  unfold Object_is. case_bool_decide; [| discriminate]. subst y.
  intros H. f_equal. apply IH; [now injection Hlen | exact H].
Qed.

Lemma compare_elements_refl (a : list Value) : compare_elements a a = true.
Proof.
  induction a as [| x a IH]; cbn; [reflexivity |].
  unfold Object_is. now rewrite bool_decide_true.
Qed.

(** X17: on the dependencies of two renders, held in two different arrays, the
    general [shallowEquals] gives what the comparison used for effects
    gives, and that is true exactly when both are absent or both have the
    same length and the same values, references compared by identity. *)
Theorem shallowEquals_on_dependencies (r r' : nat) (a b : option (list Value)) :
  r <> r' ->
  Equals.shallowEquals (Equals.of_deps r a) (Equals.of_deps r' b) = shallowEquals a b /\
  (shallowEquals a b = true <-> a = b).
Proof.
  intros Hr. split.
  - destruct a as [a |], b as [b |]; try reflexivity.
    unfold Equals.shallowEquals, Equals.of_deps, shallowEquals. cbn.
    apply Nat.eqb_neq in Hr. rewrite Hr.
    unfold Equals.shallowCompareArrays, shallowCompareArrays. rewrite !length_map.
    destruct (Nat.eqb_spec (length a) (length b)) as [Hlen | Hlen]; [| reflexivity].
    cbn. now apply compareItems_of_value.
  - destruct a as [a |], b as [b |]; cbn; try (split; [discriminate | congruence]);
      [| now split].
    unfold shallowCompareArrays.
    destruct (Nat.eqb_spec (length a) (length b)) as [Hlen | Hlen]; cbn.
    + split; [intros H; f_equal; now apply compare_elements_eq |].
      intros [= ->]. apply compare_elements_refl.
    + split; [discriminate |]. intros [= ->]. contradiction.
Qed.

(** The dependencies [[1, o]] of two renders, [o] being the object at
    address 7. *)
Lemma shallowEquals_on_dependencies_witness :
  1 <> 2 /\
  Equals.shallowEquals (Equals.of_deps 1 (Some [VNum 1; VRef 7]))
    (Equals.of_deps 2 (Some [VNum 1; VRef 7])) = true.
Proof.
  split; [lia |].
  destruct (shallowEquals_on_dependencies 1 2 (Some [VNum 1; VRef 7])
              (Some [VNum 1; VRef 7]) ltac:(lia)) as [E _].
  rewrite E. reflexivity.
Defined.

Lemma Equals_Object_is_refl (a : Equals.JsVal) : Equals.Object_is a a = true.
Proof.
  destruct a as [| | x | x | x | x | r xs | r ea]; cbn; try reflexivity.
  - now destruct x.
  - apply Z.eqb_refl.
  - apply String.eqb_refl.
  - apply Nat.eqb_refl.
  - apply Nat.eqb_refl.
  - apply Nat.eqb_refl.
Qed.

Lemma Equals_Object_is_sym (a b : Equals.JsVal) :
  Equals.Object_is a b = Equals.Object_is b a.
Proof.
  destruct a as [| | x | x | x | x | r xs | r ea], b as [| | y | y | y | y | r' ys | r' eb];
    cbn; try reflexivity.
  - now destruct x, y.
  - apply Z.eqb_sym.
  - apply String.eqb_sym.
  - apply Nat.eqb_sym.
  - apply Nat.eqb_sym.
  - apply Nat.eqb_sym.
Qed.

Lemma distinct_keys_array (r : nat) (items : list Equals.JsVal) :
  Equals.distinct_keys (Equals.JArray r items) <-> Forall Equals.distinct_keys items.
Proof.
  cbn. induction items as [| x l IH]; [split; [constructor | trivial] |].
  rewrite Forall_cons. now rewrite IH.
Qed.

Lemma distinct_keys_object (r : nat) (entries : list (string * Equals.JsVal)) :
  Equals.distinct_keys (Equals.JObject r entries)
  <-> NoDup (Equals.keys entries) /\
      Forall (fun kv => Equals.distinct_keys (snd kv)) entries.
Proof.
  cbn. apply and_iff_compat_l.
  induction entries as [| x l IH]; [split; [constructor | trivial] |].
  rewrite Forall_cons. now rewrite IH.
Qed.

Lemma includes_elem_of (k : string) (l : list string) :
  Equals.includes k l = true <-> k ∈ l.
Proof.
  unfold Equals.includes. rewrite existsb_exists. split.
  - intros (x & Hin & E). apply String.eqb_eq in E. subst x. now apply list_elem_of_In.
  - intros Hin. exists k. split; [now apply list_elem_of_In | apply String.eqb_refl].
Qed.

(** In an object without a repeated key, [o[key]] is the value of the entry
    of that key. *)
Lemma get_entry (entries : list (string * Equals.JsVal)) (k : string) (v : Equals.JsVal) :
  NoDup (Equals.keys entries) -> (k, v) ∈ entries -> Equals.get entries k = v.
Proof.
  induction entries as [| [k' v'] l IH]; cbn; intros Hnd Hin.
  - now apply elem_of_nil in Hin.
  - apply NoDup_cons in Hnd as [Hk' Hnd]. apply elem_of_cons in Hin as [[= -> ->] | Hin].
    + now rewrite String.eqb_refl.
    + destruct (String.eqb_spec k' k) as [-> | _]; [| now apply IH].
      exfalso. apply Hk'. unfold Equals.keys. apply list_elem_of_fmap.
      now exists (k, v).
Qed.

Lemma compareItems_true (eq : Equals.JsVal -> Equals.JsVal -> bool)
    (a b : list Equals.JsVal) :
  length a = length b ->
  Equals.compareItems eq a b = true <-> Forall2 (fun x y => eq x y = true) a b.
Proof.
  revert b. induction a as [| x a IH]; intros [| y b] Hlen; try discriminate; cbn.
  - split; [constructor | reflexivity].
  - injection Hlen as Hlen. rewrite Forall2_cons, <- (IH b Hlen).
    destruct (eq x y); [tauto | split; [discriminate | tauto]].
Qed.

Lemma compareEntries_true (eq : Equals.JsVal -> Equals.JsVal -> bool)
    (a b : list (string * Equals.JsVal)) :
  Equals.compareEntries eq a b = true
  <-> Forall (fun kv => fst kv ∈ Equals.keys b /\ eq (snd kv) (Equals.get b (fst kv)) = true) a.
Proof.
  induction a as [| [k v] a IH]; cbn; [split; [constructor | reflexivity] |].
  rewrite Forall_cons, <- IH, <- includes_elem_of. cbn.
  destruct (Equals.includes k (Equals.keys b)); cbn; [| split; [discriminate | tauto]].
  destruct (eq v (Equals.get b k)); cbn; [tauto | split; [discriminate | tauto]].
Qed.

(** Two key lists of the same length, the first without a repeated key and
    contained in the second, have the same keys, and the second has no
    repeated key either. *)
Lemma same_keys (ka kb : list string) :
  NoDup ka -> length ka = length kb -> (forall k, k ∈ ka -> k ∈ kb) ->
  NoDup kb /\ forall k, k ∈ kb -> k ∈ ka.
Proof.
  intros Hnd Hlen Hsub.
  assert (ka ≡ₚ kb) as Hp.
  { apply submseteq_length_Permutation; [now apply NoDup_submseteq | lia]. }
  split; [now rewrite <- Hp | intros k; now rewrite Hp].
Qed.

Lemma compareEntries_sym (eq eq' : Equals.JsVal -> Equals.JsVal -> bool)
    (a b : list (string * Equals.JsVal)) :
  NoDup (Equals.keys a) -> length (Equals.keys a) = length (Equals.keys b) ->
  Forall (fun kv => forall w, eq (snd kv) w = true -> eq' w (snd kv) = true) a ->
  Equals.compareEntries eq a b = true -> Equals.compareEntries eq' b a = true.
Proof.
  intros Hnd Hlen Hsym H. apply compareEntries_true in H. apply compareEntries_true.
  destruct (same_keys (Equals.keys a) (Equals.keys b) Hnd Hlen) as [Hndb Hback].
  { intros k Hk. unfold Equals.keys in Hk. apply list_elem_of_fmap in Hk as ([k' v] & -> & Hin).
    rewrite Forall_forall in H. now apply (H _ Hin). }
  apply Forall_forall. intros [k w] Hin. cbn.
  assert (k ∈ Equals.keys a) as Hka.
  { apply Hback. unfold Equals.keys. apply list_elem_of_fmap. now exists (k, w). }
  split; [exact Hka |].
  unfold Equals.keys in Hka. apply list_elem_of_fmap in Hka as ([k' v] & E & Hina).
  cbn in E. subst k'.
  rewrite (get_entry a k v Hnd Hina).
  rewrite Forall_forall in H, Hsym.
  destruct (H _ Hina) as [_ Hv]. cbn in Hv.
  rewrite (get_entry b k w Hndb Hin) in Hv.
  now apply (Hsym _ Hina).
Qed.

Lemma compareItems_sym (eq eq' : Equals.JsVal -> Equals.JsVal -> bool)
    (a b : list Equals.JsVal) :
  length a = length b ->
  Forall (fun x => forall w, eq x w = true -> eq' w x = true) a ->
  Equals.compareItems eq a b = true -> Equals.compareItems eq' b a = true.
Proof.
  intros Hlen Hsym H. apply compareItems_true in H; [| exact Hlen].
  apply compareItems_true; [now symmetry |].
  clear Hlen. induction H as [| x y a b Hxy H IH]; [constructor |].
  apply Forall_cons in Hsym as [Hx Hsym]. constructor; [now apply Hx | now apply IH].
Qed.

Lemma typeof_guard_sym (a b : Equals.JsVal) :
  negb (bool_decide (Equals.typeof a = Equals.typeof b))
  = negb (bool_decide (Equals.typeof b = Equals.typeof a)).
Proof. f_equal. apply bool_decide_ext. split; congruence. Qed.

(** X18: both equalities are symmetric on a value in which no object has a key
    twice: if [a] equals [b] then [b] equals [a]. *)
Theorem equals_symmetric (a b : Equals.JsVal) :
  Equals.distinct_keys a ->
  (Equals.shallowEquals a b = true -> Equals.shallowEquals b a = true) /\
  (Equals.deepEquals a b = true -> Equals.deepEquals b a = true).
Proof.
  intros Hd. split.
  - unfold Equals.shallowEquals.
    rewrite (Equals_Object_is_sym b a), (orb_comm (Equals.isNullOrUndefined b)),
      (typeof_guard_sym b a).
    destruct (Equals.Object_is a b); [reflexivity |].
    destruct (Equals.isNullOrUndefined a || Equals.isNullOrUndefined b); [trivial |].
    destruct (negb (bool_decide (Equals.typeof a = Equals.typeof b))); [trivial |].
    destruct a as [| | x | x | x | x | r xs | r ea],
      b as [| | y | y | y | y | r' ys | r' eb]; trivial.
    + unfold Equals.shallowCompareArrays.
      destruct (Nat.eqb_spec (length xs) (length ys)) as [Hlen | Hlen]; [| discriminate].
      rewrite <- Hlen, Nat.eqb_refl. cbn.
      apply compareItems_sym; [exact Hlen |].
      apply Forall_forall. intros x _ w. now rewrite Equals_Object_is_sym.
    + unfold Equals.shallowCompareObjects.
      destruct (Nat.eqb_spec (length (Equals.keys ea)) (length (Equals.keys eb)))
        as [Hlen | Hlen]; [| discriminate].
      rewrite <- Hlen, Nat.eqb_refl. cbn.
      apply distinct_keys_object in Hd as [Hnd _].
      apply compareEntries_sym; [exact Hnd | exact Hlen |].
      apply Forall_forall. intros x _ w. now rewrite Equals_Object_is_sym.
  - revert b Hd. induction a as [| | x | x | x | x | r xs IH | r ea IH]
      using JsVal_nested_ind; intros b Hd; rewrite !deepEquals_eq;
      rewrite (Equals_Object_is_sym b), (orb_comm (Equals.isNullOrUndefined b)),
        (typeof_guard_sym b);
      match goal with |- context [Equals.Object_is ?u ?v] =>
        destruct (Equals.Object_is u v); [reflexivity |] end;
      match goal with |- context [orb ?u ?v] => destruct (orb u v); [trivial |] end;
      match goal with |- context [negb ?u] => destruct (negb u); [trivial |] end;
      destruct b as [| | y | y | y | y | r' ys | r' eb]; trivial.
    + unfold Equals.deepCompareArrays.
      destruct (Nat.eqb_spec (length xs) (length ys)) as [Hlen | Hlen]; [| discriminate].
      rewrite <- Hlen, Nat.eqb_refl. cbn.
      apply distinct_keys_array in Hd.
      apply compareItems_sym; [exact Hlen |].
      rewrite Forall_forall in IH, Hd. apply Forall_forall. intros x Hx w.
      apply (IH x Hx w (Hd x Hx)).
    + unfold Equals.deepCompareObjects.
      destruct (Nat.eqb_spec (length (Equals.keys ea)) (length (Equals.keys eb)))
        as [Hlen | Hlen]; [| discriminate].
      rewrite <- Hlen, Nat.eqb_refl. cbn.
      apply distinct_keys_object in Hd as [Hnd Hd].
      apply compareEntries_sym; [exact Hnd | exact Hlen |].
      rewrite Forall_forall in IH, Hd. apply Forall_forall. intros x Hx w.
      apply (IH x Hx w (Hd x Hx)).
Qed.

(** The object [{ x: 1, y: ["a"] }] and another with the same entries in
    the other order, each with an array of its own. *)
Lemma equals_symmetric_witness :
  Equals.distinct_keys Sample.object_xy /\
  Equals.deepEquals Sample.object_xy Sample.object_yx = true /\
  Equals.deepEquals Sample.object_yx Sample.object_xy = true.
Proof.
  assert (Equals.distinct_keys Sample.object_xy) as Hd.
  { cbn. repeat split. compute_done. }
  split; [exact Hd |]. split; [reflexivity |].
  exact (proj2 (equals_symmetric Sample.object_xy Sample.object_yx Hd) eq_refl).
Defined.

Lemma shape_get (entries : list (string * Equals.JsVal)) (k : string) :
  Equals.shape (Equals.get entries k)
  = Equals.get (map (fun kv => (fst kv, Equals.shape (snd kv))) entries) k.
Proof.
  induction entries as [| [k' v] l IH]; cbn; [reflexivity |].
  now destruct (String.eqb k' k).
Qed.

Lemma keys_shape (entries : list (string * Equals.JsVal)) :
  Equals.keys (map (fun kv => (fst kv, Equals.shape (snd kv))) entries) = Equals.keys entries.
Proof. unfold Equals.keys. rewrite map_map. reflexivity. Qed.

(** X19: two values that differ in addresses only are deeply equal, provided no
    object in the first has a key twice. *)
Theorem deepEquals_ignores_addresses (a b : Equals.JsVal) :
  Equals.distinct_keys a -> Equals.shape a = Equals.shape b -> Equals.deepEquals a b = true.
Proof.
  revert b. induction a as [| | x | x | x | x | r xs IH | r ea IH] using JsVal_nested_ind;
    intros b Hd Hs;
    try (destruct b; try discriminate Hs; try (injection Hs as <-);
         apply Object_is_deepEquals, Equals_Object_is_refl).
  - destruct b as [| | y | y | y | y | r' ys | r' eb]; try discriminate Hs.
    injection Hs as Hs. rewrite deepEquals_eq.
    destruct (Equals.Object_is _ _); [reflexivity |]. cbn.
    assert (length xs = length ys) as Hlen.
    { rewrite <- (length_map Equals.shape xs), Hs. apply length_map. }
    unfold Equals.deepCompareArrays. rewrite Hlen, Nat.eqb_refl. cbn.
    apply compareItems_true; [exact Hlen |].
    apply distinct_keys_array in Hd. clear Hlen.
    revert ys Hs. induction xs as [| x xs IHxs]; intros [| y ys] Hs; try discriminate Hs;
      constructor.
    + apply Forall_cons in IH as [IH _], Hd as [Hd _]. apply IH; [exact Hd |].
      now injection Hs.
    + apply Forall_cons in IH as [_ IH], Hd as [_ Hd]. apply IHxs; [exact IH | exact Hd |].
      now injection Hs.
  - destruct b as [| | y | y | y | y | r' ys | r' eb]; try discriminate Hs.
    injection Hs as Hs. rewrite deepEquals_eq.
    destruct (Equals.Object_is _ _); [reflexivity |]. cbn.
    assert (Equals.keys ea = Equals.keys eb) as Hk.
    { now rewrite <- (keys_shape ea), Hs, keys_shape. }
    unfold Equals.deepCompareObjects. rewrite Hk, Nat.eqb_refl. cbn.
    apply distinct_keys_object in Hd as [Hnd Hd].
    apply compareEntries_true. rewrite Forall_forall in IH, Hd.
    apply Forall_forall. intros [k v] Hin. cbn. split.
    + rewrite <- Hk. unfold Equals.keys. apply list_elem_of_fmap. now exists (k, v).
    + apply (IH _ Hin); [exact (Hd _ Hin) |]. cbn.
      now rewrite shape_get, <- Hs, <- shape_get, (get_entry ea k v Hnd Hin).
Qed.

(** The object [{ x: 1, y: ["a"] }] built twice. *)
Lemma deepEquals_ignores_addresses_witness :
  Equals.distinct_keys Sample.object_xy /\
  Equals.shape Sample.object_xy = Equals.shape Sample.object_xy' /\
  Equals.deepEquals Sample.object_xy Sample.object_xy' = true.
Proof.
  assert (Equals.distinct_keys Sample.object_xy) as Hd.
  { cbn. repeat split. compute_done. }
  split; [exact Hd |]. split; [reflexivity |].
  exact (deepEquals_ignores_addresses Sample.object_xy Sample.object_xy' Hd eq_refl).
Defined.

(** ** Properties of host nodes *)

Lemma same_listener_eq (a b : string * nat) : same_listener a b = true <-> a = b.
Proof.
  unfold same_listener. destruct a as [n f], b as [n' f']. cbn.
  rewrite andb_true_iff, String.eqb_eq, Nat.eqb_eq. split; [intros [-> ->] | intros [= -> ->]];
    auto.
Qed.

Lemma elem_of_removeEventListener (name : string) (f : nat) (el : Element)
    (l : string * nat) :
  l ∈ listeners (removeEventListener name f el) <-> l ∈ listeners el /\ l <> (name, f).
Proof.
  unfold removeEventListener. cbn. rewrite list_elem_of_In, filter_In, <- list_elem_of_In.
  apply and_iff_compat_l. rewrite negb_true_iff, <- not_true_iff_false, same_listener_eq.
  split; intros H E; apply H; congruence.
Qed.

Lemma elem_of_addEventListener (name : string) (f : nat) (el : Element) (l : string * nat) :
  l ∈ listeners (addEventListener name f el) <-> l ∈ listeners el \/ l = (name, f).
Proof.
  unfold addEventListener. destruct (existsb _ _) eqn:E.
  - apply existsb_exists in E as (x & Hin & E). apply same_listener_eq in E. subst x.
    apply list_elem_of_In in Hin. split; [auto | intros [H | ->]; assumption].
  - cbn. rewrite elem_of_app, list_elem_of_singleton. reflexivity.
Qed.

Lemma fold_left_keeps {A B : Type} (proj : Element -> B) (g : Element -> A -> Element)
    (l : list A) (el : Element) :
  (forall e x, proj (g e x) = proj e) -> proj (fold_left g l el) = proj el.
Proof.
  intros Hg. revert el. induction l as [| x l IH]; intros el; cbn; [reflexivity |].
  now rewrite IH, Hg.
Qed.

Lemma handlers_cons (kv : string * PropVal) (props : Props) :
  handlers (kv :: props) = handlers [kv] ++ handlers props.
Proof. unfold handlers. cbn. now rewrite app_nil_r. Qed.

Lemma handlers_none (key : string) (v : PropVal) :
  String.prefix "on" key && is_function v = false -> handlers [(key, v)] = [].
Proof.
  unfold handlers. cbn. destruct v; try reflexivity.
  rewrite andb_true_r. now intros ->.
Qed.

(** A name that starts with [data-] is none of the names treated apart. *)
Lemma data_name (k : string) :
  String.prefix "data-" k = true ->
  String.eqb k "children" = false /\ String.prefix "on" k = false /\
  String.eqb k "className" = false /\ String.eqb k "style" = false.
Proof.
  destruct k as [| c k]; [discriminate |].
  destruct c as [[] [] [] [] [] [] [] []]; intros H; try discriminate H; repeat split.
Qed.

Ltac other_name :=
  repeat match goal with H : @eq bool _ _ |- _ => progress rewrite H end;
  rewrite ?orb_true_r; reflexivity.

(** One step of the first loop of [updateDomProps], on an element. *)
Lemma removeDomProp_step (dom : nat) (nextProps : Props) (key : string) (v : PropVal)
    (rt : Runtime) (el : Element) :
  element_at (nodes (document rt)) dom = Some el ->
  style_entry_safe nextProps (key, v) ->
  exists rt1 el1,
    removeDomProp dom nextProps (key, v) rt = Returned tt rt1 /\
    element_at (nodes (document rt1)) dom = Some el1 /\
    (forall l, l ∈ listeners el1 <-> l ∈ listeners el /\ l ∉ handlers [(key, v)]) /\
    (forall k, String.prefix "data-" k = true ->
       attributes el1 !! k
       = if String.eqb key k && negb (prop_in k nextProps) then None
         else attributes el !! k).
Proof.
  intros Hel Hnull.
  assert (forall g : Element -> Element,
    exists rt1, modify_element dom g rt = Returned tt rt1 /\
      element_at (nodes (document rt1)) dom = Some (g el)) as Hmod.
  { intros g. destruct (element_at_modify_element dom dom g rt) as (rt1 & E & H).
    exists rt1. split; [exact E |]. rewrite H, decide_True, Hel by reflexivity.
    reflexivity. }
  assert (forall k, String.prefix "data-" k = true ->
    String.eqb key "children" || String.prefix "on" key || String.eqb key "className"
      || String.eqb key "style" || negb (String.prefix "data-" key) = true ->
    String.eqb key k = false) as Hother.
  { intros k Hk Hc. destruct (String.eqb_spec key k) as [-> | _]; [| reflexivity].
    destruct (data_name k Hk) as (E1 & E2 & E3 & E4).
    rewrite E1, E2, E3, E4, Hk in Hc. discriminate Hc. }
  unfold removeDomProp.
  destruct (String.eqb key "children") eqn:Ec.
  { exists rt, el. split; [reflexivity |]. split; [exact Hel |]. split.
    - intros l. apply String.eqb_eq in Ec. subst key. rewrite handlers_none by reflexivity.
      rewrite elem_of_nil. tauto.
    - intros k Hk. now rewrite (Hother k Hk) by other_name. }
  destruct (String.prefix "on" key && is_function v) eqn:Eon.
  { apply andb_true_iff in Eon as [Eon Ef]. destruct v as [x | f | o | cs]; try discriminate.
    destruct (Hmod (removeEventListener (eventName key) f)) as (rt1 & E & H).
    exists rt1. eexists. split; [exact E |]. split; [exact H |]. split.
    - intros l. rewrite elem_of_removeEventListener. unfold handlers. cbn. rewrite Eon.
      cbn. rewrite list_elem_of_singleton. reflexivity.
    - intros k Hk. now rewrite (Hother k Hk) by other_name. }
  rewrite (handlers_none key v Eon).
  destruct (String.eqb key "className") eqn:Ecl.
  { exists rt, el. split; [reflexivity |]. split; [exact Hel |]. split.
    - intros l. rewrite elem_of_nil. tauto.
    - intros k Hk. now rewrite (Hother k Hk) by other_name. }
  destruct (String.eqb key "style" && is_object v) eqn:Est.
  { apply andb_true_iff in Est as [Est Eo]. apply String.eqb_eq in Est. subst key.
    destruct (Hnull eq_refl Eo) as [[o Hv] Hclash]. cbn [snd] in Hv, Hclash.
    subst v. rewrite Hclash.
    match goal with |- context [modify_element dom ?g] =>
      destruct (Hmod g) as (rt1 & E & H) end.
    exists rt1. eexists. split; [exact E |].
    split; [exact H |]. split.
    - intros l. rewrite elem_of_nil.
      rewrite (fold_left_keeps listeners); [tauto |].
      intros e x. now destruct (style_key_gone _ _ _).
    - intros k Hk. rewrite (Hother k Hk) by reflexivity.
      apply (fold_left_keeps (fun e => attributes e !! k)).
      intros e x. now destruct (style_key_gone _ _ _). }
  destruct (String.prefix "data-" key) eqn:Ed.
  { destruct (prop_in key nextProps) eqn:Ein; cbn [when negb].
    - exists rt, el. split; [reflexivity |]. split; [exact Hel |]. split.
      + intros l. rewrite elem_of_nil. tauto.
      + intros k Hk. destruct (String.eqb_spec key k) as [<- | _]; [| reflexivity].
        now rewrite Ein.
    - match goal with |- context [modify_element dom ?g] =>
        destruct (Hmod g) as (rt1 & E & H) end.
      exists rt1. eexists. split; [exact E |]. split; [exact H |]. split.
      + intros l. rewrite elem_of_nil. cbn. tauto.
      + intros k Hk. cbn. destruct (String.eqb_spec key k) as [<- | Hne].
        * rewrite Ein. cbn. apply lookup_delete_eq.
        * cbn. now apply lookup_delete_ne. }
  destruct (prop_in key nextProps) eqn:Ein; cbn [when negb].
  - exists rt, el. split; [reflexivity |]. split; [exact Hel |]. split.
    + intros l. rewrite elem_of_nil. tauto.
    + intros k Hk. now rewrite (Hother k Hk) by other_name.
  - match goal with |- context [modify_element dom ?g] =>
      destruct (Hmod g) as (rt1 & E & H) end.
    exists rt1. eexists. split; [exact E |]. split; [exact H |]. split.
    + intros l. rewrite elem_of_nil. cbn. tauto.
    + intros k Hk. now rewrite (Hother k Hk) by other_name.
Qed.

(** One step of the loop of [setDomProps], on an element. *)
Lemma setDomProp_step (el : Element) (key : string) (v : PropVal) :
  (forall l, l ∈ listeners (setDomProp el (key, v))
     <-> l ∈ listeners el \/ l ∈ handlers [(key, v)]) /\
  (forall k, String.prefix "data-" k = true ->
     attributes (setDomProp el (key, v)) !! k
     = if String.eqb key k then Some (to_string v) else attributes el !! k).
Proof.
  assert (forall k, String.prefix "data-" k = true ->
    String.eqb key "children" || String.prefix "on" key || String.eqb key "className"
      || String.eqb key "style" || negb (String.prefix "data-" key) = true ->
    String.eqb key k = false) as Hother.
  { intros k Hk Hc. destruct (String.eqb_spec key k) as [-> | _]; [| reflexivity].
    destruct (data_name k Hk) as (E1 & E2 & E3 & E4).
    rewrite E1, E2, E3, E4, Hk in Hc. discriminate Hc. }
  unfold setDomProp.
  destruct (String.eqb key "children") eqn:Ec.
  { split.
    - intros l. apply String.eqb_eq in Ec. subst key. rewrite handlers_none by reflexivity.
      rewrite elem_of_nil. tauto.
    - intros k Hk. now rewrite (Hother k Hk) by other_name. }
  destruct (String.prefix "on" key && is_function v) eqn:Eon.
  { apply andb_true_iff in Eon as [Eon Ef]. destruct v as [x | f | o | cs]; try discriminate.
    split.
    - intros l. rewrite elem_of_addEventListener. unfold handlers. cbn. rewrite Eon.
      cbn. rewrite list_elem_of_singleton. reflexivity.
    - intros k Hk. rewrite (Hother k Hk) by other_name.
      unfold addEventListener. now destruct (existsb _ _). }
  rewrite (handlers_none key v Eon).
  destruct (String.eqb key "className") eqn:Ecl.
  { split.
    - intros l. rewrite elem_of_nil. cbn. tauto.
    - intros k Hk. now rewrite (Hother k Hk) by other_name. }
  destruct (String.eqb key "style" && is_object v) eqn:Est.
  { apply andb_true_iff in Est as [Est Eo]. split.
    - intros l. rewrite elem_of_nil. rewrite (fold_left_keeps listeners); [tauto |].
      reflexivity.
    - intros k Hk. rewrite (Hother k Hk) by other_name.
      now apply (fold_left_keeps (fun e => attributes e !! k)). }
  destruct (String.prefix "data-" key) eqn:Ed.
  { split.
    - intros l. rewrite elem_of_nil. cbn. tauto.
    - intros k Hk. cbn. destruct (String.eqb_spec key k) as [<- | Hne].
      + apply lookup_insert_eq.
      + now apply lookup_insert_ne. }
  split.
  - intros l. rewrite elem_of_nil. cbn. tauto.
  - intros k Hk. now rewrite (Hother k Hk) by other_name.
Qed.

Lemma prop_in_cons (key k : string) (v : PropVal) (props : Props) :
  prop_in k ((key, v) :: props) = String.eqb key k || prop_in k props.
Proof. unfold prop_in. cbn. now destruct (String.eqb key k). Qed.

Lemma prop_get_absent (props : Props) (k : string) :
  k ∉ map fst props -> prop_get props k = None.
Proof.
  induction props as [| [key v] props IH]; cbn; [reflexivity |].
  intros Hk. apply not_elem_of_cons in Hk as [Hne Hk].
  destruct (String.eqb_spec key k) as [-> | _]; [contradiction | now apply IH].
Qed.

(** The first loop of [updateDomProps] on an element, when none of its
    steps throws. *)
Lemma removal_loop (dom : nat) (nextProps prevProps : Props) (rt : Runtime) (el : Element) :
  element_at (nodes (document rt)) dom = Some el ->
  Forall (style_entry_safe nextProps) prevProps ->
  exists rt1 el1,
    forEach (removeDomProp dom nextProps) prevProps rt = Returned tt rt1 /\
    element_at (nodes (document rt1)) dom = Some el1 /\
    (forall l, l ∈ listeners el1 <-> l ∈ listeners el /\ l ∉ handlers prevProps) /\
    (forall k, String.prefix "data-" k = true ->
       attributes el1 !! k
       = if prop_in k prevProps && negb (prop_in k nextProps) then None
         else attributes el !! k).
Proof.
  revert rt el. induction prevProps as [| [key v] prevProps IH]; intros rt el Hel Hnull.
  - exists rt, el. split; [reflexivity |]. split; [exact Hel |]. split.
    + intros l. cbn. rewrite elem_of_nil. tauto.
    + reflexivity.
  - apply Forall_cons in Hnull as [Hkv Hnull].
    destruct (removeDomProp_step dom nextProps key v rt el Hel Hkv)
      as (rt1 & el1 & E1 & Hel1 & Hl1 & Ha1).
    destruct (IH rt1 el1 Hel1 Hnull) as (rt2 & el2 & E2 & Hel2 & Hl2 & Ha2).
    exists rt2, el2. split.
    { cbn [forEach]. unfold bind. now rewrite E1. }
    split; [exact Hel2 |]. split.
    + intros l. rewrite Hl2, Hl1, (handlers_cons (key, v) prevProps), elem_of_app. tauto.
    + intros k Hk. rewrite (Ha2 k Hk), (Ha1 k Hk), prop_in_cons.
      destruct (String.eqb key k), (prop_in k prevProps), (prop_in k nextProps); reflexivity.
Qed.

(** The loop of [setDomProps] on an element. *)
Lemma set_loop (props : Props) (el : Element) :
  (forall l, l ∈ listeners (setDomProps_element props el)
     <-> l ∈ listeners el \/ l ∈ handlers props) /\
  (forall k, String.prefix "data-" k = true -> NoDup (map fst props) ->
     attributes (setDomProps_element props el) !! k
     = match prop_get props k with
       | Some v => Some (to_string v)
       | None => attributes el !! k
       end).
Proof.
  unfold setDomProps_element. revert el.
  induction props as [| [key v] props IH]; intros el; cbn [fold_left].
  - split; [| reflexivity]. intros l. cbn. rewrite elem_of_nil. tauto.
  - destruct (setDomProp_step el key v) as [Hl Ha].
    destruct (IH (setDomProp el (key, v))) as [IHl IHa]. split.
    + intros l. rewrite IHl, Hl, (handlers_cons (key, v) props), elem_of_app. tauto.
    + intros k Hk Hnd. cbn in Hnd. apply NoDup_cons in Hnd as [Hkey Hnd].
      rewrite (IHa k Hk Hnd), (Ha k Hk). cbn [prop_get].
      destruct (String.eqb_spec key k) as [<- | _]; [| reflexivity].
      now rewrite (prop_get_absent props key Hkey).
Qed.

(** Updates that throw in the first loop: a previous [style] with a key
    against a next [style] that is a text, where [styleKey in nextProps[key]]
    is a [TypeError], and a previous [style] that is [null], whose keys
    cannot be read.  A previous [style] without keys, or a next [style] that
    is an object, does not throw. *)
Example updateDomProps_throws_on_style :
  updateDomProps 0 [("style", PObject [("color", "red")])]
    [("style", PValue (VStr "color: blue"))] Scenario.initial
  = Thrown TypeError Scenario.initial /\
  updateDomProps 0 [("style", PValue VNull)] [] Scenario.initial
  = Thrown TypeError Scenario.initial /\
  Scenario.returned
    (updateDomProps 0 [("style", PObject [])] [("style", PValue (VStr "color: blue"))]
       Scenario.initial) <> None /\
  Scenario.returned
    (updateDomProps 0 [("style", PObject [("color", "red")])]
       [("style", PObject [("width", "1px")])] Scenario.initial) <> None.
Proof. vm_compute. repeat split; congruence. Qed.

(** X20: an update of the properties of an element returns when no [style]
    of the previous props makes its first loop throw (none is [null], and
    none has a key while the next [style] is a truthy value that is not an
    object); after it, the listeners of the element are those the new
    properties ask for, and those it had that the previous properties do not
    name. *)
Theorem updateDomProps_listeners (dom : nat) (prevProps nextProps : Props) (rt : Runtime)
    (el : Element) :
  element_at (nodes (document rt)) dom = Some el ->
  Forall (style_entry_safe nextProps) prevProps ->
  exists rt' el',
    updateDomProps dom prevProps nextProps rt = Returned tt rt' /\
    element_at (nodes (document rt')) dom = Some el' /\
    forall l,
      l ∈ listeners el'
      <-> (l ∈ listeners el /\ l ∉ handlers prevProps) \/ l ∈ handlers nextProps.
Proof.
  intros Hel Hnull.
  destruct (removal_loop dom nextProps prevProps rt el Hel Hnull)
    as (rt1 & el1 & E1 & Hel1 & Hl1 & _).
  destruct (element_at_modify_element dom dom (setDomProps_element nextProps) rt1)
    as (rt2 & E2 & Hel2).
  rewrite decide_True, Hel1 in Hel2 by reflexivity.
  exists rt2. eexists. split.
  { unfold updateDomProps, bind. rewrite E1. exact E2. }
  split; [exact Hel2 |].
  intros l. destruct (set_loop nextProps el1) as [Hl2 _]. now rewrite Hl2, Hl1.
Qed.

(** The container, with a click handler replaced by another. *)
Lemma updateDomProps_listeners_witness :
  element_at (nodes (document Scenario.initial)) 0 = Some empty_element /\
  Forall (style_entry_safe [("onClick", PFunction 8)]) [("onClick", PFunction 7)] /\
  exists rt' el',
    updateDomProps 0 [("onClick", PFunction 7)] [("onClick", PFunction 8)] Scenario.initial
    = Returned tt rt' /\
    element_at (nodes (document rt')) 0 = Some el' /\
    forall l,
      l ∈ listeners el'
      <-> (l ∈ listeners empty_element /\ l ∉ handlers [("onClick", PFunction 7)])
          \/ l ∈ handlers [("onClick", PFunction 8)].
Proof.
  assert (Forall (style_entry_safe [("onClick", PFunction 8)]) [("onClick", PFunction 7)])
    as Hnull.
  { constructor; [intros E; discriminate E | constructor]. }
  split; [reflexivity |]. split; [exact Hnull |].
  exact (updateDomProps_listeners 0 [("onClick", PFunction 7)] [("onClick", PFunction 8)]
           Scenario.initial empty_element eq_refl Hnull).
Defined.

(** X21: an update of the properties of an element returns when no [style]
    of the previous props makes its first loop throw and the new properties
    name no property twice; after it, an attribute whose name starts with
    [data-] holds the text of the new property of that name; when there is
    none, the attribute is absent if the previous props had the name, and as
    it was otherwise. *)
Theorem updateDomProps_data_attributes (dom : nat) (prevProps nextProps : Props)
    (rt : Runtime) (el : Element) (k : string) :
  element_at (nodes (document rt)) dom = Some el ->
  Forall (style_entry_safe nextProps) prevProps ->
  NoDup (map fst nextProps) ->
  String.prefix "data-" k = true ->
  exists rt' el',
    updateDomProps dom prevProps nextProps rt = Returned tt rt' /\
    element_at (nodes (document rt')) dom = Some el' /\
    attributes el' !! k
    = match prop_get nextProps k with
      | Some v => Some (to_string v)
      | None => if prop_in k prevProps then None else attributes el !! k
      end.
Proof.
  intros Hel Hnull Hnd Hk.
  destruct (removal_loop dom nextProps prevProps rt el Hel Hnull)
    as (rt1 & el1 & E1 & Hel1 & _ & Ha1).
  destruct (element_at_modify_element dom dom (setDomProps_element nextProps) rt1)
    as (rt2 & E2 & Hel2).
  rewrite decide_True, Hel1 in Hel2 by reflexivity.
  exists rt2. eexists. split.
  { unfold updateDomProps, bind. rewrite E1. exact E2. }
  split; [exact Hel2 |].
  destruct (set_loop nextProps el1) as [_ Ha2]. rewrite (Ha2 k Hk Hnd), (Ha1 k Hk).
  unfold prop_in. destruct (prop_get nextProps k); [reflexivity |].
  now rewrite andb_true_r.
Qed.

(** The container, with the attribute [data-k] dropped. *)
Lemma updateDomProps_data_attributes_witness :
  element_at (nodes (document Scenario.initial)) 0 = Some empty_element /\
  Forall (style_entry_safe [("id", PValue (VStr "x"))]) [("data-k", PValue (VStr "v"))] /\
  NoDup (map fst [("id", PValue (VStr "x"))]) /\
  String.prefix "data-" "data-k" = true /\
  exists rt' el',
    updateDomProps 0 [("data-k", PValue (VStr "v"))] [("id", PValue (VStr "x"))]
      Scenario.initial = Returned tt rt' /\
    element_at (nodes (document rt')) 0 = Some el' /\
    attributes el' !! "data-k" = None.
Proof.
  assert (Forall (style_entry_safe [("id", PValue (VStr "x"))])
            [("data-k", PValue (VStr "v"))]) as Hnull.
  { constructor; [intros E; discriminate E | constructor]. }
  assert (NoDup (map fst [("id", PValue (VStr "x"))])) as Hnd.
  { cbn. apply NoDup_singleton. }
  split; [reflexivity |]. split; [exact Hnull |]. split; [exact Hnd |].
  split; [reflexivity |].
  exact (updateDomProps_data_attributes 0 [("data-k", PValue (VStr "v"))]
           [("id", PValue (VStr "x"))] Scenario.initial empty_element "data-k"
           eq_refl Hnull Hnd eq_refl).
Defined.

(** ** Inserting an instance before an anchor *)

Lemma remove_id_app (n : nat) (l k : list nat) :
  remove_id n (l ++ k) = remove_id n l ++ remove_id n k.
Proof. unfold remove_id. apply List.filter_app. Qed.

Lemma remove_id_absent (n : nat) (l : list nat) : n ∉ l -> remove_id n l = l.
Proof.
  induction l as [| x l IH]; [reflexivity |]. intros Hn.
  apply not_elem_of_cons in Hn as [Hne Hn]. unfold remove_id in *. cbn.
  destruct (Nat.eqb_spec x n) as [-> | _]; [contradiction |]. cbn. now rewrite IH.
Qed.

Lemma elem_of_remove_id (m n : nat) (l : list nat) :
  m ∈ remove_id n l <-> m ∈ l /\ m <> n.
Proof.
  unfold remove_id. rewrite list_elem_of_In, filter_In, <- list_elem_of_In.
  now rewrite negb_true_iff, Nat.eqb_neq.
Qed.

Lemma without_nil (l : list nat) : without [] l = l.
Proof.
  unfold without. induction l as [| x l IH]; cbn in *; [reflexivity | now rewrite IH].
Qed.

Lemma without_cons (n : nat) (gone l : list nat) :
  without (n :: gone) l = without gone (remove_id n l).
Proof.
  unfold without, remove_id. induction l as [| x l IH]; [reflexivity |]. cbn in *.
  destruct (Nat.eqb x n); cbn; [exact IH |].
  destruct (existsb (Nat.eqb x) gone); cbn; [exact IH | now rewrite IH].
Qed.

Lemma insert_before_id_app (n r : nat) (l k : list nat) :
  r ∉ l -> insert_before_id n r (l ++ r :: k) = l ++ n :: r :: k.
Proof.
  induction l as [| x l IH]; intros Hr; cbn.
  - now rewrite Nat.eqb_refl.
  - apply not_elem_of_cons in Hr as [Hne Hr].
    destruct (Nat.eqb_spec x r) as [-> | _]; [contradiction |]. now rewrite IH.
Qed.

Lemma elem_of_insert_before_id (m n r : nat) (l : list nat) :
  m ∈ insert_before_id n r l <-> m = n \/ m ∈ l.
Proof.
  induction l as [| x l IH]; cbn.
  - rewrite list_elem_of_singleton, elem_of_nil. tauto.
  - destruct (Nat.eqb x r); rewrite !elem_of_cons; [tauto |]. rewrite IH. tauto.
Qed.

Lemma after_id_app (n r : nat) (l k : list nat) :
  n ∉ l -> after_id n (l ++ n :: r :: k) = Some r.
Proof.
  induction l as [| x l IH]; intros Hn; cbn.
  - now rewrite Nat.eqb_refl.
  - apply not_elem_of_cons in Hn as [Hne Hn].
    destruct (Nat.eqb_spec x n) as [-> | _]; [contradiction |]. now apply IH.
Qed.

Lemma children_at_alter_parent (f : DomNode -> option nat) (m p : nat)
    (ns : gmap nat DomNode) :
  children_at (alter (fun nd => mkDomNode (data nd) (f nd) (childNodes nd)) m ns) p
  = children_at ns p.
Proof.
  unfold children_at. rewrite lookup_alter. case_decide; [| reflexivity].
  subst. now destruct (ns !! p).
Qed.

Lemma children_at_alter_children (f : list nat -> list nat) (q p : nat)
    (ns : gmap nat DomNode) :
  children_at (alter (fun pd => mkDomNode (data pd) (parentNode pd) (f (childNodes pd))) q ns) p
  = if decide (p = q) then match ns !! p with Some pd => f (childNodes pd) | None => [] end
    else children_at ns p.
Proof.
  unfold children_at. rewrite lookup_alter. destruct (decide (p = q)) as [-> | Hne].
  - rewrite decide_True by reflexivity. now destruct (ns !! q).
  - now rewrite decide_False by congruence.
Qed.

(** Taking out a node that, if listed under [p], has [p] as its parent. *)
Lemma children_at_detach (n p : nat) (ns : gmap nat DomNode) :
  (n ∈ children_at ns p -> parent_of ns n = Some p) ->
  children_at (detach n ns) p = remove_id n (children_at ns p).
Proof.
  intros Hn. unfold detach. destruct (parent_of ns n) as [q |] eqn:E.
  - rewrite (children_at_alter_parent (fun _ => None)).
    rewrite (children_at_alter_children (remove_id n)).
    destruct (decide (p = q)) as [-> | Hne].
    + unfold children_at. now destruct (ns !! q).
    + symmetry. apply remove_id_absent. intros Hin. apply Hn in Hin. congruence.
  - symmetry. apply remove_id_absent. intros Hin. apply Hn in Hin. discriminate.
Qed.

Lemma children_at_attach_before (p n r : nat) (ns : gmap nat DomNode) :
  children_at (attach_before p n r ns) p
  = match ns !! p with
    | Some pd => insert_before_id n r (childNodes pd)
    | None => []
    end.
Proof.
  unfold attach_before. rewrite (children_at_alter_parent (fun _ => Some p)).
  rewrite (children_at_alter_children (insert_before_id n r)).
  now rewrite decide_True by reflexivity.
Qed.

Lemma parent_of_attach_before (p m r n : nat) (ns : gmap nat DomNode) :
  parent_of (attach_before p m r ns) n
  = if decide (n = m)
    then match ns !! m with Some _ => Some p | None => None end
    else parent_of ns n.
Proof.
  unfold attach_before, parent_of. rewrite lookup_alter.
  destruct (decide (n = m)) as [-> | Hne].
  - rewrite decide_True by reflexivity. rewrite lookup_alter.
    case_decide; subst; destruct (ns !! m); reflexivity.
  - rewrite decide_False by congruence. rewrite lookup_alter.
    case_decide; [| reflexivity]. subst. now destruct (ns !! n).
Qed.

Lemma is_Some_attach_before (p m r n : nat) (ns : gmap nat DomNode) :
  is_Some (attach_before p m r ns !! n) <-> is_Some (ns !! n).
Proof. unfold attach_before. now rewrite !is_Some_alter_node. Qed.

Lemma with_nodes_same (rt : Runtime) : with_nodes (nodes (document rt)) rt = rt.
Proof. unfold with_nodes. now destruct rt as [[] ]. Qed.

(** [parent.insertBefore(n, anchor)] for an anchor under [parent] and
    another node [n]. *)
Lemma insertBefore_spec (p n a : nat) (rt : Runtime) :
  parent_of (nodes (document rt)) a = Some p -> n <> a ->
  is_Some (nodes (document rt) !! p) -> is_Some (nodes (document rt) !! n) ->
  (n ∈ children_at (nodes (document rt)) p -> parent_of (nodes (document rt)) n = Some p) ->
  exists ns',
    insertBefore (Some p) n (Some a) rt = Returned tt (with_nodes ns' rt) /\
    children_at ns' p = insert_before_id n a (remove_id n (children_at (nodes (document rt)) p)) /\
    (forall m, parent_of ns' m = if decide (m = n) then Some p else parent_of (nodes (document rt)) m) /\
    (forall m, is_Some (ns' !! m) <-> is_Some (nodes (document rt) !! m)).
Proof.
  intros Ha Hna Hp Hn Hlisted. set (ns := nodes (document rt)) in *.
  exists (attach_before p n a (detach n ns)). split; [| split; [| split]].
  - unfold insertBefore, bind, get. fold ns. rewrite Ha, bool_decide_true by reflexivity.
    cbn [negb]. destruct (Nat.eqb_spec n a) as [-> | _]; [contradiction | reflexivity].
  - rewrite children_at_attach_before.
    rewrite <- (children_at_detach n p ns Hlisted). unfold children_at.
    destruct (detach n ns !! p) as [pd |] eqn:E; [reflexivity |].
    exfalso. apply (is_Some_detach n p) in Hp. rewrite E in Hp. now destruct Hp.
  - intros m. rewrite parent_of_attach_before, parent_of_detach.
    destruct (decide (m = n)) as [-> | _]; [| reflexivity].
    apply (is_Some_detach n n) in Hn. now destruct Hn as [x ->].
  - intros m. now rewrite is_Some_attach_before, is_Some_detach.
Qed.

Lemma with_nodes_twice (ns ns' : gmap nat DomNode) (rt : Runtime) :
  with_nodes ns' (with_nodes ns rt) = with_nodes ns' rt.
Proof. reflexivity. Qed.

Ltac mem :=
  rewrite ?elem_of_app, ?elem_of_cons, ?elem_of_remove_id, ?list_elem_of_singleton,
    ?elem_of_nil in *;
  intuition congruence.

Lemma remove_id_cons_ne (n x : nat) (l : list nat) :
  x <> n -> remove_id n (x :: l) = x :: remove_id n l.
Proof.
  intros Hne. unfold remove_id. cbn.
  destruct (Nat.eqb_spec x n) as [E | _]; [contradiction | reflexivity].
Qed.

(** The loop of [insertInstance] that follows the first node: [previous] is
    the node placed last, [D] holds the ones placed before it, and all of
    them stand just before the anchor. *)
Lemma insert_following_spec (p a : nat) (rest : list nat) :
  forall (previous : nat) (X D Y : list nat) (rt : Runtime),
  children_at (nodes (document rt)) p = X ++ (D ++ [previous]) ++ a :: Y ->
  a ∉ X ++ D ++ [previous] -> previous ∉ X ++ D ->
  parent_of (nodes (document rt)) a = Some p ->
  parent_of (nodes (document rt)) previous = Some p ->
  NoDup rest ->
  (forall n, n ∈ rest ->
     n <> a /\ (n ∉ D ++ [previous]) /\ is_Some (nodes (document rt) !! n) /\
     (n ∈ children_at (nodes (document rt)) p -> parent_of (nodes (document rt)) n = Some p)) ->
  exists ns',
    insert_following (Some p) previous rest rt = Returned tt (with_nodes ns' rt) /\
    children_at ns' p = without rest X ++ (D ++ [previous] ++ rest) ++ a :: without rest Y /\
    (forall m, m ∈ rest -> parent_of ns' m = Some p) /\
    (forall m, m ∉ rest -> parent_of ns' m = parent_of (nodes (document rt)) m).
Proof.
  induction rest as [| n rest IH]; intros previous X D Y rt Hch Ha Hprev Hpa Hpp Hnd Hrest.
  - exists (nodes (document rt)). split; [| split; [| split]].
    + cbn. unfold ret. now rewrite with_nodes_same.
    + now rewrite !without_nil, app_nil_r.
    + intros m Hm. now apply elem_of_nil in Hm.
    + reflexivity.
  - apply NoDup_cons in Hnd as [Hn Hnd].
    destruct (Hrest n ltac:(left)) as (Hna & HnD & Hsn & Hlisted).
    assert (is_Some (nodes (document rt) !! p)) as Hp.
    { unfold children_at in Hch. destruct (nodes (document rt) !! p); [eauto |].
      symmetry in Hch. apply app_eq_nil in Hch as [_ Hch].
      apply app_eq_nil in Hch as [Hch _]. now apply app_eq_nil in Hch as [_ Hch]. }
    assert (nextSibling (nodes (document rt)) previous = Some a) as Hnext.
    { unfold nextSibling. rewrite Hpp. unfold children_at in Hch.
      destruct (nodes (document rt) !! p) as [pd |]; [| now destruct Hp].
      rewrite Hch. rewrite <- !app_assoc. rewrite (app_assoc X D). cbn.
      now apply after_id_app. }
    destruct (insertBefore_spec p n a rt Hpa Hna Hp Hsn Hlisted)
      as (ns1 & Hrun & Hch1 & Hpar1 & Hsome1).
    assert (children_at ns1 p
            = remove_id n X ++ ((D ++ [previous]) ++ [n]) ++ a :: remove_id n Y) as Hch1'.
    { rewrite Hch1, Hch, !remove_id_app, (remove_id_cons_ne n a Y) by congruence.
      rewrite <- (remove_id_app n D [previous]).
      rewrite (remove_id_absent n (D ++ [previous]) HnD).
      rewrite (app_assoc (remove_id n X)), insert_before_id_app.
      - now rewrite <- !app_assoc.
      - clear -Ha Hna. mem. }
    destruct (IH n (remove_id n X) (D ++ [previous]) (remove_id n Y) (with_nodes ns1 rt))
      as (ns' & Hrun' & Hch' & Hin' & Hout').
    + exact Hch1'.
    + clear -Ha Hna. mem.
    + clear -HnD. mem.
    + cbn. rewrite Hpar1. now rewrite decide_False by congruence.
    + cbn. rewrite Hpar1. now rewrite decide_True by reflexivity.
    + exact Hnd.
    + intros m Hm. destruct (Hrest m ltac:(now right)) as (Hma & HmD & Hsm & Hml).
      assert (m <> n) as Hmn by (intros ->; contradiction).
      split; [exact Hma |]. split.
      { clear -HmD Hmn. mem. }
      cbn. split; [now apply Hsome1 |].
      rewrite Hpar1, decide_False by exact Hmn. intros Hin. apply Hml.
      rewrite Hch1 in Hin. apply elem_of_insert_before_id in Hin as [-> | Hin];
        [contradiction |].
      now apply elem_of_remove_id in Hin as [Hin _].
    + exists ns'. split; [| split; [| split]].
      * cbn [insert_following]. unfold bind at 1, get. unfold bind at 1.
        rewrite Hnext, Hrun. exact Hrun'.
      * rewrite Hch', !without_cons, <- !app_assoc. reflexivity.
      * intros m Hm. apply elem_of_cons in Hm as [-> | Hm]; [| now apply Hin'].
        destruct (decide (n ∈ rest)) as [Hin | Hnotin]; [contradiction |].
        rewrite (Hout' n Hnotin). cbn. rewrite Hpar1. now rewrite decide_True by reflexivity.
      * intros m Hm. apply not_elem_of_cons in Hm as [Hmn Hm].
        rewrite (Hout' m Hm). cbn. rewrite Hpar1. now rewrite decide_False by exact Hmn.
Qed.

(** X22: [insertInstance] with an anchor that is a child of [parentDom]:
    the host nodes of the instance come to stand just before the anchor, in
    their order, and the other children keep theirs.  Each host node is in
    the document and is not the anchor, none occurs twice, and one listed
    under [parentDom] has it as parent.  (The document does not refuse to
    place a node under one of its descendants; the host nodes of an instance
    are not above [parentDom].) *)
Theorem insertInstance_before_anchor (p a : nat) (instance : option Instance)
    (before after : list nat) (rt : Runtime) :
  children_at (nodes (document rt)) p = before ++ a :: after ->
  a ∉ before ->
  parent_of (nodes (document rt)) a = Some p ->
  NoDup (getDomNodes instance) ->
  (forall n, n ∈ getDomNodes instance ->
     n <> a /\ is_Some (nodes (document rt) !! n) /\
     (n ∈ children_at (nodes (document rt)) p -> parent_of (nodes (document rt)) n = Some p)) ->
  exists ns',
    insertInstance (Some p) instance (Some a) rt = Returned tt (with_nodes ns' rt) /\
    children_at ns' p
    = without (getDomNodes instance) before ++ getDomNodes instance
        ++ a :: without (getDomNodes instance) after /\
    (forall n, n ∈ getDomNodes instance -> parent_of ns' n = Some p).
Proof.
  intros Hch Ha Hpa Hnd Hnodes.
  assert (insertInstance (Some p) instance (Some a) rt
          = match getDomNodes instance with
            | [] => Returned tt rt
            | first :: rest =>
                (insertBefore (Some p) first (Some a) ;;
                 insert_following (Some p) first rest) rt
            end) as Hrun.
  { unfold insertInstance. destruct instance as [i |]; [| reflexivity].
    now destruct (getDomNodes (Some i)). }
  rewrite Hrun. clear Hrun. destruct (getDomNodes instance) as [| first rest].
  { exists (nodes (document rt)). split; [now rewrite with_nodes_same |].
    split; [now rewrite !without_nil | ]. intros n Hn. now apply elem_of_nil in Hn. }
  apply NoDup_cons in Hnd as [Hfirst Hnd].
  destruct (Hnodes first ltac:(left)) as (Hfa & Hsf & Hlisted).
  assert (is_Some (nodes (document rt) !! p)) as Hp.
  { unfold children_at in Hch. destruct (nodes (document rt) !! p); [eauto |].
    symmetry in Hch. now apply app_eq_nil in Hch as [_ Hch]. }
  destruct (insertBefore_spec p first a rt Hpa Hfa Hp Hsf Hlisted)
    as (ns1 & Hrun & Hch1 & Hpar1 & Hsome1).
  assert (children_at ns1 p
          = remove_id first before ++ ([] ++ [first]) ++ a :: remove_id first after) as Hch1'.
  { rewrite Hch1, Hch, !remove_id_app, (remove_id_cons_ne first a after) by congruence.
    rewrite insert_before_id_app; [reflexivity |]. clear -Ha. mem. }
  destruct (insert_following_spec p a rest first (remove_id first before) []
              (remove_id first after) (with_nodes ns1 rt))
    as (ns' & Hrun' & Hch' & Hin' & Hout').
  - exact Hch1'.
  - clear -Ha Hfa. mem.
  - clear. mem.
  - cbn. rewrite Hpar1. now rewrite decide_False by congruence.
  - cbn. rewrite Hpar1. now rewrite decide_True by reflexivity.
  - exact Hnd.
  - intros m Hm. destruct (Hnodes m ltac:(now right)) as (Hma & Hsm & Hml).
    assert (m <> first) as Hmf by (intros ->; contradiction).
    split; [exact Hma |]. split.
    { clear -Hmf. mem. }
    cbn. split; [now apply Hsome1 |].
    rewrite Hpar1, decide_False by exact Hmf. intros Hin. apply Hml.
    rewrite Hch1 in Hin. apply elem_of_insert_before_id in Hin as [-> | Hin];
      [contradiction |].
    now apply elem_of_remove_id in Hin as [Hin _].
  - exists ns'. split; [| split].
    + unfold bind. rewrite Hrun. exact Hrun'.
    + rewrite Hch', !without_cons. cbn. reflexivity.
    + intros m Hm. apply elem_of_cons in Hm as [-> | Hm]; [| now apply Hin'].
      rewrite (Hout' first Hfirst). cbn. rewrite Hpar1. now rewrite decide_True by reflexivity.
Qed.

(** In the mounted list [A B C] the third item is moved before the first:
    the [ul] is node 1 and its items are the nodes 2, 4 and 6. *)
Lemma insertInstance_before_anchor_witness :
  children_at (nodes (document Scenario.abc_runtime)) 1 = [] ++ 2 :: [4; 6] /\
  getDomNodes Sample.third_item = [6] /\
  exists ns',
    insertInstance (Some 1) Sample.third_item (Some 2) Scenario.abc_runtime
    = Returned tt (with_nodes ns' Scenario.abc_runtime) /\
    children_at ns' 1 = [6; 2; 4].
Proof.
  assert (children_at (nodes (document Scenario.abc_runtime)) 1 = [] ++ 2 :: [4; 6]) as Hch
    by (vm_compute; reflexivity).
  assert (getDomNodes Sample.third_item = [6]) as Hnodes by (vm_compute; reflexivity).
  split; [exact Hch |]. split; [exact Hnodes |].
  destruct (insertInstance_before_anchor 1 2 Sample.third_item [] [4; 6]
              Scenario.abc_runtime Hch) as (ns' & Hrun & Hch' & _).
  - apply not_elem_of_nil.
  - vm_compute. reflexivity.
  - rewrite Hnodes. apply NoDup_singleton.
  - intros n Hn. rewrite Hnodes in Hn. apply list_elem_of_singleton in Hn. subst n.
    split; [lia |]. split; [vm_compute; eauto |]. intros _. vm_compute. reflexivity.
  - exists ns'. split; [exact Hrun |]. rewrite Hch', Hnodes. reflexivity.
Defined.

(** ** Mounting a tree without components *)

Lemma HostTree_nested_ind (P : HostTree -> Prop) :
  (forall value, P (HText value)) ->
  (forall tag el trees, Forall P trees -> P (HElement tag el trees)) ->
  forall t, P t.
Proof.
  intros Htext Helement. fix IH 1. intros [value | tag el trees]; [apply Htext |].
  apply Helement. induction trees as [| t trees IHtrees]; constructor; [apply IH | exact IHtrees].
Qed.

Lemma shows_element (lo hi : nat) (ns : gmap nat DomNode) (n : nat) (tag : string)
    (el : Element) (trees : list HostTree) :
  shows lo hi ns n (HElement tag el trees)
  <-> lo <= n < hi /\
      exists nd,
        ns !! n = Some nd /\ data nd = ElementData tag el /\
        Forall2 (shows lo hi ns) (childNodes nd) trees.
Proof.
  cbn [shows]. apply and_iff_compat_l.
  split; intros (nd & Hn & Hd & Hall); exists nd; (split; [exact Hn |]);
    (split; [exact Hd |]).
  - revert Hall. generalize (childNodes nd). induction trees as [| t trees IH];
      intros [| c cs] Hall; try contradiction; constructor; [apply Hall |].
    apply IH, Hall.
  - induction Hall as [| c t cs trees Hc _ IH]; [exact I | split; [exact Hc | exact IH]].
Qed.

(** A tree is still shown after a change of the store that leaves its
    addresses alone, and its addresses are in every wider range. *)
Lemma shows_transfer (lo hi lo' hi' : nat) (ns ns' : gmap nat DomNode) (t : HostTree) :
  lo' <= lo -> hi <= hi' ->
  (forall a, lo <= a < hi -> ns' !! a = ns !! a) ->
  forall n, shows lo hi ns n t -> shows lo' hi' ns' n t.
Proof.
  intros Hlo Hhi Hsame.
  induction t as [value | tag el trees IH] using HostTree_nested_ind; intros n.
  - intros [Hn (nd & E & Hd & Hc)]. split; [lia |]. exists nd. now rewrite Hsame.
  - rewrite !shows_element. intros [Hn (nd & E & Hd & Hall)]. split; [lia |].
    exists nd. rewrite Hsame by exact Hn. split; [exact E |]. split; [exact Hd |].
    clear E. induction Hall as [| c t cs trees Hc _ IHall]; [constructor |].
    apply Forall_cons in IH as [IHt IH]. constructor; [now apply IHt | now apply IHall].
Qed.

Lemma mounted_nil (p : nat) (doc : Document) : ready p doc -> mounted p doc doc [] [].
Proof.
  intros [[pd Hp] Hwf]. repeat split.
  - reflexivity.
  - exact Hwf.
  - now rewrite app_nil_r.
  - constructor.
  - exists pd, pd. auto.
Qed.

Lemma mounted_ready (p : nat) (doc doc' : Document) (new : list nat) (trees : list HostTree) :
  mounted p doc doc' new trees -> ready p doc'.
Proof.
  intros (_ & Hwf & _ & _ & _ & (pd & pd' & _ & Hp & _)). split; [eauto | exact Hwf].
Qed.

Lemma mounted_app (p : nat) (doc doc1 doc2 : Document) (new1 new2 : list nat)
    (trees1 trees2 : list HostTree) :
  p < fresh doc ->
  mounted p doc doc1 new1 trees1 -> mounted p doc1 doc2 new2 trees2 ->
  mounted p doc doc2 (new1 ++ new2) (trees1 ++ trees2).
Proof.
  intros Hp (Hf1 & Hwf1 & Hch1 & Hsh1 & Hfr1 & (pd & pd1 & Ep & Ep1 & Hd1 & Hpar1))
    (Hf2 & Hwf2 & Hch2 & Hsh2 & Hfr2 & (pd1' & pd2 & Ep1' & Ep2 & Hd2 & Hpar2)).
  rewrite Ep1 in Ep1'. injection Ep1' as <-.
  split; [lia |]. split; [exact Hwf2 |]. split; [now rewrite Hch2, Hch1, app_assoc |].
  split; [| split].
  - apply Forall2_app.
    + eapply Forall2_impl; [exact Hsh1 |]. intros n t.
      apply shows_transfer; [lia | lia |]. intros a Ha. apply Hfr2; lia.
    + eapply Forall2_impl; [exact Hsh2 |]. intros n t.
      apply shows_transfer; [lia | lia | reflexivity].
  - intros a Ha Hap. rewrite Hfr2 by (try lia; exact Hap). now apply Hfr1.
  - exists pd, pd2. repeat split; congruence.
Qed.

(** Appending a node that has no parent yet. *)
Lemma attach_new (ns : gmap nat DomNode) (p n : nat) (pd nd : DomNode) :
  ns !! p = Some pd -> ns !! n = Some nd -> parentNode nd = None -> p <> n ->
  attach_last p n (detach n ns) !! n = Some (mkDomNode (data nd) (Some p) (childNodes nd)) /\
  attach_last p n (detach n ns) !! p
  = Some (mkDomNode (data pd) (parentNode pd) (childNodes pd ++ [n])) /\
  forall a, a <> p -> a <> n -> attach_last p n (detach n ns) !! a = ns !! a.
Proof.
  intros Hp Hn Hpar Hne.
  assert (detach n ns = ns) as ->.
  { unfold detach, parent_of. now rewrite Hn, Hpar. }
  unfold attach_last. split; [| split].
  - rewrite lookup_alter, decide_True by reflexivity.
    rewrite lookup_alter, decide_False by congruence. now rewrite Hn.
  - rewrite lookup_alter, decide_False by congruence.
    rewrite lookup_alter, decide_True by reflexivity. now rewrite Hp.
  - intros a Hap Han. rewrite lookup_alter, decide_False by congruence.
    now rewrite lookup_alter, decide_False by congruence.
Qed.

(** The document after a new node [n], with what is below it, was appended
    to [p]. *)
Lemma mounted_one (p n : nat) (doc doc1 : Document) (nd : DomNode) (t : HostTree) :
  ready p doc -> n = fresh doc -> fresh doc < fresh doc1 ->
  (forall a, is_Some (nodes doc1 !! a) -> a < fresh doc1) ->
  (forall a, a < fresh doc -> nodes doc1 !! a = nodes doc !! a) ->
  nodes doc1 !! n = Some nd -> parentNode nd = None ->
  match t with
  | HText value => data nd = TextData value /\ childNodes nd = []
  | HElement tag el trees =>
      data nd = ElementData tag el /\
      Forall2 (shows (S n) (fresh doc1) (nodes doc1)) (childNodes nd) trees
  end ->
  mounted p doc (mkDocument (attach_last p n (detach n (nodes doc1))) (fresh doc1)) [n] [t].
Proof.
  intros [[pd Hp] Hwf] -> Hfresh Hwf1 Hold Hn Hpar Hshow.
  assert (p < fresh doc) as Hlt by (apply Hwf; eauto).
  assert (nodes doc1 !! p = Some pd) as Hp1 by (rewrite Hold; [exact Hp | exact Hlt]).
  destruct (attach_new (nodes doc1) p (fresh doc) pd nd Hp1 Hn Hpar ltac:(lia))
    as (Hn' & Hp' & Hother).
  unfold mounted. cbn [nodes fresh].
  split; [lia |]. split; [| split; [| split; [| split]]].
  - intros a Ha. apply Hwf1. unfold attach_last in Ha.
    rewrite !is_Some_alter_node in Ha. now apply (is_Some_detach (fresh doc) a).
  - unfold children_at. now rewrite Hp', Hp.
  - constructor; [| constructor].
    destruct t as [value | tag el trees].
    + destruct Hshow as [Hd Hc].
      split; [lia |]. eexists. split; [exact Hn' |]. split; assumption.
    + destruct Hshow as [Hd Hall].
      apply shows_element. split; [lia |]. eexists.
      split; [exact Hn' |]. split; [exact Hd |]. cbn [childNodes].
      eapply Forall2_impl; [exact Hall |]. intros c t.
      apply shows_transfer; [lia | lia |]. intros a Ha. apply Hother; lia.
  - intros a Ha Hap. rewrite Hother by (try exact Hap; lia). now apply Hold.
  - eexists pd, _. split; [exact Hp |]. split; [exact Hp' |]. split; reflexivity.
Qed.

Lemma with_document_twice (doc doc' : Document) (rt : Runtime) :
  with_document doc' (with_document doc rt) = with_document doc' rt.
Proof. reflexivity. Qed.

Lemma with_document_same (rt : Runtime) : with_document (document rt) rt = rt.
Proof. now destruct rt. Qed.

Section Mounting.

Variable component_name : nat -> string.
Variable components : nat -> Props -> Prog.

Lemma mount_children_spec (depth : nat) :
  mounts component_name components depth ->
  forall rest q path children index rt,
    forallb (plain depth) rest = true -> ready q (document rt) ->
    exists cs doc',
      mount_children component_name (reconcile component_name components depth) (Some q)
        path children index rest rt
      = Returned cs (with_document doc' rt) /\
      mounted q (document rt) doc' (flat_map getDomNodes cs)
        (flat_map (host_trees depth) rest).
Proof.
  intros IH rest. induction rest as [| child rest IHrest];
    intros q path children index rt Hplain Hready.
  - exists [], (document rt). split; [| now apply mounted_nil].
    cbn. unfold ret. now rewrite with_document_same.
  - cbn [forallb] in Hplain. apply andb_true_iff in Hplain as [Hchild Hrest].
    destruct (IH child q
                (createChildPath component_name path (node_key child) index (node_type child)
                   children) rt Hchild Hready) as (inst & doc1 & Hrun1 & Hm1).
    destruct (IHrest q path children (S index) (with_document doc1 rt) Hrest
                (mounted_ready _ _ _ _ _ Hm1)) as (cs & doc2 & Hrun2 & Hm2).
    exists (inst :: cs), doc2. split.
    + cbn [mount_children]. rewrite (bind_returned _ _ _ _ _ Hrun1).
      rewrite (bind_returned _ _ _ _ _ Hrun2). reflexivity.
    + cbn [flat_map]. apply (mounted_app q (document rt) doc1 doc2); [| exact Hm1 | exact Hm2].
      destruct Hready as [Hq Hwf]. now apply Hwf.
Qed.

Lemma createElement_setDomProps {A} (tag : string) (props : Props) (k : nat -> M A)
    (rt : Runtime) :
  (dom <- createElement tag ;; setDomProps dom props ;; k dom) rt
  = k (fresh (document rt))
      (with_document
         (mkDocument
            (<[fresh (document rt) :=
                 mkDomNode (ElementData tag (setDomProps_element props empty_element)) None []]>
               (nodes (document rt)))
            (S (fresh (document rt)))) rt).
Proof.
  unfold bind, createElement, alloc_node, setDomProps, modify_element, modify_nodes, modify.
  cbn [document nodes fresh with_document with_nodes]. now rewrite alter_insert_eq.
Qed.

Lemma ready_insert (p n : nat) (doc : Document) (nd : DomNode) :
  ready p doc -> n = fresh doc ->
  ready n (mkDocument (<[n := nd]> (nodes doc)) (S n)) /\
  (forall a, a < fresh doc -> (<[n := nd]> (nodes doc)) !! a = nodes doc !! a).
Proof.
  intros [Hp Hwf] ->. split; [split |]; cbn [nodes fresh].
  - rewrite lookup_insert_eq. eauto.
  - intros a. destruct (decide (a = fresh doc)) as [-> | Hne]; [lia |].
    rewrite lookup_insert_ne by congruence. intros Ha. apply Hwf in Ha. lia.
  - intros a Ha. apply lookup_insert_ne. lia.
Qed.

Lemma children_read_readable (node : VNode) (rt : Runtime) :
  children_readable node = true -> children_read node rt = Returned (children_of node) rt.
Proof. intros H. unfold children_read. now rewrite H. Qed.

Lemma mount_spec (depth : nat) : mounts component_name components depth.
Proof.
  induction depth as [| depth IH]; intros node p path rt Hplain Hready; [discriminate |].
  cbn [reconcile]. unfold reconcile_body. cbn [plain host_trees] in *.
  set (n := fresh (document rt)).
  destruct (node_type node) as [| tag | | c | description] eqn:Htype.
  - pose proof (mount_text component_name components
                  (reconcile component_name components depth) p node path rt Htype) as Hrun.
    cbn zeta in Hrun. rewrite Hrun. clear Hrun. eexists. eexists. split; [reflexivity |].
    set (nd := mkDomNode (TextData (text_of node)) None []).
    set (doc1 := mkDocument (<[n := nd]> (nodes (document rt))) (S n)).
    destruct (ready_insert p n (document rt) nd Hready eq_refl) as [[_ Hwf1] Hold].
    change (mounted p (document rt)
              (mkDocument (attach_last p n (detach n (nodes doc1))) (fresh doc1)) [n]
              [HText (text_of node)]).
    apply (mounted_one p n (document rt) doc1 nd (HText (text_of node)));
      [exact Hready | reflexivity | unfold doc1, n; cbn; lia | exact Hwf1 | exact Hold
      | apply lookup_insert_eq | reflexivity | split; reflexivity].
  - unfold mount. rewrite Htype. rewrite createElement_setDomProps. fold n.
    set (nd := mkDomNode (ElementData tag (setDomProps_element (node_props node) empty_element))
                 None []).
    destruct (ready_insert p n (document rt) nd Hready eq_refl) as [Hready1 Hold].
    set (rt1 := with_document (mkDocument (<[n := nd]> (nodes (document rt))) (S n)) rt) in *.
    apply andb_true_iff in Hplain as [Hread Hplain].
    rewrite (bind_returned _ _ _ _ _ (children_read_readable node rt1 Hread)).
    destruct (mount_children_spec depth IH (children_of node) n path (children_of node) 0 rt1
                Hplain Hready1) as (cs & doc2 & Hrun2 & Hm2).
    rewrite (bind_returned _ _ _ _ _ Hrun2).
    exists (Some (set_children cs (mkInstance HOST (Some n) node [] (node_key node) path))).
    exists (mkDocument (attach_last p n (detach n (nodes doc2))) (fresh doc2)).
    split; [reflexivity |].
    destruct Hm2 as (Hf2 & Hwf2 & Hch2 & Hsh2 & Hfr2 & (pd1 & pd2 & Ep1 & Ep2 & Hd2 & Hpar2)).
    cbn [document with_document rt1 nodes fresh] in *.
    rewrite lookup_insert_eq in Ep1. injection Ep1 as <-.
    apply (mounted_one p n (document rt) doc2 pd2
             (HElement tag (setDomProps_element (node_props node) empty_element)
                (flat_map (host_trees depth) (children_of node))));
      auto; try lia.
    + intros a Ha. rewrite Hfr2 by lia. now apply Hold.
    + split; [exact Hd2 |].
      unfold children_at in Hch2. rewrite Ep2, lookup_insert_eq in Hch2. cbn in Hch2.
      now rewrite Hch2.
  - unfold mount. rewrite Htype.
    apply andb_true_iff in Hplain as [Hread Hplain].
    rewrite (bind_returned _ _ _ _ _ (children_read_readable node rt Hread)).
    destruct (mount_children_spec depth IH (children_of node) p path (children_of node) 0 rt
                Hplain Hready) as (cs & doc2 & Hrun2 & Hm2).
    rewrite (bind_returned _ _ _ _ _ Hrun2).
    exists (Some (set_children cs (mkInstance FRAGMENT None node [] (node_key node) path))), doc2.
    split; [reflexivity | exact Hm2].
  - discriminate.
  - unfold mount. rewrite Htype. exists None, (document rt).
    split; [| now apply mounted_nil]. unfold ret. now rewrite with_document_same.
Qed.

End Mounting.

(** A host tag whose [children] property is a text: [mount] creates the
    element and then throws a [TypeError] where it calls [filter] on the
    text; nothing is inserted under the container. *)
Example mount_throws_on_unreadable_children :
  plain 1 (mkVNode (HostTag "div") None [("children", PValue (VStr "x"))]) = false /\
  match reconcile Scenario.no_name Scenario.no_components 1 (Some 0) None
          (Some (mkVNode (HostTag "div") None [("children", PValue (VStr "x"))])) ""
          Scenario.initial with
  | Thrown e rt' => e = TypeError /\ children_at (nodes (document rt')) 0 = []
  | _ => False
  end.
Proof. vm_compute. repeat split; reflexivity. Qed.

(** X23: take a tree of texts, host tags and fragments, without components
    and nested at most [depth] deep, in which the [children] property of
    every host tag and fragment is an array, absent or falsy (on any other
    value the mount ends in a [TypeError], see
    [mount_throws_on_unreadable_children]).  Mounting it under a host node
    that is in the document returns with [depth] units of fuel and changes
    only the document.  The host nodes of the new instance are new nodes,
    placed behind the children that [parentDom] had, in the order of the
    tree, and they are the roots of the host trees of the node: for a host
    tag an element of that tag, in the state that [setDomProps] gives a new
    element for the props of the node, with the trees of its children as
    child nodes; a text for a text; the trees of its children for a
    fragment; nothing for a type that is not known.  The other nodes of the
    document are as they were. *)
Theorem mount_builds_host_trees
    (component_name : nat -> string) (components : nat -> Props -> Prog)
    (depth : nat) (node : VNode) (p : nat) (path : string) (rt : Runtime) :
  plain depth node = true ->
  ready p (document rt) ->
  exists inst doc',
    reconcile component_name components depth (Some p) None (Some node) path rt
    = Returned inst (with_document doc' rt) /\
    children_at (nodes doc') p = children_at (nodes (document rt)) p ++ getDomNodes inst /\
    Forall2 (shows (fresh (document rt)) (fresh doc') (nodes doc')) (getDomNodes inst)
      (host_trees depth node) /\
    (forall a, a < fresh (document rt) -> a <> p ->
               nodes doc' !! a = nodes (document rt) !! a).
Proof.
  intros Hplain Hready.
  destruct (mount_spec component_name components depth node p path rt Hplain Hready)
    as (inst & doc' & Hrun & (_ & _ & Hch & Hsh & Hfr & _)).
  exists inst, doc'. auto.
Qed.

(** The list [A B C] mounted under the container of the empty document. *)
Lemma mount_builds_host_trees_witness :
  plain 3 Scenario.list_abc = true /\
  ready 0 (document Scenario.initial) /\
  host_trees 3 Scenario.list_abc
  = [HElement "ul" empty_element
       [HElement "li" empty_element [HText "A"]; HElement "li" empty_element [HText "B"];
        HElement "li" empty_element [HText "C"]]] /\
  exists inst doc',
    reconcile Scenario.no_name Scenario.no_components 3 (Some 0) None
      (Some Scenario.list_abc) "" Scenario.initial
    = Returned inst (with_document doc' Scenario.initial) /\
    children_at (nodes doc') 0
    = children_at (nodes (document Scenario.initial)) 0 ++ getDomNodes inst /\
    Forall2 (shows (fresh (document Scenario.initial)) (fresh doc') (nodes doc'))
      (getDomNodes inst) (host_trees 3 Scenario.list_abc) /\
    (forall a, a < fresh (document Scenario.initial) -> a <> 0 ->
               nodes doc' !! a = nodes (document Scenario.initial) !! a).
Proof.
  assert (ready 0 (document Scenario.initial)) as Hready.
  { split; [vm_compute; eauto |]. intros a [nd Ha]. cbn in Ha.
    apply lookup_singleton_Some in Ha as [<- _]. cbn. lia. }
  split; [reflexivity |]. split; [exact Hready |]. split; [reflexivity |].
  exact (mount_builds_host_trees Scenario.no_name Scenario.no_components 3
           Scenario.list_abc 0 "" Scenario.initial eq_refl Hready).
Defined.

(** ** The first render *)

Lemma is_Some_foldr_orphan (l : list nat) (ns : gmap nat DomNode) (a : nat) :
  is_Some (foldr orphan ns l !! a) <-> is_Some (ns !! a).
Proof.
  induction l as [| n l IH]; [reflexivity |]. cbn [foldr]. unfold orphan at 1.
  now rewrite is_Some_alter_node.
Qed.

(** Removing an instance adds no node to the document and takes none out
    of the store. *)
Lemma removeInstance_keys (c : nat) (instance : option Instance) (rt : Runtime) :
  exists ns',
    removeInstance (Some c) instance rt = Returned tt (with_nodes ns' rt) /\
    forall a, is_Some (ns' !! a) <-> is_Some (nodes (document rt) !! a).
Proof.
  unfold removeInstance. destruct instance as [i |];
    [| exists (nodes (document rt)); split;
       [unfold ret; now rewrite with_nodes_same | reflexivity]].
  generalize (getDomNodes (Some i)). intros l. revert rt.
  induction l as [| m l IH]; intros rt.
  - exists (nodes (document rt)). split; [| reflexivity].
    cbn. unfold ret. now rewrite with_nodes_same.
  - cbn [forEach].
    set (rt1 := if bool_decide (parent_of (nodes (document rt)) m = Some c)
                then with_nodes (detach m (nodes (document rt))) rt else rt).
    assert ((rt0 <- get ;;
             when (bool_decide (parent_of (nodes (document rt0)) m = Some c))
               (removeChild (Some c) m)) rt = Returned tt rt1) as Hstep.
    { unfold bind at 1, get at 1. subst rt1.
      destruct (bool_decide (parent_of (nodes (document rt)) m = Some c)) eqn:E; [| reflexivity].
      cbn. unfold bind, get. now rewrite E. }
    rewrite (bind_returned _ _ _ _ _ Hstep).
    destruct (IH rt1) as (ns' & Hrun & Hkeys).
    exists ns'. split.
    + rewrite Hrun. f_equal. subst rt1.
      destruct (bool_decide (parent_of (nodes (document rt)) m = Some c)); reflexivity.
    + intros a. rewrite Hkeys. subst rt1.
      destruct (bool_decide (parent_of (nodes (document rt)) m = Some c)); [| reflexivity].
      cbn. apply is_Some_detach.
Qed.

(** Emptying the container adds no node and takes none out of the store,
    and leaves the container without a child node. *)
Lemma clear_children_keys (c : nat) (rt : Runtime) :
  exists ns',
    clear_children c rt = Returned tt (with_nodes ns' rt) /\
    (forall a, is_Some (ns' !! a) <-> is_Some (nodes (document rt) !! a)) /\
    children_at ns' c = [].
Proof.
  unfold clear_children, modify_nodes, modify, children_at.
  destruct (nodes (document rt) !! c) as [pd |] eqn:E.
  - eexists. split; [reflexivity |]. split.
    + intros a. now rewrite is_Some_alter_node, is_Some_foldr_orphan.
    + rewrite lookup_alter, decide_True by reflexivity.
      now destruct (foldr orphan (nodes (document rt)) (childNodes pd) !! c).
  - exists (nodes (document rt)). split; [reflexivity |]. split; [reflexivity |].
    now rewrite E.
Qed.

(** X24: [setup] with a container that is in the document and a root node
    of texts, host tags and fragments, without components, nested at most
    [fuel] deep and with a [children] property that is an array, absent or
    falsy on every host tag and fragment, returns; afterwards the root
    binding holds the container, the node and the new instance, and the
    child nodes of the container are the host nodes of that instance: new
    nodes that are the roots of the host trees of the node (elements in the
    state that [setDomProps] gives them, and texts), in order.  Whatever was
    under the container before is no longer among its child nodes. *)
Theorem setup_renders_tree
    (component_name : nat -> string) (components : nat -> Props -> Prog)
    (fuel : nat) (node : VNode) (c : nat) (rt : Runtime) :
  plain fuel node = true ->
  ready c (document rt) ->
  exists inst rt',
    setup component_name components fuel (Some node) (Some c) rt = Returned tt rt' /\
    root rt' = mkRoot (Some c) (Some node) inst /\
    children_at (nodes (document rt')) c = getDomNodes inst /\
    Forall2 (shows (fresh (document rt)) (fresh (document rt')) (nodes (document rt')))
      (getDomNodes inst) (host_trees fuel node).
Proof.
  intros Hplain [Hc Hwf].
  destruct (removeInstance_keys c (root_instance (root rt)) rt) as (ns1 & Hrm & Hkeys1).
  destruct (clear_children_keys c (with_nodes ns1 rt)) as (ns2 & Hclear & Hkeys2 & Hempty).
  cbn [document with_nodes with_document nodes] in Hkeys2.
  set (rt0 := with_hooks (mkHooks ∅ ∅ ∅ [])
                (with_root (mkRoot (Some c) (Some node) None) (with_nodes ns2 rt))).
  assert (setup component_name components fuel (Some node) (Some c) rt
          = render component_name components fuel rt0) as Hsetup.
  { unfold setup. unfold bind at 1, get at 1.
    assert ((match root_instance (root rt) with
             | Some _ => removeInstance (Some c) (root_instance (root rt))
             | None => ret tt
             end) rt = Returned tt (with_nodes ns1 rt)) as Hrm'.
    { rewrite <- Hrm. now destruct (root_instance (root rt)). }
    rewrite (bind_returned _ _ _ _ _ Hrm').
    rewrite (bind_returned _ _ _ _ _ Hclear).
    reflexivity. }
  rewrite Hsetup. clear Hsetup.
  set (rt1 := with_hooks (with_componentStack [] (with_visited ∅ (hooks rt0))) rt0).
  assert (ready c (document rt1)) as Hready.
  { split; cbn.
    - now apply Hkeys2, Hkeys1.
    - intros a Ha. now apply Hwf, Hkeys1, Hkeys2. }
  destruct (mount_spec component_name components fuel node c "" rt1 Hplain Hready)
    as (inst & doc' & Hrun & (_ & _ & Hch & Hsh & _ & _)).
  exists inst. eexists. split; [| split; [| split]].
  - unfold render. unfold bind at 1, modify at 1. unfold bind at 1, get at 1.
    fold rt1. change (root rt1) with (mkRoot (Some c) (Some node) None).
    cbn [container root_node root_instance].
    unfold bind at 1. unfold bind at 1. rewrite Hrun. unfold modify at 1.
    unfold bind at 1. unfold cleanupUnusedHooks, modify at 1.
    rewrite flushEffects_spec. reflexivity.
  - now destruct (flush_pending _).
  - destruct (flush_pending _); cbn; cbn in Hch; now rewrite Hch, Hempty.
  - destruct (flush_pending _); exact Hsh.
Qed.

(** The list [A B C] set up in the container of the empty document. *)
Lemma setup_renders_tree_witness :
  plain 3 Scenario.list_abc = true /\
  ready 0 (document Scenario.initial) /\
  exists inst rt',
    setup Scenario.no_name Scenario.no_components 3 (Some Scenario.list_abc) (Some 0)
      Scenario.initial = Returned tt rt' /\
    root rt' = mkRoot (Some 0) (Some Scenario.list_abc) inst /\
    children_at (nodes (document rt')) 0 = getDomNodes inst /\
    Forall2 (shows (fresh (document Scenario.initial)) (fresh (document rt'))
               (nodes (document rt')))
      (getDomNodes inst) (host_trees 3 Scenario.list_abc).
Proof.
  assert (ready 0 (document Scenario.initial)) as Hready.
  { split; [vm_compute; eauto |]. intros a [nd Ha]. cbn in Ha.
    apply lookup_singleton_Some in Ha as [<- _]. cbn. lia. }
  split; [reflexivity |]. split; [exact Hready |].
  exact (setup_renders_tree Scenario.no_name Scenario.no_components 3 Scenario.list_abc 0
           Scenario.initial eq_refl Hready).
Defined.

(** ** Host nodes of the previous render are not moved *)

#[local] Instance same_document_frame : Frame same_document.
Proof.
  split; unfold same_document; try (intros; reflexivity).
  intros a b c H1 H2. congruence.
Qed.

Lemma stays_refl (lo : nat) (rt : Runtime) : stays lo rt rt.
Proof. split; [lia | auto]. Qed.

Lemma stays_trans (lo : nat) (a b c : Runtime) : stays lo a b -> stays lo b c -> stays lo a c.
Proof. intros [F1 H1] [F2 H2]. split; [lia | eauto]. Qed.

Lemma stays_same_document (lo : nat) (rt rt' : Runtime) :
  same_document rt rt' -> stays lo rt rt'.
Proof. unfold same_document. intros H. unfold stays. rewrite H. split; [lia | auto]. Qed.

Lemma stays_with_nodes (lo : nat) (rt : Runtime) (ns' : gmap nat DomNode) :
  (forall n q, n < lo -> parent_of ns' n = Some q -> parent_of (nodes (document rt)) n = Some q) ->
  stays lo rt (with_nodes ns' rt).
Proof. intros H. split; [cbn; lia | exact H]. Qed.

Lemma tends_of_respects (lo : nat) {A} (m : M A) :
  respects same_document m -> tends lo (fun _ => True) m.
Proof.
  intros H rt _. specialize (H rt).
  destruct (m rt); [split; [| exact I] | | exact I]; now apply stays_same_document.
Qed.

Lemma tends_ret (lo : nat) {A} (P : A -> Prop) (a : A) : P a -> tends lo P (ret a).
Proof. intros H rt _. split; [apply stays_refl | exact H]. Qed.

Lemma tends_throw (lo : nat) {A} (P : A -> Prop) (e : Error) : tends lo P (@throw A e).
Proof. intros rt _. apply stays_refl. Qed.

Lemma tends_get (lo : nat) : tends lo (fun _ => True) get.
Proof. intros rt _. split; [apply stays_refl | exact I]. Qed.

Lemma tends_bind (lo : nat) {A B} (P : A -> Prop) (Q : B -> Prop) (m : M A) (k : A -> M B) :
  tends lo P m -> (forall a, P a -> tends lo Q (k a)) -> tends lo Q (bind m k).
Proof.
  intros Hm Hk rt Hlo. unfold bind. specialize (Hm rt Hlo).
  destruct (m rt) as [a rt1 | e rt1 |]; [| exact Hm | exact I].
  destruct Hm as [Hs Ha]. specialize (Hk a Ha rt1).
  assert (lo <= fresh (document rt1)) as Hlo1 by (destruct Hs; lia).
  specialize (Hk Hlo1).
  destruct (k a rt1) as [b rt2 | e rt2 |]; [| | exact I].
  - destruct Hk as [Hs2 Hb]. split; [eapply stays_trans; eassumption | exact Hb].
  - eapply stays_trans; eassumption.
Qed.

Lemma tends_weaken (lo : nat) {A} (P Q : A -> Prop) (m : M A) :
  tends lo P m -> (forall a, P a -> Q a) -> tends lo Q m.
Proof.
  intros Hm HPQ rt Hlo. specialize (Hm rt Hlo).
  destruct (m rt); [| exact Hm | exact I]. destruct Hm. auto.
Qed.

Lemma tends_when (lo : nat) (b : bool) (m : M unit) :
  tends lo (fun _ => True) m -> tends lo (fun _ => True) (when b m).
Proof. intros H. destruct b; [exact H | now apply tends_ret]. Qed.

Lemma tends_forEach (lo : nat) {A} (f : A -> M unit) (l : list A) :
  (forall x, x ∈ l -> tends lo (fun _ => True) (f x)) -> tends lo (fun _ => True) (forEach f l).
Proof.
  induction l as [| x l IH]; intros H; cbn; [now apply tends_ret |].
  apply (tends_bind lo (fun _ => True)).
  - apply H. apply elem_of_cons. now left.
  - intros _ _. apply IH. intros y Hy. apply H. apply elem_of_cons. now right.
Qed.

Lemma tends_try_finally (lo : nat) {A} (P : A -> Prop) (body : M A) (fin : M unit) :
  tends lo P body -> tends lo (fun _ => True) fin -> tends lo P (try_finally body fin).
Proof.
  intros Hb Hf rt Hlo. unfold try_finally. specialize (Hb rt Hlo).
  destruct (body rt) as [a rt1 | e rt1 |]; [| | exact I].
  - destruct Hb as [Hs Ha].
    assert (lo <= fresh (document rt1)) as Hlo1 by (destruct Hs; lia).
    specialize (Hf rt1 Hlo1). unfold bind.
    destruct (fin rt1) as [[] rt2 | e' rt2 |]; [| | exact I]; cbn.
    + destruct Hf as [Hs2 _]. split; [eapply stays_trans; eassumption | exact Ha].
    + eapply stays_trans; eassumption.
  - assert (lo <= fresh (document rt1)) as Hlo1 by (destruct Hb; lia).
    specialize (Hf rt1 Hlo1). unfold bind.
    destruct (fin rt1) as [[] rt2 | e' rt2 |]; [| | exact I]; cbn.
    + destruct Hf as [Hs2 _]. eapply stays_trans; eassumption.
    + eapply stays_trans; eassumption.
Qed.

(** A change of the host nodes that gives no node below [lo] a parent. *)
Lemma tends_modify_nodes (lo : nat) (f : gmap nat DomNode -> gmap nat DomNode) :
  (forall ns n q, n < lo -> parent_of (f ns) n = Some q -> parent_of ns n = Some q) ->
  tends lo (fun _ => True) (modify_nodes f).
Proof.
  intros H rt _. split; [| exact I]. apply stays_with_nodes. apply H.
Qed.

Lemma parent_of_alter_data (g : DomNode -> DomNode) (m n : nat) (ns : gmap nat DomNode) :
  (forall nd, parentNode (g nd) = parentNode nd) ->
  parent_of (alter g m ns) n = parent_of ns n.
Proof.
  intros Hg. unfold parent_of. rewrite lookup_alter. case_decide; [| reflexivity].
  subst. destruct (ns !! n); cbn; [apply Hg | reflexivity].
Qed.

Lemma tends_alloc_node (lo : nat) (d : NodeData) :
  tends lo (fun n => lo <= n) (alloc_node d).
Proof.
  intros rt Hlo. unfold alloc_node. split; [| exact Hlo]. split; [cbn; lia |].
  intros n q Hn. cbn. unfold parent_of. rewrite lookup_insert_ne by lia. auto.
Qed.

Lemma tends_appendChild (lo : nat) (p : option nat) (n : nat) :
  lo <= n -> tends lo (fun _ => True) (appendChild p n).
Proof.
  intros Hn. unfold appendChild. destruct p as [p |]; [| apply tends_throw].
  apply tends_modify_nodes. intros ns m q Hm.
  rewrite parent_of_attach_last, decide_False by lia.
  rewrite parent_of_detach, decide_False by lia. auto.
Qed.

Lemma tends_insertBefore (lo : nat) (p : option nat) (n : nat) (a : option nat) :
  lo <= n -> tends lo (fun _ => True) (insertBefore p n a).
Proof.
  intros Hn. unfold insertBefore. destruct p as [p |]; [| apply tends_throw].
  destruct a as [r |]; [| now apply tends_appendChild].
  apply (tends_bind lo (fun _ => True)); [apply tends_get | intros rt _].
  destruct (negb _); [apply tends_throw |].
  destruct (Nat.eqb n r); [now apply tends_ret |].
  apply tends_modify_nodes. intros ns m q Hm.
  rewrite parent_of_attach_before, decide_False by lia.
  rewrite parent_of_detach, decide_False by lia. auto.
Qed.

Lemma tends_removeChild (lo : nat) (p : option nat) (n : nat) :
  tends lo (fun _ => True) (removeChild p n).
Proof.
  unfold removeChild. destruct p as [p |]; [| apply tends_throw].
  apply (tends_bind lo (fun _ => True)); [apply tends_get | intros rt _].
  destruct (bool_decide _); [| apply tends_throw].
  apply tends_modify_nodes. intros ns m q Hm. rewrite parent_of_detach.
  case_decide; [discriminate | auto].
Qed.

Lemma tends_set_nodeValue (lo n : nat) (value : string) :
  tends lo (fun _ => True) (set_nodeValue n value).
Proof.
  apply tends_modify_nodes. intros ns m q _.
  rewrite parent_of_alter_data; [auto |]. intros nd. now destruct (data nd).
Qed.

Lemma tends_modify_element (lo n : nat) (f : Element -> Element) :
  tends lo (fun _ => True) (modify_element n f).
Proof.
  apply tends_modify_nodes. intros ns m q _.
  rewrite parent_of_alter_data; [auto |]. intros nd. now destruct (data nd).
Qed.

Lemma tends_insert_following (lo : nat) (p : option nat) (previous : nat) (rest : list nat) :
  Forall (fun n => lo <= n) rest ->
  tends lo (fun _ => True) (insert_following p previous rest).
Proof.
  revert previous. induction rest as [| n rest IH]; intros previous H; cbn;
    [now apply tends_ret |].
  apply Forall_cons in H as [Hn H].
  apply (tends_bind lo (fun _ => True)); [apply tends_get | intros rt _].
  apply (tends_bind lo (fun _ => True)); [now apply tends_insertBefore | intros _ _].
  now apply IH.
Qed.

Lemma tends_insertInstance (lo : nat) (p : option nat) (i : option Instance)
    (a : option nat) :
  created_from lo i -> tends lo (fun _ => True) (insertInstance p i a).
Proof.
  unfold created_from, insertInstance. intros H.
  destruct i as [i |]; [| now apply tends_ret].
  destruct (getDomNodes (Some i)) as [| first rest]; [now apply tends_ret |].
  destruct a as [a |].
  - apply Forall_cons in H as [Hf H].
    apply (tends_bind lo (fun _ => True)); [now apply tends_insertBefore | intros _ _].
    now apply tends_insert_following.
  - apply tends_forEach. intros x Hx. apply tends_appendChild.
    rewrite Forall_forall in H. now apply H.
Qed.

Lemma tends_removeInstance (lo : nat) (p : option nat) (i : option Instance) :
  tends lo (fun _ => True) (removeInstance p i).
Proof.
  unfold removeInstance. destruct i as [i |]; [| now apply tends_ret].
  apply tends_forEach. intros n _.
  apply (tends_bind lo (fun _ => True)); [apply tends_get | intros rt _].
  apply tends_when, tends_removeChild.
Qed.

Lemma tends_updateDomProps (lo d : nat) (prevProps nextProps : Props) :
  tends lo (fun _ => True) (updateDomProps d prevProps nextProps).
Proof.
  unfold updateDomProps, setDomProps.
  apply (tends_bind lo (fun _ => True)); [| intros; apply tends_modify_element].
  apply tends_forEach. intros [key v] _. unfold removeDomProp.
  repeat match goal with
         | |- tends lo _ (if ?b then _ else _) => destruct b
         | |- tends lo _ (match ?x with _ => _ end) => destruct x
         end;
    first [now apply tends_ret | apply tends_throw | apply tends_modify_element
          | apply tends_when, tends_modify_element].
Qed.

Lemma tends_place_mounted (lo : nat) (p : option nat) (prevChild childInstance : option Instance)
    (nextSibling : option nat) :
  (prevChild = None -> created_from lo childInstance) ->
  tends lo (fun _ => True) (place_mounted p prevChild childInstance nextSibling).
Proof.
  intros H. unfold place_mounted.
  destruct childInstance as [ci |]; [| now apply tends_ret].
  destruct prevChild; [now apply tends_ret |].
  destruct nextSibling; [| now apply tends_ret].
  destruct (getFirstDom (Some ci)); [| now apply tends_ret].
  apply (tends_bind lo (fun _ => True)); [apply tends_get | intros rt _].
  apply tends_when, tends_insertInstance. now apply H.
Qed.

Section Tending.

Variable component_name : nat -> string.
Variable components : nat -> Props -> Prog.
Variable lo : nat.
Variable rec : option nat -> option Instance -> option VNode -> string -> M (option Instance).
Hypothesis rec_tends :
  forall p i n path,
    tends lo (fun r => remounts i n = true -> created_from lo r) (rec p i n path).

Lemma created_from_nil (kind : NodeTypes) (node : VNode) (key : option string)
    (path : string) :
  kind = FRAGMENT \/ kind = COMPONENT ->
  created_from lo (Some (mkInstance kind None node [] key path)).
Proof. intros [-> | ->]; constructor. Qed.

Lemma tends_mount_children p path children index rest :
  tends lo (fun cs => Forall (fun n => lo <= n) (flat_map getDomNodes cs))
    (mount_children component_name rec p path children index rest).
Proof.
  revert index. induction rest as [| child rest IH]; intros index; cbn.
  - apply tends_ret. constructor.
  - eapply tends_bind; [apply rec_tends | intros i Hi].
    eapply tends_bind; [apply IH | intros others Hothers].
    apply tends_ret. cbn. apply Forall_app. split; [now apply Hi | exact Hothers].
Qed.

Lemma tends_mountComponent p node c path :
  tends lo (created_from lo) (mountComponent components rec p node c path).
Proof.
  unfold mountComponent.
  eapply tends_bind; [apply tends_of_respects, respects_push_path; apply _ | intros _ _].
  eapply tends_bind; [apply tends_of_respects, respects_visit; apply _ | intros _ _].
  eapply tends_bind; [apply tends_get | intros rt _].
  eapply tends_bind.
  { apply tends_of_respects. destruct (state _ !! _); [apply respects_ret; apply _ |].
    apply respects_bind; [apply _ | apply respects_new_array; apply _ | intros a].
    apply respects_modify. intros rt'. reflexivity. }
  intros _ _. eapply tends_bind; [apply tends_get | intros rt1 _].
  eapply tends_bind.
  { apply tends_of_respects.
    destruct (cursor _ !! _); [apply respects_ret | apply respects_set_cursor]; apply _. }
  intros _ _. apply tends_try_finally; [| apply tends_of_respects, respects_pop_path; apply _].
  eapply tends_bind; [apply tends_of_respects, respects_run_component; apply _ |].
  intros childNode _. destruct childNode as [childNode |].
  - eapply tends_bind; [apply rec_tends | intros childInstance Hci].
    apply tends_ret. unfold created_from in *. cbn. rewrite app_nil_r. now apply Hci.
  - apply tends_ret. constructor.
Qed.

Lemma tends_children_read (node : VNode) :
  tends lo (fun _ => True) (children_read node).
Proof.
  unfold children_read.
  destruct (children_readable node); [now apply tends_ret | apply tends_throw].
Qed.

Lemma tends_mount p node path :
  tends lo (created_from lo) (mount component_name components rec p node path).
Proof.
  unfold mount. destruct (node_type node) as [| tag | | c | d].
  - eapply tends_bind; [apply tends_alloc_node | intros textNode Hn].
    assert (created_from lo
              (Some (mkInstance TEXT (Some textNode) node [] (node_key node) path))) as Hnew.
    { repeat constructor. exact Hn. }
    eapply tends_bind; [now apply tends_insertInstance | intros _ _].
    now apply tends_ret.
  - eapply tends_bind; [apply tends_alloc_node | intros d Hd].
    eapply tends_bind; [apply tends_modify_element | intros _ _].
    eapply tends_bind; [apply tends_children_read | intros children _].
    eapply tends_bind; [apply tends_mount_children | intros cs Hcs].
    assert (created_from lo
              (Some (set_children cs
                       (mkInstance HOST (Some d) node [] (node_key node) path)))) as Hnew.
    { repeat constructor. exact Hd. }
    eapply tends_bind; [now apply tends_insertInstance | intros _ _].
    now apply tends_ret.
  - eapply tends_bind; [apply tends_children_read | intros children _].
    eapply tends_bind; [apply tends_mount_children | intros cs Hcs].
    apply tends_ret. exact Hcs.
  - apply tends_mountComponent.
  - apply tends_ret. constructor.
Qed.

Lemma tends_reconcileChild p path prevChildren nextChildren i :
  tends lo (fun _ => True)
    (reconcileChild component_name rec p path prevChildren nextChildren i).
Proof.
  unfold reconcileChild. destruct (nextChildren !! i) as [nextChild |].
  - eapply tends_bind; [apply rec_tends | intros childInstance Hci].
    eapply tends_bind; [| intros _ _; now apply tends_ret].
    apply tends_place_mounted. intros Hnone. apply Hci. now rewrite Hnone.
  - eapply (tends_bind lo (fun _ => True)); [| intros _ _; now apply tends_ret].
    destruct (mjoin (prevChildren !! i)); [apply tends_removeInstance | now apply tends_ret].
Qed.

Lemma tends_reconcileChildren p instance node path :
  tends lo (fun _ => True) (reconcileChildren component_name rec p instance node path).
Proof.
  unfold reconcileChildren.
  eapply tends_bind; [apply tends_children_read | intros nextChildren _].
  eapply tends_bind; [| intros; now apply tends_ret].
  generalize (Nat.max (length (i_children instance)) (length nextChildren)).
  generalize (@nil (option Instance)). generalize 0.
  intros i acc remaining. revert i acc.
  induction remaining as [| remaining IH]; intros i acc; cbn.
  - now apply (tends_ret lo (fun _ => True)).
  - eapply tends_bind; [apply tends_reconcileChild | intros c _; apply IH].
Qed.

Lemma tends_updateComponent p instance node c path :
  tends lo (fun _ => True) (updateComponent components rec p instance node c path).
Proof.
  unfold updateComponent.
  eapply tends_bind; [apply tends_of_respects, respects_push_path; apply _ | intros _ _].
  eapply tends_bind; [apply tends_of_respects, respects_visit; apply _ | intros _ _].
  eapply tends_bind; [apply tends_of_respects, respects_set_cursor; apply _ | intros _ _].
  apply tends_try_finally; [| apply tends_of_respects, respects_pop_path; apply _].
  eapply tends_bind; [apply tends_of_respects, respects_run_component; apply _ |].
  intros childNode _.
  eapply (tends_bind lo (fun _ => True)).
  { destruct childNode; [| now apply tends_ret].
    eapply tends_weaken; [apply rec_tends | auto]. }
  intros nextChild _.
  eapply (tends_bind lo (fun _ => True)); [| intros _ _; now apply tends_ret].
  destruct nextChild; [now apply (tends_ret lo (fun _ => True)) |].
  destruct (mjoin _); [apply tends_removeInstance | now apply tends_ret].
Qed.

Lemma tends_reconcile_body p instance node path :
  tends lo (fun r => remounts instance node = true -> created_from lo r)
    (reconcile_body component_name components rec p instance node path).
Proof.
  unfold reconcile_body. destruct node as [node |].
  2:{ eapply (tends_bind lo (fun _ => True)); [| intros _ _; apply tends_ret; intros _; constructor].
      destruct instance; [apply tends_removeInstance | now apply tends_ret]. }
  destruct instance as [inst |];
    [| eapply tends_weaken; [apply tends_mount | auto]].
  cbn [remounts]. unfold differs.
  destruct (negb (bool_decide (node_type (i_node inst) = node_type node))
            || negb (bool_decide (i_key inst = node_key node))).
  { eapply tends_bind; [apply tends_removeInstance | intros _ _].
    eapply tends_weaken; [apply tends_mount | auto]. }
  eapply (tends_weaken lo (fun _ => True)); [| intros r _ H; discriminate H].
  destruct (node_type node) as [| tag | | c | d].
  - eapply (tends_bind lo (fun _ => True)); [| intros _ _; now apply tends_ret].
    destruct (i_dom _); [| now apply tends_ret].
    eapply tends_bind; [apply tends_get | intros rt _].
    apply tends_when, tends_set_nodeValue.
  - eapply (tends_bind lo (fun _ => True)).
    { destruct (i_dom _); [apply tends_updateDomProps | now apply tends_ret]. }
    intros _ _.
    eapply tends_bind; [apply tends_reconcileChildren | intros; now apply tends_ret].
  - eapply tends_bind; [apply tends_reconcileChildren | intros; now apply tends_ret].
  - eapply tends_weaken; [apply tends_updateComponent | auto].
  - now apply tends_ret.
Qed.

End Tending.

(** Whatever a reconciliation mounts is on host nodes it has created, and
    it moves no host node that was there. *)
Lemma tends_reconcile component_name components lo fuel p instance node path :
  tends lo (fun r => remounts instance node = true -> created_from lo r)
    (reconcile component_name components fuel p instance node path).
Proof.
  revert p instance node path. induction fuel as [| fuel IH]; intros p instance node path.
  - intros rt _. exact I.
  - cbn [reconcile]. apply tends_reconcile_body. exact IH.
Qed.

(** ** Children are matched by index: what the walk leaves *)

Lemma yields_ret {A} (P : A -> Prop) (a : A) : P a -> yields P (ret a).
Proof. intros H rt b rt' [= <- _]. exact H. Qed.

Lemma yields_bind {A B} (P : B -> Prop) (m : M A) (k : A -> M B) :
  (forall a, yields P (k a)) -> yields P (bind m k).
Proof.
  intros H rt b rt'. unfold bind.
  destruct (m rt) as [a rt1 | |]; [| discriminate | discriminate]. apply H.
Qed.

Lemma yields_try_finally {A} (P : A -> Prop) (body : M A) (fin : M unit) :
  yields P body -> yields P (try_finally body fin).
Proof.
  intros H rt a rt'. unfold try_finally, bind.
  destruct (body rt) as [b rt1 | e rt1 |] eqn:E; [| | discriminate].
  - destruct (fin rt1) as [[] rt2 | |]; [| discriminate | discriminate].
    intros [= <- _]. exact (H _ _ _ E).
  - destruct (fin rt1) as [[] rt2 | |]; discriminate.
Qed.

Lemma bind_inv {A B} (m : M A) (k : A -> M B) rt b rt' :
  bind m k rt = Returned b rt' ->
  exists a rt1, m rt = Returned a rt1 /\ k a rt1 = Returned b rt'.
Proof.
  unfold bind. destruct (m rt) as [a rt1 | |]; [| discriminate | discriminate]. eauto.
Qed.

Lemma yields_reconcileChildren component_name rec p instance node path :
  yields (fun inst' => exists cs, inst' = set_children cs instance)
    (reconcileChildren component_name rec p instance node path).
Proof.
  unfold reconcileChildren.
  apply yields_bind. intros nextChildren. apply yields_bind. intros cs.
  apply yields_ret. now exists cs.
Qed.

(** An instance and a node of the same type and key: what [reconcile]
    returns is that instance, updated. *)
Lemma reconcile_reuse component_name components fuel p old child path :
  differs old child = false ->
  yields (fun r => exists c,
            r = Some c /\ i_dom c = i_dom old /\ i_kind c = i_kind old /\
            i_key c = i_key old /\ i_node c = child /\ i_path c = path)
    (reconcile component_name components fuel p (Some old) (Some child) path).
Proof.
  intros Hsame. destruct fuel as [| fuel]; [intros rt r rt' H; discriminate H |].
  cbn [reconcile]. unfold reconcile_body. fold (differs old child). rewrite Hsame.
  assert (forall cs,
    let c := set_children cs (set_path path (set_node child old)) in
    i_dom c = i_dom old /\ i_kind c = i_kind old /\ i_key c = i_key old /\
    i_node c = child /\ i_path c = path) as Hshape.
  { intros cs. now destruct old. }
  assert (set_path path (set_node child old)
          = set_children (i_children old) (set_path path (set_node child old))) as Hself.
  { now destruct old. }
  destruct (node_type child) as [| tag | | c | d].
  - apply yields_bind. intros _. apply yields_ret. eexists. split; [reflexivity |].
    rewrite Hself. apply Hshape.
  - apply yields_bind. intros _. intros rt r rt' H.
    apply bind_inv in H as (inst' & rt1 & Hc & [= <- _]).
    apply yields_reconcileChildren in Hc as [cs ->].
    eexists. split; [reflexivity |]. apply Hshape.
  - intros rt r rt' H.
    apply bind_inv in H as (inst' & rt1 & Hc & [= <- _]).
    apply yields_reconcileChildren in Hc as [cs ->].
    eexists. split; [reflexivity |]. apply Hshape.
  - unfold updateComponent.
    apply yields_bind. intros _. apply yields_bind. intros _. apply yields_bind. intros _.
    apply yields_try_finally.
    apply yields_bind. intros childNode. apply yields_bind. intros nextChild.
    apply yields_bind. intros _. apply yields_ret.
    eexists. split; [reflexivity |]. now destruct old.
  - apply yields_ret. eexists. split; [reflexivity |]. rewrite Hself. apply Hshape.
Qed.

Lemma removed_from_stays (lo : nat) (target : option nat) (old : option Instance)
    (rt rt' : Runtime) :
  Forall (fun n => n < lo) (getDomNodes old) ->
  stays lo rt rt' ->
  removed_from target (nodes (document rt)) old ->
  removed_from target (nodes (document rt')) old.
Proof.
  intros Hold [_ Hs] H p n Ht Hn Hp.
  rewrite Forall_forall in Hold. apply (H p n Ht Hn). apply Hs; [now apply Hold | exact Hp].
Qed.

(** An instance and a node that differ in type or key: when [reconcile]
    returns, no host node of the instance is under [p]. *)
Lemma reconcile_replaces component_name components lo fuel target old child path rt :
  differs old child = true ->
  lo <= fresh (document rt) ->
  Forall (fun n => n < lo) (getDomNodes (Some old)) ->
  match reconcile component_name components fuel target (Some old) (Some child) path rt with
  | Returned r rt' => removed_from target (nodes (document rt')) (Some old)
  | _ => True
  end.
Proof.
  intros Hd Hlo Hold. destruct fuel as [| fuel]; [exact I |].
  cbn [reconcile]. unfold reconcile_body. fold (differs old child). rewrite Hd.
  unfold bind at 1.
  pose proof (tends_removeInstance lo target (Some old) rt Hlo) as Hrm.
  destruct (removeInstance target (Some old) rt) as [[] rt1 | |] eqn:E; [| exact I | exact I].
  destruct Hrm as [Hs1 _].
  assert (removed_from target (nodes (document rt1)) (Some old)) as Hgone.
  { intros p n -> Hn.
    destruct (removeInstance_spec p (Some old) rt) as (ns' & Hrun & _ & Hg).
    rewrite Hrun in E. injection E as <-. now apply Hg. }
  assert (lo <= fresh (document rt1)) as Hlo1 by (destruct Hs1; lia).
  pose proof (tends_mount component_name components lo
                (reconcile component_name components fuel)
                (tends_reconcile component_name components lo fuel) target child path
                rt1 Hlo1) as Hm.
  destruct (mount _ _ _ _ _ _ rt1) as [r rt' | |]; [| exact I | exact I].
  destruct Hm as [Hs2 _]. now apply (removed_from_stays lo target (Some old) rt1 rt').
Qed.

Lemma reconciled_at_stays component_name lo target path prev next i entry rt rt' :
  Forall (fun n => n < lo) (getDomNodes (mjoin (prev !! i))) ->
  stays lo rt rt' ->
  reconciled_at component_name lo target (nodes (document rt)) path prev next i entry ->
  reconciled_at component_name lo target (nodes (document rt')) path prev next i entry.
Proof.
  intros Hold Hs. unfold reconciled_at.
  destruct (next !! i) as [child |], (mjoin (prev !! i)) as [old |];
    try (destruct (differs old child)); try exact (fun H => H);
    intros [H1 H2]; (split; [| try exact H2]); try exact H1;
    now apply (removed_from_stays lo target _ rt rt').
Qed.

(** One step of the walk over the child list. *)
Lemma reconcileChild_spec component_name components lo fuel target path prev next i rt :
  lo <= fresh (document rt) ->
  Forall (fun n => n < lo) (getDomNodes (mjoin (prev !! i))) ->
  match reconcileChild component_name (reconcile component_name components fuel) target
          path prev next i rt with
  | Returned entry rt' =>
      stays lo rt rt' /\
      reconciled_at component_name lo target (nodes (document rt')) path prev next i entry
  | Thrown _ rt' => stays lo rt rt'
  | OutOfFuel => True
  end.
Proof.
  intros Hlo Hold.
  pose proof (tends_reconcileChild component_name lo
                (reconcile component_name components fuel)
                (tends_reconcile component_name components lo fuel)
                target path prev next i rt Hlo) as Ht.
  destruct (reconcileChild _ _ _ _ _ _ _ rt) as [entry rt' | e rt' |] eqn:E;
    [| exact Ht | exact I].
  split; [apply Ht |]. clear Ht.
  unfold reconcileChild in E. unfold reconciled_at.
  destruct (next !! i) as [child |].
  - apply bind_inv in E as (ci & rt1 & Hrec & E).
    apply bind_inv in E as ([] & rt2 & Hplace & [= <- <-]).
    pose proof (tends_reconcile component_name components lo fuel target
                  (mjoin (prev !! i)) (Some child)
                  (createChildPath component_name path (node_key child) i (node_type child)
                     next) rt Hlo) as Hnew.
    rewrite Hrec in Hnew. destruct Hnew as [_ Hnew].
    destruct (mjoin (prev !! i)) as [old |]; [| now apply Hnew].
    assert (rt2 = rt1) as ->.
    { unfold place_mounted in Hplace.
      destruct ci; cbn in Hplace; now injection Hplace. }
    destruct (differs old child) eqn:Hd.
    + split; [| apply Hnew; exact Hd].
      pose proof (reconcile_replaces component_name components lo fuel target old child
                    (createChildPath component_name path (node_key child) i
                       (node_type child) next) rt Hd Hlo Hold) as Hgone.
      now rewrite Hrec in Hgone.
    + exact (reconcile_reuse component_name components fuel target old child _ Hd _ _ _ Hrec).
  - apply bind_inv in E as ([] & rt1 & Hrm & [= <- <-]).
    split; [reflexivity |]. intros p n -> Hn.
    destruct (mjoin (prev !! i)) as [old |]; [| now apply elem_of_nil in Hn].
    destruct (removeInstance_spec p (Some old) rt) as (ns' & Hrun & _ & Hg).
    rewrite Hrun in Hrm. injection Hrm as <-. now apply Hg.
Qed.

Lemma nodes_of_child_below (lo : nat) (prev : list (option Instance)) (i : nat) :
  Forall (fun n => n < lo) (flat_map getDomNodes prev) ->
  Forall (fun n => n < lo) (getDomNodes (mjoin (prev !! i))).
Proof.
  intros H. destruct (prev !! i) as [c |] eqn:E; [| constructor]. cbn.
  rewrite Forall_forall in *. intros n Hn. apply H.
  apply list_elem_of_In, in_flat_map. exists c. split.
  - apply list_elem_of_In. eapply list_elem_of_lookup_2. exact E.
  - now apply list_elem_of_In.
Qed.

(** The walk over the child list. *)
Lemma walk_spec component_name components lo fuel target path prev next idxs rt :
  lo <= fresh (document rt) ->
  Forall (fun n => n < lo) (flat_map getDomNodes prev) ->
  match mapM (reconcileChild component_name (reconcile component_name components fuel)
                target path prev next) idxs rt with
  | Returned cs rt' =>
      stays lo rt rt' /\
      Forall2 (reconciled_at component_name lo target (nodes (document rt')) path prev next)
        idxs cs
  | Thrown _ rt' => stays lo rt rt'
  | OutOfFuel => True
  end.
Proof.
  intros Hlo Hold. revert rt Hlo.
  induction idxs as [| i idxs IH]; intros rt Hlo; cbn [mapM].
  - split; [apply stays_refl | constructor].
  - unfold bind at 1.
    pose proof (reconcileChild_spec component_name components lo fuel target path prev next
                  i rt Hlo (nodes_of_child_below lo prev i Hold)) as Hstep.
    destruct (reconcileChild _ _ _ _ _ _ _ rt) as [entry rt1 | e rt1 |];
      [| exact Hstep | exact I].
    destruct Hstep as [Hs1 Hat].
    assert (lo <= fresh (document rt1)) as Hlo1 by (destruct Hs1; lia).
    specialize (IH rt1 Hlo1). unfold bind at 1.
    destruct (mapM _ idxs rt1) as [cs rt2 | e rt2 |]; [| | exact I].
    + destruct IH as [Hs2 Hall]. split; [eapply stays_trans; eassumption |].
      constructor; [| exact Hall].
      apply (reconciled_at_stays component_name lo target path prev next i entry rt1 rt2);
        [now apply nodes_of_child_below | exact Hs2 | exact Hat].
    + eapply stays_trans; eassumption.
Qed.

(** ** Trees without components need no more fuel than their depth *)

Lemma ends_ret {A} (a : A) : ends (ret a).
Proof. intros rt. discriminate. Qed.

Lemma ends_throw {A} (e : Error) : ends (@throw A e).
Proof. intros rt. discriminate. Qed.

Lemma ends_get : ends get.
Proof. intros rt. discriminate. Qed.

Lemma ends_modify (f : Runtime -> Runtime) : ends (modify f).
Proof. intros rt. discriminate. Qed.

Lemma ends_bind {A B} (m : M A) (k : A -> M B) :
  ends m -> (forall a, ends (k a)) -> ends (bind m k).
Proof.
  intros Hm Hk rt. unfold bind. specialize (Hm rt).
  destruct (m rt) as [a rt1 | e rt1 |]; [apply Hk | discriminate | contradiction].
Qed.

Lemma ends_when (b : bool) (m : M unit) : ends m -> ends (when b m).
Proof. intros H. destruct b; [exact H | apply ends_ret]. Qed.

Lemma ends_forEach {A} (f : A -> M unit) (l : list A) :
  (forall x, ends (f x)) -> ends (forEach f l).
Proof.
  intros H. induction l as [| x l IH]; cbn; [apply ends_ret |].
  apply ends_bind; auto.
Qed.

(** Steps through the binds and case distinctions of an action that makes
    no recursive call. *)
Ltac ends_step :=
  first
    [ assumption
    | apply ends_ret
    | apply ends_throw
    | apply ends_get
    | apply ends_modify
    | apply ends_bind; [| intros ?]
    | apply ends_when
    | apply ends_forEach; intros ?
    | match goal with
      | |- ends (if ?b then _ else _) => destruct b
      | |- ends (match ?x with _ => _ end) => destruct x
      | |- ends (let '(_, _) := ?x in _) => destruct x
      end ].

Ltac ends_all := repeat ends_step.

Lemma ends_modify_nodes f : ends (modify_nodes f).
Proof. apply ends_modify. Qed.

Lemma ends_alloc_node d : ends (alloc_node d).
Proof. intros rt. discriminate. Qed.

Lemma ends_appendChild p n : ends (appendChild p n).
Proof. unfold appendChild. ends_all. Qed.

Lemma ends_insertBefore p n a : ends (insertBefore p n a).
Proof.
  unfold insertBefore. ends_all; apply ends_appendChild.
Qed.

Lemma ends_removeChild p n : ends (removeChild p n).
Proof. unfold removeChild. ends_all. Qed.

Lemma ends_insert_following p n l : ends (insert_following p n l).
Proof.
  revert n. induction l as [| m l IH]; intros n; cbn; [apply ends_ret |].
  apply ends_bind; [apply ends_get | intros rt].
  apply ends_bind; [apply ends_insertBefore | intros _; apply IH].
Qed.

Lemma ends_insertInstance p i a : ends (insertInstance p i a).
Proof.
  unfold insertInstance. destruct i as [i |]; [| apply ends_ret].
  destruct (getDomNodes (Some i)) as [| first rest]; [apply ends_ret |].
  destruct a as [a |].
  - apply ends_bind; [apply ends_insertBefore | intros _; apply ends_insert_following].
  - apply ends_forEach. intros x. apply ends_appendChild.
Qed.

Lemma ends_removeInstance p i : ends (removeInstance p i).
Proof.
  unfold removeInstance. destruct i as [i |]; [| apply ends_ret].
  apply ends_forEach. intros n.
  apply ends_bind; [apply ends_get | intros rt].
  apply ends_when, ends_removeChild.
Qed.

Lemma ends_modify_element n f : ends (modify_element n f).
Proof. apply ends_modify_nodes. Qed.

Lemma ends_updateDomProps d prevProps nextProps :
  ends (updateDomProps d prevProps nextProps).
Proof.
  unfold updateDomProps, setDomProps.
  apply ends_bind; [| intros; apply ends_modify_element].
  apply ends_forEach. intros [key v]. unfold removeDomProp.
  repeat match goal with
         | |- ends (if ?b then _ else _) => destruct b
         | |- ends (match ?x with _ => _ end) => destruct x
         end;
    first [apply ends_ret | apply ends_throw | apply ends_modify_element
          | apply ends_when, ends_modify_element].
Qed.

Lemma ends_place_mounted p prevChild childInstance nextSibling :
  ends (place_mounted p prevChild childInstance nextSibling).
Proof.
  unfold place_mounted.
  destruct childInstance as [ci |]; [| apply ends_ret].
  destruct prevChild; [apply ends_ret |].
  destruct nextSibling; [| apply ends_ret].
  destruct (getFirstDom (Some ci)); [| apply ends_ret].
  apply ends_bind; [apply ends_get | intros rt].
  apply ends_when, ends_insertInstance.
Qed.

Lemma ends_children_read (node : VNode) : ends (children_read node).
Proof.
  unfold children_read. destruct (children_readable node); [apply ends_ret | apply ends_throw].
Qed.

Lemma ends_bind_with {A B} (P : A -> Prop) (m : M A) (k : A -> M B) :
  ends m -> yields P m -> (forall a, P a -> ends (k a)) -> ends (bind m k).
Proof.
  intros Hm Hy Hk rt. unfold bind. specialize (Hm rt).
  destruct (m rt) as [a rt1 | e rt1 |] eqn:E; [| discriminate | contradiction].
  apply Hk. exact (Hy _ _ _ E).
Qed.

Lemma yields_children_read (node : VNode) :
  yields (fun cs => cs = children_of node) (children_read node).
Proof.
  intros rt cs rt'. unfold children_read.
  destruct (children_readable node); [| discriminate]. now intros [= <- _].
Qed.

Lemma forallb_lookup {A} (f : A -> bool) (l : list A) (i : nat) (x : A) :
  forallb f l = true -> l !! i = Some x -> f x = true.
Proof.
  intros H Hx. rewrite forallb_forall in H. apply H.
  apply list_elem_of_In. eapply list_elem_of_lookup_2. exact Hx.
Qed.

Section Ending.

Variable component_name : nat -> string.
Variable components : nat -> Props -> Prog.
Variable depth : nat.
Variable rec : option nat -> option Instance -> option VNode -> string -> M (option Instance).
Hypothesis rec_ends :
  forall p i n path, plain depth n = true -> ends (rec p i (Some n) path).

Lemma ends_mount_children p path children index rest :
  forallb (plain depth) rest = true ->
  ends (mount_children component_name rec p path children index rest).
Proof.
  revert index. induction rest as [| child rest IH]; intros index H; cbn.
  - apply ends_ret.
  - cbn in H. apply andb_true_iff in H as [Hc H].
    apply ends_bind; [now apply rec_ends | intros i].
    apply ends_bind; [now apply IH | intros others; apply ends_ret].
Qed.

Lemma ends_mount p node path :
  plain (S depth) node = true ->
  ends (mount component_name components rec p node path).
Proof.
  unfold mount. cbn [plain]. destruct (node_type node) as [| tag | | c | d]; intros H.
  - apply ends_bind; [apply ends_alloc_node | intros textNode].
    apply ends_bind; [apply ends_insertInstance | intros _; apply ends_ret].
  - apply andb_true_iff in H as [_ H].
    apply ends_bind; [apply ends_alloc_node | intros d].
    apply ends_bind; [apply ends_modify_element | intros _].
    apply (ends_bind_with (fun cs => cs = children_of node));
      [apply ends_children_read | apply yields_children_read | intros children ->].
    apply ends_bind; [now apply ends_mount_children | intros cs].
    apply ends_bind; [apply ends_insertInstance | intros _; apply ends_ret].
  - apply andb_true_iff in H as [_ H].
    apply (ends_bind_with (fun cs => cs = children_of node));
      [apply ends_children_read | apply yields_children_read | intros children ->].
    apply ends_bind; [now apply ends_mount_children | intros cs; apply ends_ret].
  - discriminate H.
  - apply ends_ret.
Qed.

Lemma ends_reconcileChild p path prevChildren nextChildren i :
  forallb (plain depth) nextChildren = true ->
  ends (reconcileChild component_name rec p path prevChildren nextChildren i).
Proof.
  intros H. unfold reconcileChild. destruct (nextChildren !! i) as [nextChild |] eqn:E.
  - apply ends_bind; [apply rec_ends; exact (forallb_lookup _ _ _ _ H E) | intros ci].
    apply ends_bind; [apply ends_place_mounted | intros _; apply ends_ret].
  - apply ends_bind; [| intros _; apply ends_ret].
    destruct (mjoin (prevChildren !! i)); [apply ends_removeInstance | apply ends_ret].
Qed.

Lemma ends_reconcileChildren p instance node path :
  forallb (plain depth) (children_of node) = true ->
  ends (reconcileChildren component_name rec p instance node path).
Proof.
  intros H. unfold reconcileChildren.
  apply (ends_bind_with (fun cs => cs = children_of node));
    [apply ends_children_read | apply yields_children_read | intros nextChildren ->].
  apply ends_bind; [| intros; apply ends_ret].
  generalize (Nat.max (length (i_children instance)) (length (children_of node))).
  generalize (@nil (option Instance)). generalize 0.
  intros i acc remaining. revert i acc.
  induction remaining as [| remaining IH]; intros i acc; cbn.
  - apply ends_ret.
  - apply ends_bind; [now apply ends_reconcileChild | intros c; apply IH].
Qed.

Lemma ends_reconcile_body p instance node path :
  plain (S depth) node = true ->
  ends (reconcile_body component_name components rec p instance (Some node) path).
Proof.
  intros H. unfold reconcile_body.
  destruct instance as [inst |]; [| now apply ends_mount].
  destruct (negb (bool_decide (node_type (i_node inst) = node_type node))
            || negb (bool_decide (i_key inst = node_key node))).
  { apply ends_bind; [apply ends_removeInstance | intros _; now apply ends_mount]. }
  cbn [plain] in H. destruct (node_type node) as [| tag | | c | d].
  - apply ends_bind; [| intros _; apply ends_ret].
    destruct (i_dom _); [| apply ends_ret].
    apply ends_bind; [apply ends_get | intros rt].
    apply ends_when, ends_modify_nodes.
  - apply andb_true_iff in H as [_ H]. apply ends_bind.
    { destruct (i_dom _); [apply ends_updateDomProps | apply ends_ret]. }
    intros _.
    apply ends_bind; [now apply ends_reconcileChildren | intros; apply ends_ret].
  - apply andb_true_iff in H as [_ H].
    apply ends_bind; [now apply ends_reconcileChildren | intros; apply ends_ret].
  - discriminate H.
  - apply ends_ret.
Qed.

End Ending.

(** A tree without components is reconciled with as much fuel as it is
    deep: the call returns or throws. *)
Lemma ends_reconcile component_name components depth p instance node path :
  plain depth node = true ->
  ends (reconcile component_name components depth p instance (Some node) path).
Proof.
  revert p instance node path.
  induction depth as [| depth IH]; intros p instance node path H; [discriminate H |].
  cbn [reconcile]. apply (ends_reconcile_body component_name components depth); [exact IH | exact H].
Qed.

(** The update of a child list. *)
Lemma reconcileChildren_spec component_name components lo fuel target inst node path rt :
  lo <= fresh (document rt) ->
  Forall (fun n => n < lo) (flat_map getDomNodes (i_children inst)) ->
  let prev := i_children inst in
  let next := children_of node in
  match reconcileChildren component_name (reconcile component_name components fuel) target
          inst node path rt with
  | Returned inst' rt' =>
      stays lo rt rt' /\
      exists cs,
        inst' = set_children cs inst /\
        length cs = Nat.max (length prev) (length next) /\
        forall i, i < Nat.max (length prev) (length next) ->
          exists entry,
            cs !! i = Some entry /\
            reconciled_at component_name lo target (nodes (document rt')) path prev next i
              entry
  | Thrown _ rt' => stays lo rt rt'
  | OutOfFuel => True
  end.
Proof.
  intros Hlo Hold prev next. rewrite reconcileChildren_mapM.
  unfold bind at 1, children_read.
  destruct (children_readable node); [| apply stays_refl].
  unfold ret at 1. fold prev next. unfold bind at 1.
  pose proof (walk_spec component_name components lo fuel target path prev next
                (seq 0 (Nat.max (length prev) (length next))) rt Hlo Hold) as Hwalk.
  destruct (mapM _ _ rt) as [cs rt' | e rt' |]; [| exact Hwalk | exact I].
  destruct Hwalk as [Hs Hall]. split; [exact Hs |]. exists cs. split; [reflexivity |].
  pose proof (Forall2_length _ _ _ Hall) as Hlen. rewrite length_seq in Hlen.
  split; [now symmetry |]. intros i Hi.
  destruct (Forall2_lookup_l _ _ _ i i Hall) as (entry & Hentry & Hat).
  { now apply lookup_seq_lt. }
  now exists entry.
Qed.

(** The update of a HOST or FRAGMENT instance by a node of the same type
    and key, when it returns or throws. *)
Lemma reconcile_same_slot_children
    (component_name : nat -> string) (components : nat -> Props -> Prog)
    (fuel : nat) (parentDom : option nat) (inst : Instance) (node : VNode)
    (path : string) (rt : Runtime) :
  node_type (i_node inst) = node_type node ->
  i_key inst = node_key node ->
  (node_type node = Fragment \/ exists tag, node_type node = HostTag tag) ->
  Forall (fun n => n < fresh (document rt)) (flat_map getDomNodes (i_children inst)) ->
  let prev := i_children inst in
  let next := children_of node in
  let target := match node_type node with Fragment => parentDom | _ => i_dom inst end in
  let lo := fresh (document rt) in
  match reconcile component_name components (S fuel) parentDom (Some inst) (Some node) path
          rt with
  | Returned r rt' =>
      stays lo rt rt' /\
      exists inst',
        r = Some inst' /\
        length (i_children inst') = Nat.max (length prev) (length next) /\
        forall i, i < Nat.max (length prev) (length next) ->
          exists entry,
            i_children inst' !! i = Some entry /\
            reconciled_at component_name lo target (nodes (document rt')) path prev next i
              entry
  | Thrown _ rt' => stays lo rt rt'
  | OutOfFuel => True
  end.
Proof.
  intros Htype Hkey Hkind Hold prev next target lo.
  cbn [reconcile]. unfold reconcile_body.
  rewrite Htype, Hkey, !bool_decide_eq_true_2 by reflexivity. cbn [negb orb].
  set (inst1 := set_path path (set_node node inst)).
  assert (i_children inst1 = prev) as Hprev by now destruct inst.
  assert (i_dom inst1 = i_dom inst) as Hdom by now destruct inst.
  assert (forall rt1, lo <= fresh (document rt1) ->
    match reconcileChildren component_name (reconcile component_name components fuel) target
            inst1 node path rt1 with
    | Returned inst' rt' =>
        stays lo rt1 rt' /\
        length (i_children inst') = Nat.max (length prev) (length next) /\
        forall i, i < Nat.max (length prev) (length next) ->
          exists entry,
            i_children inst' !! i = Some entry /\
            reconciled_at component_name lo target (nodes (document rt')) path prev next i
              entry
    | Thrown _ rt' => stays lo rt1 rt'
    | OutOfFuel => True
    end) as Hchildren.
  { intros rt1 Hlo1.
    pose proof (reconcileChildren_spec component_name components lo fuel target inst1 node
                  path rt1 Hlo1) as H.
    rewrite Hprev in H. specialize (H Hold). cbn zeta in H. fold next in H.
    destruct (reconcileChildren _ _ _ _ _ _ rt1) as [inst' rt' | e rt' |];
      [| exact H | exact I].
    destruct H as (Hs & cs & -> & Hlen & Hat). split; [exact Hs |].
    assert (i_children (set_children cs inst1) = cs) as -> by now destruct inst.
    now split. }
  destruct Hkind as [Hf | [tag Ht]].
  - subst target. rewrite Hf in *. unfold bind.
    specialize (Hchildren rt (le_n _)).
    destruct (reconcileChildren _ _ _ _ _ _ rt) as [inst' rt' | e rt' |];
      [| exact Hchildren | exact I].
    destruct Hchildren as (Hs & Hlen & Hat). split; [exact Hs |].
    exists inst'. now repeat split.
  - subst target. rewrite Ht in *. rewrite Hdom.
    match goal with
    | |- context [bind ?m _ rt] => set (pre := m)
    end.
    assert (tends lo (fun _ => True) pre) as Hprops.
    { subst pre. destruct (i_dom inst); [apply tends_updateDomProps | now apply tends_ret]. }
    specialize (Hprops rt (le_n _)). unfold bind at 1.
    destruct (pre rt) as [[] rt1 | e rt1 |]; [| exact Hprops | exact I].
    destruct Hprops as [Hs1 _].
    assert (lo <= fresh (document rt1)) as Hlo1 by (destruct Hs1; subst lo; lia).
    specialize (Hchildren rt1 Hlo1). unfold bind.
    destruct (reconcileChildren _ _ _ _ _ _ rt1) as [inst' rt' | e rt' |];
      [| eapply stays_trans; eassumption | exact I].
    destruct Hchildren as (Hs & Hlen & Hat).
    split; [eapply stays_trans; eassumption |].
    exists inst'. now repeat split.
Qed.


